(** * Promptober Pop-Cine: a shallow embedding of the day tracker

    The embedded program is the single-file React component of the
    repository (the [.jsx] version with the three IndexedDB object stores
    [days], [images] and [urls]).  JavaScript strings are sequences of
    UTF-16 code units, JavaScript values that travel through JSON or the
    structured clone of IndexedDB are the inductive type [json], the three
    object stores are finite maps, and every asynchronous handler is a
    computation in a state-and-exception monad over the whole system state
    (React state of the component, the database, a console and call log).
    The outside world (clock, network, DOM parser, object URLs) is an
    oracle record. *)

From Stdlib Require Import ZArith NArith List Ascii String DecimalString.
From stdpp Require Import base option list gmap countable sorting.

Set Default Proof Using "Type".
#[local] Set Warnings "-register-all".
Local Open Scope Z_scope.

(* ===================================================================== *)
(** ** JavaScript strings *)
(* ===================================================================== *)

(** A JavaScript string is a finite sequence of UTF-16 code units; a code
    unit is a number below 65536, kept here as an [N]. *)
Abbreviation jsstring := (list N).

(** String literals of the source, written as Rocq strings. *)
Definition js (s : string) : jsstring :=
  map N_of_ascii (list_ascii_of_string s).

(** [String(n)] / template interpolation of an integral number. *)
Definition ToString_Z (n : Z) : jsstring :=
  js (NilZero.string_of_int (Z.to_int n)).

(** White space and line terminators of ECMAScript: what [\s] matches and
    what [String.prototype.trim] strips. *)
Definition isWhiteSpace (c : N) : bool :=
  ((9 <=? c) && (c <=? 13))%N
  || (c =? 32)%N || (c =? 160)%N || (c =? 5760)%N
  || ((8192 <=? c) && (c <=? 8202))%N
  || (c =? 8232)%N || (c =? 8233)%N || (c =? 8239)%N
  || (c =? 8287)%N || (c =? 12288)%N || (c =? 65279)%N.

Fixpoint trimStart (s : jsstring) : jsstring :=
  match s with
  | c :: s' => if isWhiteSpace c then trimStart s' else s
  | [] => []
  end.

Definition trimEnd (s : jsstring) : jsstring := rev (trimStart (rev s)).

(** [s.trim()] *)
Definition trim (s : jsstring) : jsstring := trimEnd (trimStart s).

(** [s.split(/[...]/)] for a one-character class [sep]: the pieces between
    the separators, empty pieces included; the result is never empty. *)
Fixpoint splitOn (sep : N -> bool) (s : jsstring) : list jsstring :=
  match s with
  | [] => [[]]
  | c :: s' =>
      if sep c then [] :: splitOn sep s'
      else match splitOn sep s' with
           | p :: ps => (c :: p) :: ps
           | [] => [[c]]
           end
  end.

(** Does [p] occur at the start of [s]? *)
Fixpoint startsWith (p s : jsstring) : bool :=
  match p, s with
  | [], _ => true
  | a :: p', b :: s' => (a =? b)%N && startsWith p' s'
  | _ :: _, [] => false
  end.

(** [s.includes(p)] *)
Fixpoint includes (p s : jsstring) : bool :=
  startsWith p s
  || match s with
     | [] => false
     | _ :: s' => includes p s'
     end.

(* ===================================================================== *)
(** ** JSON values *)
(* ===================================================================== *)

(** The numbers that are no integers: negative zero, the two infinities
    and the finite numbers with a fractional part, [(2k+1)/2^e].  There
    is no [NaN]: [JSON.parse] yields none and the program computes
    none. *)
Inductive otherNumber : Type :=
| NegZero
| Infinite (negative : bool)
| Dyadic (k : Z) (e : positive).

(** The values the program stores and exchanges: what [JSON.parse] can
    return, which is also everything the day store ever holds (booleans,
    strings, numbers, arrays and plain objects).  The numbers the program
    computes with (years, days, timestamps) are the integers of [JNum];
    the other numbers, which a parsed file can hold, are those of
    [JNumOther].  An object is the list of its own properties in
    enumeration order. *)
Inductive json : Type :=
| JNull
| JBool (b : bool)
| JNum (n : Z)
| JStr (s : jsstring)
| JArr (l : list json)
| JObj (o : list (jsstring * json))
| JNumOther (x : otherNumber).

Abbreviation obj := (list (jsstring * json)).

Section json_ind.
Variable P : json -> Prop.
Hypothesis Hnull : P JNull.
Hypothesis Hbool : forall b, P (JBool b).
Hypothesis Hnum : forall n, P (JNum n).
Hypothesis Hstr : forall s, P (JStr s).
Hypothesis Harr : forall l, Forall P l -> P (JArr l).
Hypothesis Hobj : forall o, Forall (fun kv => P (snd kv)) o -> P (JObj o).
Hypothesis Hother : forall x, P (JNumOther x).

Fixpoint json_ind' (v : json) : P v :=
  match v with
  | JNull => Hnull
  | JBool b => Hbool b
  | JNum n => Hnum n
  | JStr s => Hstr s
  | JArr l =>
      Harr l ((fix go (l : list json) : Forall P l :=
                 match l with
                 | [] => Forall_nil_2 P
                 | x :: l' => Forall_cons_2 P x l' (json_ind' x) (go l')
                 end) l)
  | JObj o =>
      Hobj o ((fix go (o : obj) : Forall (fun kv => P (snd kv)) o :=
                 match o with
                 | [] => Forall_nil_2 _
                 | kv :: o' =>
                     Forall_cons_2 (fun kv => P (snd kv)) kv o'
                       (json_ind' (snd kv)) (go o')
                 end) o)
  | JNumOther x => Hother x
  end.
End json_ind.

(** Keys of the object stores must be countable: values are encoded as
    generic trees over their scalar leaves. *)
#[global] Instance otherNumber_eq_dec : EqDecision otherNumber.
Proof. solve_decision. Defined.

#[global] Instance otherNumber_countable : Countable otherNumber :=
  inj_countable'
    (fun x => match x with
              | NegZero => inl tt
              | Infinite negative => inr (inl negative)
              | Dyadic k e => inr (inr (k, e))
              end)
    (fun c => match c with
              | inl _ => NegZero
              | inr (inl negative) => Infinite negative
              | inr (inr (k, e)) => Dyadic k e
              end)
    (fun x => match x with
              | NegZero | Infinite _ | Dyadic _ _ => eq_refl
              end).

Definition json_leaf : Type :=
  ((unit + bool) + (Z + jsstring)) + otherNumber.

Fixpoint json_to_tree (v : json) : gen_tree json_leaf :=
  match v with
  | JNull => GenLeaf (inl (inl (inl tt)))
  | JBool b => GenLeaf (inl (inl (inr b)))
  | JNum n => GenLeaf (inl (inr (inl n)))
  | JStr s => GenLeaf (inl (inr (inr s)))
  | JArr l => GenNode 0 (map json_to_tree l)
  | JObj o =>
      GenNode 1
        (map (fun kv => GenNode 2 [GenLeaf (inl (inr (inr (fst kv))));
                                   json_to_tree (snd kv)]) o)
  | JNumOther x => GenLeaf (inr x)
  end.

Fixpoint json_of_tree (t : gen_tree json_leaf) : json :=
  match t with
  | GenLeaf (inl (inl (inl _))) => JNull
  | GenLeaf (inl (inl (inr b))) => JBool b
  | GenLeaf (inl (inr (inl n))) => JNum n
  | GenLeaf (inl (inr (inr s))) => JStr s
  | GenLeaf (inr x) => JNumOther x
  | GenNode 0 ts => JArr (map json_of_tree ts)
  | GenNode _ ts =>
      JObj (map (fun t =>
                   match t with
                   | GenNode _ [GenLeaf (inl (inr (inr k))); t'] =>
                       (k, json_of_tree t')
                   | _ => ([], JNull)
                   end) ts)
  end.

Lemma json_of_to_tree (v : json) : json_of_tree (json_to_tree v) = v.
Proof.
  induction v using json_ind'; simpl; try reflexivity.
  - f_equal. rewrite map_map.
    induction H as [|x l Hx Hl IH]; simpl; [reflexivity|].
    by rewrite Hx, IH.
  - f_equal. rewrite map_map.
    induction H as [|[k x] l Hx Hl IH]; simpl in *; [reflexivity|].
    by rewrite Hx, IH.
Qed.

#[global] Instance json_eq_dec : EqDecision json.
Proof.
  intros x y.
  destruct (decide (json_to_tree x = json_to_tree y)) as [E|E].
  - left. rewrite <- (json_of_to_tree x), <- (json_of_to_tree y).
    by rewrite E.
  - right. intros ->. by apply E.
Defined.

#[global] Instance json_countable : Countable json :=
  inj_countable' json_to_tree json_of_tree json_of_to_tree.

(** *** The JavaScript operators the component applies to such values *)

(** [Boolean(v)], the truthiness test of [!v], [v || d] and [filter(Boolean)]. *)
Definition truthy (v : json) : bool :=
  match v with
  | JNull => false
  | JBool b => b
  | JNum n => negb (n =? 0)
  | JStr s => match s with [] => false | _ => true end
  | JArr _ | JObj _ => true
  | JNumOther NegZero => false
  | JNumOther _ => true
  end.

(** Reading a property: [o.k], [None] is [undefined]. *)
Fixpoint obj_get (k : jsstring) (o : obj) : option json :=
  match o with
  | [] => None
  | (k', v) :: o' => if decide (k' = k) then Some v else obj_get k o'
  end.

(** Defining a property: an existing property keeps its place. *)
Fixpoint obj_set (k : jsstring) (v : json) (o : obj) : obj :=
  match o with
  | [] => [(k, v)]
  | (k', v') :: o' =>
      if decide (k' = k) then (k, v) :: o' else (k', v') :: obj_set k v o'
  end.

(** Object spread [{ ...base, ...patch }]. *)
Definition spread (base patch : obj) : obj :=
  fold_left (fun o kv => obj_set (fst kv) (snd kv) o) patch base.

(** [v.k] on an arbitrary value: only objects have the properties read by
    the component ([data], [html], [contents]). *)
Definition prop (k : jsstring) (v : json) : option json :=
  match v with
  | JObj o => obj_get k o
  | _ => None
  end.

(** Truthiness of a possibly [undefined] value. *)
Definition truthy_opt (v : option json) : bool :=
  match v with
  | Some v => truthy v
  | None => false
  end.

(** [JSON.parse(JSON.stringify(v))]: the text of a finite number reads
    back as that number, except that negative zero is written [0]; an
    infinite number is written [null]; strings, booleans and [null] read
    back as they are, arrays and objects element by element. *)
Fixpoint reparsed (v : json) : json :=
  match v with
  | JNumOther NegZero => JNum 0
  | JNumOther (Infinite _) => JNull
  | JArr l => JArr (map reparsed l)
  | JObj o => JObj (map (fun kv => (fst kv, reparsed (snd kv))) o)
  | _ => v
  end.

(* ===================================================================== *)
(** ** Regular expressions of the source *)
(* ===================================================================== *)

(** The regular expressions of the component are sequences of literal
    characters, one optional character and character classes under [+] and
    [*].  [reMatch r s] is the backtracking matcher of JavaScript anchored
    at the start of [s]: greedy quantifiers, the first alternative that
    lets the rest succeed wins; the result is the length of the match. *)
Inductive reAtom : Type :=
| Lit (c : N)
| OptLit (c : N)
| Plus (p : N -> bool)
| Star (p : N -> bool).

Fixpoint reStar (p : N -> bool) (k : jsstring -> option nat) (s : jsstring)
  : option nat :=
  match s with
  | c :: s' =>
      if p c then
        match reStar p k s' with
        | Some n => Some (S n)
        | None => k s
        end
      else k s
  | [] => k []
  end.

Fixpoint reMatch (r : list reAtom) (s : jsstring) : option nat :=
  match r with
  | [] => Some 0%nat
  | Lit c :: r' =>
      match s with
      | x :: s' => if (x =? c)%N then S <$> reMatch r' s' else None
      | [] => None
      end
  | OptLit c :: r' =>
      match s with
      | x :: s' =>
          if (x =? c)%N then
            match reMatch r' s' with
            | Some n => Some (S n)
            | None => reMatch r' s
            end
          else reMatch r' s
      | [] => reMatch r' s
      end
  | Plus p :: r' =>
      match s with
      | x :: s' => if p x then S <$> reStar p (reMatch r') s' else None
      | [] => None
      end
  | Star p :: r' => reStar p (reMatch r') s
  end.

(** [s.match(r)] with the [g] flag: all matches, leftmost first, the scan
    resuming where the previous match ended ([skip] counts the characters
    of the current match still to step over); an empty match advances the
    scan by one character. *)
Fixpoint matchAllFrom (r : list reAtom) (skip : nat) (s : jsstring)
  : list jsstring :=
  match s with
  | [] =>
      match skip, reMatch r [] with
      | O, Some _ => [[]]
      | _, _ => []
      end
  | _ :: s' =>
      match skip with
      | S k => matchAllFrom r k s'
      | O =>
          match reMatch r s with
          | Some (S n) => take (S n) s :: matchAllFrom r n s'
          | Some O => [] :: matchAllFrom r 0 s'
          | None => matchAllFrom r 0 s'
          end
      end
  end.

(** [s.match(r) || []] *)
Definition matchAll (r : list reAtom) (s : jsstring) : list jsstring :=
  matchAllFrom r 0 s.

(** [s.match(r)] without the [g] flag: the leftmost match. *)
Fixpoint reSearch (r : list reAtom) (s : jsstring) : option jsstring :=
  match reMatch r s with
  | Some n => Some (take n s)
  | None =>
      match s with
      | [] => None
      | _ :: s' => reSearch r s'
      end
  end.

Definition lits (s : string) : list reAtom := map Lit (js s).

(** [[A-Za-z0-9_-]] *)
Definition isMediaIdChar (c : N) : bool :=
  ((65 <=? c) && (c <=? 90))%N || ((97 <=? c) && (c <=? 122))%N
  || ((48 <=? c) && (c <=? 57))%N || (c =? 95)%N || (c =? 45)%N.

(** The characters excluded by the last class of the media pattern:
    double quote, single quote, closing parenthesis and white space. *)
Definition isDelimiter (c : N) : bool :=
  (c =? 34)%N || (c =? 39)%N || (c =? 41)%N || isWhiteSpace c.

(** [\d] *)
Definition isDigit (c : N) : bool := ((48 <=? c) && (c <=? 57))%N.

(** The media pattern of [fetchTweetImagesViaProxy]:
    [https?://pbs.twimg.com/media/], then one or more of [[A-Za-z0-9_-]],
    then any number of characters that are no delimiter. *)
Definition mediaRegex : list reAtom :=
  lits "http" ++ [OptLit 115%N] ++ lits "://pbs.twimg.com/media/"
  ++ [Plus isMediaIdChar; Star (fun c => negb (isDelimiter c))].

(** [/^https?:\/\//] *)
Definition schemeRegex : list reAtom :=
  lits "http" ++ [OptLit 115%N] ++ lits "://".

(** [/\/status\/(\d+)/] *)
Definition statusRegex : list reAtom := lits "/status/" ++ [Plus isDigit].

(** [Array.from(new Set(xs))]: first occurrences, in insertion order. *)
Fixpoint arrayFromSet {A} `{EqDecision A} (xs : list A) : list A :=
  match xs with
  | [] => []
  | x :: xs' => x :: filter (fun y => y <> x) (arrayFromSet xs')
  end.

(** [u.split('?')[0]] *)
Definition beforeQuery (u : jsstring) : jsstring :=
  match splitOn (fun c => (c =? 63)%N) u with
  | p :: _ => p
  | [] => []
  end.

(** The callback of [found.map] in [fetchTweetImagesViaProxy]. *)
Definition largeFormat (u : jsstring) : jsstring :=
  beforeQuery u ++ js "?format=jpg&name=large".

(** *** [encodeURIComponent] *)

Definition uriUnreserved (c : N) : bool :=
  ((65 <=? c) && (c <=? 90))%N || ((97 <=? c) && (c <=? 122))%N
  || ((48 <=? c) && (c <=? 57))%N
  || (c =? 45)%N || (c =? 95)%N || (c =? 46)%N || (c =? 33)%N
  || (c =? 126)%N || (c =? 42)%N || (c =? 39)%N || (c =? 40)%N
  || (c =? 41)%N.

Definition isLeadSurrogate (c : N) : bool :=
  ((55296 <=? c) && (c <=? 56319))%N.
Definition isTrailSurrogate (c : N) : bool :=
  ((56320 <=? c) && (c <=? 57343))%N.

Definition utf8 (cp : N) : list N :=
  (if cp <? 128 then [cp]
   else if cp <? 2048 then
     [N.lor 192 (N.shiftr cp 6); N.lor 128 (N.land cp 63)]
   else if cp <? 65536 then
     [N.lor 224 (N.shiftr cp 12); N.lor 128 (N.land (N.shiftr cp 6) 63);
      N.lor 128 (N.land cp 63)]
   else
     [N.lor 240 (N.shiftr cp 18); N.lor 128 (N.land (N.shiftr cp 12) 63);
      N.lor 128 (N.land (N.shiftr cp 6) 63); N.lor 128 (N.land cp 63)])%N.

Definition hexDigit (d : N) : N := (if d <? 10 then 48 + d else 55 + d)%N.

Definition percentEncode (bytes : list N) : jsstring :=
  flat_map (fun b => [37; hexDigit (N.shiftr b 4); hexDigit (N.land b 15)]%N)
    bytes.

(** [None] is the [URIError] thrown for a lone surrogate. *)
Fixpoint encodeURIComponent (s : jsstring) : option jsstring :=
  match s with
  | [] => Some []
  | c :: s' =>
      if uriUnreserved c then cons c <$> encodeURIComponent s'
      else if isLeadSurrogate c then
        match s' with
        | d :: s'' =>
            if isTrailSurrogate d then
              app (percentEncode
                     (utf8 (65536 + (c - 55296) * 1024 + (d - 56320))%N))
                <$> encodeURIComponent s''
            else None
        | [] => None
        end
      else if isTrailSurrogate c then None
      else app (percentEncode (utf8 c)) <$> encodeURIComponent s'
  end.

(** [tweetUrl.replace(/^https?:\/\//, empty)] *)
Definition stripScheme (u : jsstring) : jsstring :=
  match reMatch schemeRegex u with
  | Some n => drop n u
  | None => u
  end.

(* ===================================================================== *)
(** ** Pure helpers of the component *)
(* ===================================================================== *)

(** [idFor(year, day)], the template [`${year}-10-${day}`]. *)
Definition idFor (year day : Z) : jsstring :=
  ToString_Z year ++ js "-10-" ++ ToString_Z day.

(** The table of [getKnownTweetImages]. *)
Definition knownImages : list (jsstring * list jsstring) :=
  [ (js "1973385010481606663",
     [ js "https://pbs.twimg.com/media/G2LfJa8WgAM9qkW?format=jpg&name=large";
       js "https://pbs.twimg.com/media/G2LfJa1WkAACYAk?format=jpg&name=large";
       js "https://pbs.twimg.com/media/G2LfJbEXMAA39wl?format=jpg&name=large";
       js "https://pbs.twimg.com/media/G2LfJaxWMAABWFy?format=jpg&name=large" ]) ].

Definition getKnownTweetImages (tweetUrl : jsstring) : list jsstring :=
  match reSearch statusRegex tweetUrl with
  | Some m =>
      let tweetId := drop 8 m in
      match list_find (fun kv => fst kv = tweetId) knownImages with
      | Some (_, (_, imgs)) => imgs
      | None => []
      end
  | None => []
  end.

(** The parsing of [handleManualUrlsSave]:
    [input.split(/[\n,]/).map(s => s.trim()).filter(s => s.length > 0)]. *)
Definition parseManualUrls (input : jsstring) : list jsstring :=
  filter (fun s => (0 < length s)%nat)
    (map trim (splitOn (fun c => (c =? 10)%N || (c =? 44)%N) input)).

(* ===================================================================== *)
(** ** The system state *)
(* ===================================================================== *)

(** A [Blob]: always an object, hence always truthy. *)
Inductive Blob : Type := MkBlob (bytes : list N).

(** Records of the [images] store, key path [url]. *)
Record ImageEntry : Type := mkImageEntry {
  ie_url : jsstring;
  ie_blob : Blob;
  ie_timestamp : Z;
}.

(** Records of the [urls] store, key path [tweetUrl]. *)
Record UrlsEntry : Type := mkUrlsEntry {
  ue_tweetUrl : jsstring;
  ue_imageUrls : list jsstring;
  ue_timestamp : Z;
}.

(** What a settled [fetch] promise resolves to; a body reader that rejects
    is [None]. *)
Record Response : Type := mkResponse {
  res_ok : bool;
  res_text : option jsstring;
  res_json : option json;
  res_blob : option Blob;
}.

(** The calls on the outside world, in program order. *)
Inductive event : Type :=
| EvUrlsGet (tweetUrl : jsstring)
| EvUrlsPut (tweetUrl : jsstring) (imageUrls : list jsstring)
| EvFetch (url : jsstring)
| EvKnownImages (tweetUrl : jsstring)
| EvImagesGet (url : jsstring)
| EvImagesPut (url : jsstring)
| EvDaysPut (record : json)
| EvConsoleError (msg : jsstring).

#[global] Instance event_eq_dec : EqDecision event.
Proof. solve_decision. Defined.

(** The state of the page: the [useState] cells and the [useRef] cell the
    logic depends on, the three object stores of the database
    [promptoberDB], the number of oracle consultations so far and the call
    log.  The presentation-only cells ([loading], [oembedHTML],
    [manualUrlsInput], [allDaysCache], [cacheStats], the lightbox) are left
    out; the text of the manual-URL box is an input of its handler. *)
Record Sys : Type := mkSys {
  year : Z;
  selectedDay : Z;
  dayState : option obj;
  oembedImgs : list jsstring;
  prevImgCountRef : nat;
  days : gmap json obj;
  images : gmap jsstring ImageEntry;
  urls : gmap jsstring UrlsEntry;
  ticks : nat;
  log : list event;
}.

Definition set_selectedDay (v : Z) (s : Sys) : Sys :=
  mkSys (year s) v (dayState s) (oembedImgs s) (prevImgCountRef s)
    (days s) (images s) (urls s) (ticks s) (log s).
Definition set_dayState (v : option obj) (s : Sys) : Sys :=
  mkSys (year s) (selectedDay s) v (oembedImgs s) (prevImgCountRef s)
    (days s) (images s) (urls s) (ticks s) (log s).
Definition set_oembedImgs (v : list jsstring) (s : Sys) : Sys :=
  mkSys (year s) (selectedDay s) (dayState s) v (prevImgCountRef s)
    (days s) (images s) (urls s) (ticks s) (log s).
Definition set_prevImgCountRef (v : nat) (s : Sys) : Sys :=
  mkSys (year s) (selectedDay s) (dayState s) (oembedImgs s) v
    (days s) (images s) (urls s) (ticks s) (log s).
Definition set_days (v : gmap json obj) (s : Sys) : Sys :=
  mkSys (year s) (selectedDay s) (dayState s) (oembedImgs s)
    (prevImgCountRef s) v (images s) (urls s) (ticks s) (log s).
Definition set_images (v : gmap jsstring ImageEntry) (s : Sys) : Sys :=
  mkSys (year s) (selectedDay s) (dayState s) (oembedImgs s)
    (prevImgCountRef s) (days s) v (urls s) (ticks s) (log s).
Definition set_urls (v : gmap jsstring UrlsEntry) (s : Sys) : Sys :=
  mkSys (year s) (selectedDay s) (dayState s) (oembedImgs s)
    (prevImgCountRef s) (days s) (images s) v (ticks s) (log s).
Definition set_ticks (v : nat) (s : Sys) : Sys :=
  mkSys (year s) (selectedDay s) (dayState s) (oembedImgs s)
    (prevImgCountRef s) (days s) (images s) (urls s) v (log s).
Definition set_log (v : list event) (s : Sys) : Sys :=
  mkSys (year s) (selectedDay s) (dayState s) (oembedImgs s)
    (prevImgCountRef s) (days s) (images s) (urls s) (ticks s) v.

(** The outside world.  Every consultation is indexed by the number of
    consultations made before it, so that the clock may advance and a
    request may be answered differently when repeated.
    [imgSrcsOfMarkup html] is the DOM: the [src] of the [img] elements of a
    [div] whose [innerHTML] was set to [html], in document order. *)
Record Env : Type := mkEnv {
  dateNow : nat -> Z;
  fetch : nat -> jsstring -> option Response;
  imgSrcsOfMarkup : json -> list jsstring;
  createObjectURL : nat -> Blob -> jsstring;
  confirm : nat -> bool;
}.

(* ===================================================================== *)
(** ** Computations: state and exceptions *)
(* ===================================================================== *)

(** An awaited promise either fulfils or rejects; a rejection (or a thrown
    exception) keeps the state reached when it happened.  Operations run
    one after the other, each to completion. *)
Inductive result (A : Type) : Type :=
| Ok (a : A)
| Thrown.
Arguments Ok {A} a.
Arguments Thrown {A}.

Definition M (A : Type) : Type := Sys -> result A * Sys.

Definition ret {A} (a : A) : M A := fun s => (Ok a, s).

Definition bind {A B} (m : M A) (k : A -> M B) : M B :=
  fun s =>
    match m s with
    | (Ok a, s') => k a s'
    | (Thrown, s') => (Thrown, s')
    end.

Definition throw {A} : M A := fun s => (Thrown, s).

(** [try { m } catch { h }] *)
Definition tryCatch {A} (m h : M A) : M A :=
  fun s =>
    match m s with
    | (Ok a, s') => (Ok a, s')
    | (Thrown, s') => h s'
    end.

(** A promise that is started and not awaited: its rejection is lost. *)
Definition detach (m : M unit) : M unit := tryCatch m (ret tt).

Definition gets {A} (f : Sys -> A) : M A := fun s => (Ok (f s), s).
Definition modify (f : Sys -> Sys) : M unit := fun s => (Ok tt, f s).

Notation "'let!' x ':=' m 'in' k" := (bind m (fun x => k))
  (at level 10, x name, m at level 100, k at level 200).
Notation "m ';;;' k" := (bind m (fun _ => k))
  (at level 100, k at level 200, right associativity).

Definition emit (e : event) : M unit :=
  modify (fun s => set_log (log s ++ [e]) s).

Fixpoint forEach {A} (f : A -> M unit) (l : list A) : M unit :=
  match l with
  | [] => ret tt
  | x :: l' => f x ;;; forEach f l'
  end.

Fixpoint mapM {A B} (f : A -> M B) (l : list A) : M (list B) :=
  match l with
  | [] => ret []
  | x :: l' => let! y := f x in let! ys := mapM f l' in ret (y :: ys)
  end.

(** The final state and the outcome of a computation. *)
Definition exec {A} (m : M A) (s : Sys) : Sys := snd (m s).
Definition outcome {A} (m : M A) (s : Sys) : result A := fst (m s).

(* ===================================================================== *)
(** ** IndexedDB helpers *)
(* ===================================================================== *)

(** A valid IndexedDB key among the JSON values: a number, a string, or an
    array of valid keys. *)
Fixpoint validKey (v : json) : bool :=
  match v with
  | JNum _ | JNumOther _ | JStr _ => true
  | JArr l => forallb validKey l
  | JNull | JBool _ | JObj _ => false
  end.

(** The key a valid value stands for: number keys are compared by their
    value, so negative zero is the key zero. *)
Fixpoint keyValue (v : json) : json :=
  match v with
  | JNumOther NegZero => JNum 0
  | JArr l => JArr (map keyValue l)
  | _ => v
  end.

(** Evaluation of the key path [id] of the [days] store on a record. *)
Definition keyOf (o : obj) : option json :=
  match obj_get (js "id") o with
  | Some k => if validKey k then Some (keyValue k) else None
  | None => None
  end.

(** The order of IndexedDB keys: numbers before strings before arrays,
    strings by code units, arrays element by element. *)
Fixpoint lexLe (x y : jsstring) : bool :=
  match x, y with
  | [], _ => true
  | _ :: _, [] => false
  | a :: x', b :: y' => (a <? b)%N || ((a =? b)%N && lexLe x' y')
  end.

(** The value of a number, [m / 2^e] when it is finite. *)
Inductive numValue : Type :=
| NegInfinity
| Finite (m : Z) (e : N)
| PosInfinity.

Definition valueOf (v : json) : numValue :=
  match v with
  | JNum n => Finite n 0
  | JNumOther (Infinite true) => NegInfinity
  | JNumOther (Infinite false) => PosInfinity
  | JNumOther (Dyadic k e) => Finite (2 * k + 1) (Npos e)
  | _ => Finite 0 0
  end.

Definition numLe (a b : numValue) : bool :=
  match a, b with
  | NegInfinity, _ | _, PosInfinity => true
  | Finite m e, Finite m' e' =>
      m * 2 ^ Z.of_N e' <=? m' * 2 ^ Z.of_N e
  | _, _ => false
  end.

Fixpoint keyLe (a b : json) : bool :=
  match a, b with
  | (JNum _ | JNumOther _), (JNum _ | JNumOther _) =>
      numLe (valueOf a) (valueOf b)
  | (JNum _ | JNumOther _), _ => true
  | JStr _, (JNum _ | JNumOther _) => false
  | JStr x, JStr y => lexLe x y
  | JStr _, _ => true
  | JArr x, JArr y =>
      (fix go (x y : list json) : bool :=
         match x, y with
         | [], _ => true
         | _ :: _, [] => false
         | a :: x', b :: y' =>
             if decide (a = b) then go x' y' else keyLe a b
         end) x y
  | JArr _, (JNum _ | JNumOther _ | JStr _) => false
  | _, _ => true
  end.

(** The 365 days of the expiry tests, in milliseconds. *)
Definition TTL : Z := 365 * 24 * 60 * 60 * 1000.

Section Component.
Context (env : Env).

(** [Date.now()] *)
Definition DateNow : M Z :=
  fun s => (Ok (dateNow env (ticks s)), set_ticks (S (ticks s)) s).

(** [await fetch(url)]; a network error rejects. *)
Definition doFetch (url : jsstring) : M Response :=
  emit (EvFetch url) ;;;
  fun s =>
    match fetch env (ticks s) url with
    | Some r => (Ok r, set_ticks (S (ticks s)) s)
    | None => (Thrown, set_ticks (S (ticks s)) s)
    end.

(** [URL.createObjectURL(blob)] *)
Definition objectURL (b : Blob) : M jsstring :=
  fun s => (Ok (createObjectURL env (ticks s) b), set_ticks (S (ticks s)) s).

(** [confirm(...)] *)
Definition Confirm : M bool :=
  fun s => (Ok (confirm env (ticks s)), set_ticks (S (ticks s)) s).

(** A value that must be there: its absence is an exception. *)
Definition orThrow {A} (o : option A) : M A :=
  match o with
  | Some a => ret a
  | None => throw
  end.

(** [getDay(year, day)] *)
Definition getDay (y d : Z) : M (option obj) :=
  gets (fun s => days s !! JStr (idFor y d)).

(** [store.put(v)] on the [days] store: a [DataError] when the key path
    yields no valid key. *)
Definition daysPut (v : json) : M unit :=
  emit (EvDaysPut v) ;;;
  match v with
  | JObj o =>
      match keyOf o with
      | Some k => modify (fun s => set_days (<[k := o]> (days s)) s)
      | None => throw
      end
  | _ => throw
  end.

(** [setDay(state)] *)
Definition setDay (state : obj) : M unit := daysPut (JObj state).

(** [getAllDays()]: the records in ascending key order. *)
Definition getAllDays : M (list obj) :=
  gets (fun s =>
          (merge_sort (fun r1 r2 : json * obj => keyLe (fst r1) (fst r2))
             (map_to_list (days s))).*2).

(** [saveImageToCache(url, blob)] *)
Definition saveImageToCache (url : jsstring) (blob : Blob) : M unit :=
  let! now := DateNow in
  emit (EvImagesPut url) ;;;
  modify (fun s =>
            set_images (<[url := mkImageEntry url blob now]> (images s)) s).

(** [getImageFromCache(url)]: a read-only transaction. *)
Definition getImageFromCache (url : jsstring) : M (option Blob) :=
  emit (EvImagesGet url) ;;;
  let! result := gets (fun s => images s !! url) in
  match result with
  | Some e =>
      let! now := DateNow in
      let isExpired := now - ie_timestamp e >? TTL in
      ret (if isExpired then None else Some (ie_blob e))
  | None => ret None
  end.

(** [saveTweetUrlsToCache(tweetUrl, imageUrls)] *)
Definition saveTweetUrlsToCache (tweetUrl : jsstring)
    (imageUrls : list jsstring) : M unit :=
  let! now := DateNow in
  emit (EvUrlsPut tweetUrl imageUrls) ;;;
  modify (fun s =>
            set_urls
              (<[tweetUrl := mkUrlsEntry tweetUrl imageUrls now]> (urls s))
              s).

(** [getTweetUrlsFromCache(tweetUrl)] *)
Definition getTweetUrlsFromCache (tweetUrl : jsstring)
  : M (option (list jsstring)) :=
  emit (EvUrlsGet tweetUrl) ;;;
  let! result := gets (fun s => urls s !! tweetUrl) in
  match result with
  | Some e =>
      let! now := DateNow in
      let isExpired := now - ue_timestamp e >? TTL in
      ret (if isExpired then None else Some (ue_imageUrls e))
  | None => ret None
  end.

(** [downloadAndCacheImage(url)] *)
Definition downloadAndCacheImage (url : jsstring) : M jsstring :=
  tryCatch
    (let! cachedBlob := getImageFromCache url in
     match cachedBlob with
     | Some b => objectURL b
     | None =>
         let! response := doFetch url in
         if res_ok response then
           let! blob := orThrow (res_blob response) in
           saveImageToCache url blob ;;;
           objectURL blob
         else throw
     end)
    (ret url).

(** [clearImageCache()] and [clearUrlsCache()] *)
Definition clearImageCache : M unit :=
  modify (fun s => set_images ∅ s).
Definition clearUrlsCache : M unit :=
  modify (fun s => set_urls ∅ s).

(* =================================================================== *)
(** ** The media resolver *)
(* =================================================================== *)

(** [extractImgSrcsFromHTML(html)] *)
Definition extractImgSrcsFromHTML (html : json) : list jsstring :=
  arrayFromSet
    (filter (fun src : jsstring => src <> []) (imgSrcsOfMarkup env html)).

(** The [proxies] array of [fetchTweetImagesViaProxy]; [None] when
    [encodeURIComponent] throws. *)
Definition proxies (tweetUrl : jsstring) : option (list jsstring) :=
  match encodeURIComponent tweetUrl with
  | Some enc =>
      Some [ js "https://r.jina.ai/http://" ++ stripScheme tweetUrl;
             js "https://api.allorigins.win/get?url=" ++ enc;
             js "https://cors-anywhere.herokuapp.com/" ++ tweetUrl ]
  | None => None
  end.

(** One turn of the relay loop: [Some imgs] returns [imgs] from the
    function, [None] goes on with the next relay. *)
Definition relayAttempt (proxyUrl : jsstring)
  : M (option (list jsstring)) :=
  tryCatch
    (let! res := doFetch proxyUrl in
     if negb (res_ok res) then ret None
     else
       let! text :=
         (if includes (js "allorigins.win") proxyUrl then
            let! data := orThrow (res_json res) in
            ret (prop (js "contents") data)
          else
            let! t := orThrow (res_text res) in
            ret (Some (JStr t))) in
       match text with
       | Some (JStr t) =>
           let found := arrayFromSet (matchAll mediaRegex t) in
           if (0 <? length found)%nat then ret (Some (map largeFormat found))
           else ret None
       | _ => throw
       end)
    (ret None).

(** The [for] loop over the relays; [return []] when all have failed. *)
Fixpoint relayLoop (ps : list jsstring) : M (list jsstring) :=
  match ps with
  | [] => ret []
  | proxyUrl :: ps' =>
      let! r := relayAttempt proxyUrl in
      match r with
      | Some imgs => ret imgs
      | None => relayLoop ps'
      end
  end.

(** [fetchTweetImagesViaProxy(tweetUrl)] *)
Definition fetchTweetImagesViaProxy (tweetUrl : jsstring)
  : M (list jsstring) :=
  let! ps := orThrow (proxies tweetUrl) in
  relayLoop ps.

(** The [endpoint] of the oEmbed request for an encoded post URL. *)
Definition oembedEndpoint (enc : jsstring) : jsstring :=
  js "https://publish.x.com/oembed?omit_script=0&hide_thread=1&url=" ++ enc.

(** Step 1 of [handleTweetFetch]: the oEmbed request, inside its own
    [try]. *)
Definition oembedImages (url : jsstring) : M (list jsstring) :=
  tryCatch
    (let! enc := orThrow (encodeURIComponent url) in
     let endpoint := oembedEndpoint enc in
     let! res := doFetch endpoint in
     if res_ok res then
       let! data := orThrow (res_json res) in
       let html :=
         match prop (js "html") data with
         | Some h => if truthy h then h else JStr []
         | None => JStr []
         end in
       ret (extractImgSrcsFromHTML html)
     else ret [])
    (ret []).

(** Steps 0 to 3 of [handleTweetFetch] and the cache write. *)
Definition resolveTweetImages (url : jsstring) : M (list jsstring) :=
  let! cachedUrls := getTweetUrlsFromCache url in
  match cachedUrls with
  | Some (u :: us) => ret (u :: us)
  | _ =>
      let! images := oembedImages url in
      let! images :=
        (match images with
         | [] => fetchTweetImagesViaProxy url
         | _ => ret images
         end) in
      let! images :=
        (match images with
         | [] => emit (EvKnownImages url) ;;; ret (getKnownTweetImages url)
         | _ => ret images
         end) in
      (if (0 <? length images)%nat then saveTweetUrlsToCache url images
       else ret tt) ;;;
      ret images
  end.

(* =================================================================== *)
(** ** The component *)
(* =================================================================== *)

(** The record synthesized by the day-load effect for an absent day. *)
Definition defaultDay (y d : Z) : obj :=
  [ (js "id", JStr (idFor y d));
    (js "year", JNum y);
    (js "day", JNum d);
    (js "done", JBool false);
    (js "tweetUrl", JStr []);
    (js "manualImageUrls", JArr []) ].

(** [(dayState?.manualImageUrls || []).filter(Boolean)]; [None] is the
    [TypeError] of calling [filter] on a truthy value that is no array. *)
Definition manualImages (d : option obj) : option (list json) :=
  match d ≫= obj_get (js "manualImageUrls") with
  | Some v =>
      if truthy v then
        match v with
        | JArr l => Some (filter (fun x => truthy x = true) l)
        | _ => None
        end
      else Some []
  | None => Some []
  end.

(** The memo [allImages]. *)
Definition allImages (s : Sys) : option (list json) :=
  match manualImages (dayState s) with
  | Some manual => Some (map JStr (oembedImgs s) ++ manual)
  | None => None
  end.

(** [persist(partial)] *)
Definition persist (partial : obj) : M unit :=
  let! st := gets dayState in
  match st with
  | None => ret tt
  | Some d =>
      let next := spread d partial in
      modify (set_dayState (Some next)) ;;;
      setDay next
  end.

(** The body of the auto-completion effect for a render whose
    [allImages] is [imgs]. *)
Definition autoDoneEffect (imgs : list json) : M unit :=
  let! prev := gets prevImgCountRef in
  let curr := length imgs in
  let! st := gets dayState in
  (match st with
   | Some d =>
       if (prev =? 0)%nat && (0 <? curr)%nat
          && negb (truthy_opt (obj_get (js "done") d))
       then detach (persist [(js "done", JBool true)])
       else ret tt
   | None => ret tt
   end) ;;;
  modify (set_prevImgCountRef curr).

(** A render of the component followed by its passive effects.  The
    effect has the dependency list [[allImages.length]]: it runs when
    that length differs from the one of the render before, which is the
    value it left in the ref.  A render in which the memo throws
    unmounts the component and runs no effect. *)
Definition render : M unit :=
  let! s := gets id in
  match allImages s with
  | Some imgs =>
      if (length imgs =? prevImgCountRef s)%nat then ret tt
      else autoDoneEffect imgs
  | None => ret tt
  end.

(** The re-render that follows the state updates of a handler, whether
    the handler completes or rejects. *)
Definition thenRender {A} (m : M A) : M A :=
  fun s =>
    match m s with
    | (r, s') => (r, exec render s')
    end.

(** The state setter of the resolved images. *)
Definition setOembedImgs (imgs : list jsstring) : M unit :=
  modify (set_oembedImgs imgs).

(** The day-load effect. *)
Definition loadDay : M unit :=
  thenRender
    (let! y := gets year in
     let! d := gets selectedDay in
     let! st := getDay y d in
     modify (set_dayState (Some (default (defaultDay y d) st))) ;;;
     setOembedImgs []).

(** Mounting the page: fresh component state; the effects of the first
    render run, the auto-completion effect before the day-load effect. *)
Definition mount (y d : Z) : M unit :=
  modify (fun s =>
            mkSys y d None [] 0 (days s) (images s) (urls s) (ticks s)
              (log s)) ;;;
  autoDoneEffect [] ;;;
  loadDay.

(** A click on a day of the calendar. *)
Definition selectDay (d : Z) : M unit :=
  let! cur := gets selectedDay in
  if decide (cur = d) then ret tt
  else modify (set_selectedDay d) ;;; loadDay.

(** [toggleDone(e)] *)
Definition toggleDone (checked : bool) : M unit :=
  thenRender (persist [(js "done", JBool checked)]).

(** The [onChange] of the post URL box. *)
Definition editTweetUrl (value : jsstring) : M unit :=
  thenRender (detach (persist [(js "tweetUrl", JStr value)])).

(** [handleManualUrlsSave()] on the text [manualUrlsInput]. *)
Definition handleManualUrlsSave (manualUrlsInput : jsstring) : M unit :=
  let urls := parseManualUrls manualUrlsInput in
  thenRender
    (detach (persist [(js "manualImageUrls", JArr (map JStr urls))])).

(** The button that empties the manual list. *)
Definition clearManualUrls : M unit :=
  thenRender (detach (persist [(js "manualImageUrls", JArr [])])).

(** The loop of step 4 of [handleTweetFetch]. *)
Definition processImages (imgs : list jsstring) : M (list jsstring) :=
  mapM (fun imageUrl =>
          tryCatch (downloadAndCacheImage imageUrl) (ret imageUrl)) imgs.

(** Step 4 of [handleTweetFetch]: the use of the resolved list. *)
Definition showImages (images : list jsstring) : M unit :=
  if (0 <? length images)%nat then
    let! processedImages := processImages images in
    setOembedImgs processedImages
  else ret tt.

(** [handleTweetFetch()] *)
Definition handleTweetFetch : M unit :=
  let! st := gets dayState in
  match st with
  | None => ret tt
  | Some d =>
      match obj_get (js "tweetUrl") d with
      | None | Some JNull => ret tt
      | Some (JStr t) =>
          let url := trim t in
          match url with
          | [] => ret tt
          | _ =>
              thenRender
                (thenRender (setOembedImgs []) ;;;
                 tryCatch
                   (let! images := resolveTweetImages url in
                    showImages images)
                   (ret tt))
          end
      | Some _ => throw
      end
  end.

(** [handleExport()]: the exported file, given as the value that
    [JSON.parse] reads from the text [JSON.stringify(payload, null, 2)]
    written to it. *)
Definition handleExport : M json :=
  let! all := getAllDays in
  let! y := gets year in
  let payload := JObj [ (js "year", JNum y);
                        (js "month", JNum 10);
                        (js "data", JArr (map JObj all)) ] in
  ret (reparsed payload).

(** The [onload] callback of [handleImport]; [parsed] is the outcome of
    [JSON.parse] on the file, [None] when it throws.  [list.forEach] is a
    [TypeError] unless [list] is an array; a [put] that throws leaves the
    earlier ones of the transaction in place. *)
Definition importOnload (parsed : option json) : M unit :=
  tryCatch
    (let! json := orThrow parsed in
     let list :=
       match prop (js "data") json with
       | Some v => if truthy v then v else JArr []
       | None => JArr []
       end in
     (match list with
      | JArr l => forEach daysPut l
      | _ => throw
      end) ;;;
     let! y := gets year in
     let! d := gets selectedDay in
     let! st := getDay y d in
     modify (set_dayState st))
    (emit (EvConsoleError (js "Import error"))).

(** [handleImport(e)] for a chosen file. *)
Definition handleImport (parsed : option json) : M unit :=
  thenRender (importOnload parsed).

(** The [onClick] of the cache-clear button. *)
Definition handleClearCache : M unit :=
  let! yes := Confirm in
  if yes then
    thenRender
      (clearImageCache ;;;
       clearUrlsCache ;;;
       setOembedImgs [] ;;;
       let! st := gets dayState in
       match st with
       | Some d =>
           let updatedDayState :=
             spread d [ (js "tweetUrl", JStr []);
                        (js "manualImageUrls", JArr []);
                        (js "done", JBool false) ] in
           thenRender (setDay updatedDayState) ;;;
           modify (set_dayState (Some updatedDayState))
       | None => ret tt
       end)
  else ret tt.

(** What the user can do with the page. *)
Inductive action : Type :=
| Mount (y d : Z)
| SelectDay (d : Z)
| ToggleDone (checked : bool)
| EditTweetUrl (value : jsstring)
| ManualUrlsSave (input : jsstring)
| ManualUrlsClear
| TweetFetch
| Export
| Import (parsed : option json)
| ClearCache.

(** The handler of an action, with the renders it causes. *)
Definition step (a : action) : M unit :=
  match a with
  | Mount y d => mount y d
  | SelectDay d => selectDay d
  | ToggleDone c => toggleDone c
  | EditTweetUrl v => editTweetUrl v
  | ManualUrlsSave i => handleManualUrlsSave i
  | ManualUrlsClear => clearManualUrls
  | TweetFetch => handleTweetFetch
  | Export => handleExport ;;; ret tt
  | Import p => handleImport p
  | ClearCache => handleClearCache
  end.

End Component.

(** The page before its first load: an empty database. *)
Definition initial : Sys := mkSys 0 1 None [] 0 ∅ ∅ ∅ 0 [].

(** A run: each action with the world that answers it. *)
Definition run (tr : list (Env * action)) (s : Sys) : Sys :=
  fold_left (fun s ea => exec (step (fst ea) (snd ea)) s) tr s.

(** The states the page is in between two actions when every action
    runs to its end before the next one starts.  Each handler of [step]
    is run as a whole: the states a handler passes through while it
    waits (a day switch that has set the selected day and not yet loaded
    its record, for one) are not among them. *)
Definition reachable (s : Sys) : Prop :=
  exists tr : list (Env * action), s = run tr initial.

(* ===================================================================== *)
(** * Properties *)
(* ===================================================================== *)

(** Definitions that stay folded under [simpl]. *)
Arguments js : simpl never.
Arguments keyOf : simpl never.
Arguments idFor : simpl never.
Arguments spread : simpl never.
Arguments defaultDay : simpl never.
Arguments parseManualUrls : simpl never.
Arguments getKnownTweetImages : simpl never.
Arguments encodeURIComponent : simpl never.
Arguments matchAll : simpl never.
Arguments trim : simpl never.
Arguments TTL : simpl never.

(** Unfolding of the monadic combinators. *)
Ltac mrun :=
  unfold exec, outcome, thenRender, detach, tryCatch, bind, ret, gets,
    modify, emit, throw, orThrow in *;
  simpl in *.

(** The same, keeping [exec] and [outcome] folded. *)
Ltac mstep :=
  unfold thenRender, detach, tryCatch, bind, ret, gets, modify, emit, throw,
    orThrow in *;
  simpl in *.

(** ** Strings *)

Lemma trimStart_head (s : jsstring) (c : N) (t : jsstring) :
  trimStart s = c :: t -> isWhiteSpace c = false.
Proof.
  induction s as [|x s IH]; simpl; [discriminate|].
  destruct (isWhiteSpace x) eqn:E; [exact IH|].
  intros [= -> _]. exact E.
Qed.






Lemma splitOn_nonempty (sep : N -> bool) (s : jsstring) : splitOn sep s <> [].
Proof.
  destruct s as [|c s]; simpl; [done|].
  destruct (sep c); [done|]. by destruct (splitOn sep s).
Qed.





Lemma trim_nil : trim [] = [].
Proof. reflexivity. Qed.

(** ** Manual URL parsing *)



(** ** Loading a day *)

(** The page showing day 7 of October 2025 over an empty database. *)
Definition day7 : Sys := mkSys 2025 7 None [] 0 ∅ ∅ ∅ 0 [].

(** Test 4 of [runSelfTests]. *)
Example idFor_self_test : idFor 2025 7 = js "2025-10-7".
Proof. reflexivity. Qed.

Lemma render_empty (s : Sys) :
  allImages s = Some [] ->
  exec render s = set_prevImgCountRef 0 s.
Proof.
  intros H. unfold render. mrun. rewrite H. simpl.
  destruct (prevImgCountRef s) as [|n] eqn:E; simpl.
  - destruct s; simpl in *; subst; reflexivity.
  - unfold autoDoneEffect. mrun. rewrite E. simpl.
    destruct (dayState s); reflexivity.
Qed.

(** C7: loading a pair (year, day) that has no record in the store gives a
    day state whose id is [idFor year day], that is the year, the text
    -10- and the day, with done false, an empty post URL and an empty
    manual list; the load and the render that follows it write nothing to
    the store. *)
Theorem load_unseen_day (s : Sys) (y d : Z) :
  year s = y -> selectedDay s = d ->
  days s !! JStr (idFor y d) = None ->
  let s' := exec loadDay s in
  idFor y d = ToString_Z y ++ js "-10-" ++ ToString_Z d
  /\ (exists rec,
        dayState s' = Some rec
        /\ obj_get (js "id") rec = Some (JStr (idFor y d))
        /\ obj_get (js "year") rec = Some (JNum y)
        /\ obj_get (js "day") rec = Some (JNum d)
        /\ obj_get (js "done") rec = Some (JBool false)
        /\ obj_get (js "tweetUrl") rec = Some (JStr [])
        /\ obj_get (js "manualImageUrls") rec = Some (JArr []))
  /\ days s' = days s
  /\ log s' = log s.
Proof.
  intros Hy Hd Hnone s'. split; [reflexivity|].
  subst s'. unfold loadDay, getDay. mrun.
  rewrite Hy, Hd, Hnone. simpl.
  rewrite render_empty by reflexivity. simpl.
  split; [|split; reflexivity].
  eexists. split; [reflexivity|].
  unfold defaultDay. generalize (idFor y d). intros i.
  repeat split; reflexivity.
Qed.

Lemma load_unseen_day_witness :
  days day7 !! JStr (idFor 2025 7) = None
  /\ days (exec loadDay day7) = days day7.
Proof.
  split; [reflexivity|].
  apply (load_unseen_day day7 2025 7); reflexivity.
Defined.

(** ** Expiry of cached images *)

(** C8: reading an image entry whose timestamp is more than the TTL of one
    year (31536000000 ms) behind the clock yields nothing, and the read
    leaves the image store as it was: the expired entry is still there. *)
Theorem expired_image_is_miss (env : Env) (s : Sys) (url : jsstring)
    (e : ImageEntry) :
  images s !! url = Some e ->
  dateNow env (ticks s) - ie_timestamp e > TTL ->
  TTL = 31536000000
  /\ outcome (getImageFromCache env url) s = Ok None
  /\ images (exec (getImageFromCache env url) s) = images s
  /\ images (exec (getImageFromCache env url) s) !! url = Some e.
Proof.
  intros He Hold. split; [reflexivity|].
  unfold getImageFromCache. mrun. rewrite He. unfold DateNow. simpl.
  assert ((dateNow env (ticks s) - ie_timestamp e >? TTL) = true) as ->
    by (apply Z.gtb_lt; lia).
  auto.
Qed.

Definition staleImage : ImageEntry :=
  mkImageEntry (js "https://pbs.twimg.com/media/ABC123")
    (MkBlob [255%N; 216%N]) 1000.

Definition staleCache : Sys :=
  set_images {[ js "https://pbs.twimg.com/media/ABC123" := staleImage ]} day7.

(** A world without network whose clock shows one millisecond more than a
    year after time 1000. *)
Definition lateClock : Env :=
  mkEnv (fun _ => 1000 + TTL + 1) (fun _ _ => None) (fun _ => [])
    (fun _ _ => js "blob:local") (fun _ => true).

Lemma expired_image_is_miss_witness :
  images staleCache !! js "https://pbs.twimg.com/media/ABC123" = Some staleImage
  /\ dateNow lateClock (ticks staleCache) - ie_timestamp staleImage > TTL
  /\ outcome (getImageFromCache lateClock
                (js "https://pbs.twimg.com/media/ABC123")) staleCache
     = Ok None.
Proof.
  assert (images staleCache !! js "https://pbs.twimg.com/media/ABC123"
          = Some staleImage) as H1 by (vm_compute; reflexivity).
  assert (dateNow lateClock (ticks staleCache) - ie_timestamp staleImage > TTL)
    as H2 by (vm_compute; reflexivity).
  split; [exact H1|]. split; [exact H2|].
  apply (expired_image_is_miss lateClock staleCache _ staleImage H1 H2).
Defined.

(** ** Objects *)

Lemma obj_get_set_eq (k : jsstring) (v : json) (o : obj) :
  obj_get k (obj_set k v o) = Some v.
Proof.
  induction o as [|[k' v'] o IH]; simpl.
  - by rewrite decide_True.
  - destruct (decide (k' = k)) as [->|Hne]; simpl.
    + by rewrite decide_True.
    + by rewrite decide_False.
Qed.

Lemma obj_get_set_ne (k k' : jsstring) (v : json) (o : obj) :
  k' <> k -> obj_get k (obj_set k' v o) = obj_get k o.
Proof.
  intros Hne. induction o as [|[k0 v0] o IH]; simpl.
  - by rewrite decide_False.
  - destruct (decide (k0 = k')) as [->|Hne']; simpl.
    + by rewrite !decide_False.
    + destruct (decide (k0 = k)); [reflexivity|exact IH].
Qed.

(** ** The day store *)

(** Every record sits under the key its key path yields. *)
Definition daysWf (m : gmap json obj) : Prop :=
  map_Forall (fun k o => keyOf o = Some k) m.

#[global] Instance daysWf_dec (m : gmap json obj) : Decision (daysWf m).
Proof. unfold daysWf. apply _. Defined.

(** The store after the [put] of each record of a list, in order. *)
Definition upserts (recs : list obj) (m : gmap json obj) : gmap json obj :=
  fold_left (fun m o => match keyOf o with
                        | Some k => <[k := o]> m
                        | None => m
                        end) recs m.




Lemma upserts_keeps (recs : list obj) (m : gmap json obj) (k : json) :
  is_Some (m !! k) -> is_Some (upserts recs m !! k).
Proof.
  revert m. induction recs as [|o recs IH]; intros m Hm; simpl; [done|].
  apply IH. destruct (keyOf o) as [k'|]; [|done].
  destruct (decide (k' = k)) as [->|Hne].
  - rewrite lookup_insert_eq. eauto.
  - by rewrite lookup_insert_ne.
Qed.



(** The page is at rest: the last render has run its effect, so the ref
    holds the current number of images. *)
Definition atRest (s : Sys) : Prop :=
  exists imgs, allImages s = Some imgs /\ prevImgCountRef s = length imgs.

(** The record the store holds for the day on display. *)
Definition storedDay (s : Sys) : option obj :=
  days s !! JStr (idFor (year s) (selectedDay s)).


Lemma render_atRest (s : Sys) : atRest s -> exec render s = s.
Proof.
  intros [imgs [Himgs Hprev]]. unfold render. mrun.
  rewrite Himgs, Hprev, Nat.eqb_refl. reflexivity.
Qed.

Lemma exec_thenRender {A} (m : M A) (s : Sys) :
  exec (thenRender m) s = exec render (exec m s).
Proof. unfold exec, thenRender. by destruct (m s). Qed.

Lemma outcome_thenRender {A} (m : M A) (s : Sys) :
  outcome (thenRender m) s = outcome m s.
Proof. unfold outcome, thenRender. by destruct (m s). Qed.

(** A value that [JSON.stringify] and [JSON.parse] give back as it is:
    one that holds no negative zero and no infinite number. *)
Definition jsonSafe (v : json) : Prop := reparsed v = v.

#[global] Instance jsonSafe_dec (v : json) : Decision (jsonSafe v).
Proof. unfold jsonSafe. apply _. Defined.

(** A store all of whose records are such values. *)
Definition storeSafe (m : gmap json obj) : Prop :=
  map_Forall (fun _ o => jsonSafe (JObj o)) m.

#[global] Instance storeSafe_dec (m : gmap json obj) : Decision (storeSafe m).
Proof. unfold storeSafe. apply _. Defined.






Definition twoUrls : jsstring := js "https://a.com/1.jpg, https://b.com/2.png".

(** Day 7 after the user saved two manual URLs. *)
Definition day7saved : Sys :=
  exec (handleManualUrlsSave twoUrls) (exec (mount 2025 7) initial).




(** Day 7 with two manual images, set back to not done by the user. *)
Definition day7unmarked : Sys :=
  exec (toggleDone false) day7saved.


(** ** Import of a document without a record list *)

(** A document with an empty record list. *)






(** ** Renders that leave the record alone *)

Lemma render_silent (s : Sys) (imgs : list json) :
  allImages s = Some imgs ->
  prevImgCountRef s <> 0%nat \/ imgs = [] ->
  exec render s = set_prevImgCountRef (length imgs) s.
Proof.
  intros Himgs Hcase. unfold render. mrun. rewrite Himgs.
  destruct (length imgs =? prevImgCountRef s)%nat eqn:E; simpl.
  - apply Nat.eqb_eq in E. rewrite E. by destruct s.
  - unfold autoDoneEffect. mrun.
    destruct (dayState s) as [d|]; [|reflexivity].
    destruct Hcase as [Hprev| ->].
    + destruct (prevImgCountRef s); [done|reflexivity].
    + simpl. rewrite andb_false_r. reflexivity.
Qed.

(** ** The cache-clear button *)

(** The patch of the cache-clear handler. *)
Definition resetFields : obj :=
  [ (js "tweetUrl", JStr []); (js "manualImageUrls", JArr []);
    (js "done", JBool false) ].

Lemma spread_reset_get (d : obj) (k : jsstring) :
  k <> js "tweetUrl" -> k <> js "manualImageUrls" -> k <> js "done" ->
  obj_get k (spread d resetFields) = obj_get k d.
Proof.
  intros H1 H2 H3. unfold spread, resetFields. simpl.
  rewrite !obj_get_set_ne by done. reflexivity.
Qed.

Lemma spread_reset_fields (d : obj) :
  obj_get (js "tweetUrl") (spread d resetFields) = Some (JStr [])
  /\ obj_get (js "manualImageUrls") (spread d resetFields) = Some (JArr [])
  /\ obj_get (js "done") (spread d resetFields) = Some (JBool false).
Proof.
  unfold spread, resetFields. simpl. repeat split.
  - rewrite !obj_get_set_ne by (vm_compute; discriminate).
    apply obj_get_set_eq.
  - rewrite obj_get_set_ne by (vm_compute; discriminate).
    apply obj_get_set_eq.
  - apply obj_get_set_eq.
Qed.

Lemma exec_bind {A B} (m : M A) (k : A -> M B) (s : Sys) :
  exec (bind m k) s
  = match m s with
    | (Ok a, s') => exec (k a) s'
    | (Thrown, s') => s'
    end.
Proof. unfold exec, bind. by destruct (m s) as [[a|] s']. Qed.

(** C5, as amended: a confirmed cache-clear deletes no day record.  The
    record of the loaded day is stored as the loaded day state with
    [tweetUrl], [manualImageUrls] and [done] reset to the empty string,
    the empty list and false, its [id], [year] and [day] kept; every other
    record of the store is left as it was; both caches are emptied. *)
Theorem clear_cache_resets_loaded_day (env : Env) (s : Sys) (d : obj)
    (k : json) :
  confirm env (ticks s) = true ->
  dayState s = Some d ->
  keyOf d = Some k ->
  atRest s ->
  let s' := exec (handleClearCache env) s in
  (forall k', is_Some (days s !! k') -> is_Some (days s' !! k'))
  /\ days s' !! k = Some (spread d resetFields)
  /\ dayState s' = Some (spread d resetFields)
  /\ obj_get (js "tweetUrl") (spread d resetFields) = Some (JStr [])
  /\ obj_get (js "manualImageUrls") (spread d resetFields) = Some (JArr [])
  /\ obj_get (js "done") (spread d resetFields) = Some (JBool false)
  /\ obj_get (js "id") (spread d resetFields) = obj_get (js "id") d
  /\ obj_get (js "year") (spread d resetFields) = obj_get (js "year") d
  /\ obj_get (js "day") (spread d resetFields) = obj_get (js "day") d
  /\ (forall k', k' <> k -> days s' !! k' = days s !! k')
  /\ images s' = ∅ /\ urls s' = ∅.
Proof.
  intros Hyes Hd Hk [imgs [Himgs Hprev]] s'.
  assert (keyOf (spread d resetFields) = Some k) as Hk'.
  { unfold keyOf in *. rewrite spread_reset_get by (vm_compute; discriminate).
    exact Hk. }
  destruct (spread_reset_fields d) as [Ht [Hm Hdone]].
  unfold allImages in Himgs. rewrite Hd in Himgs.
  destruct (manualImages (Some d)) as [manual|] eqn:Hman; [|discriminate].
  injection Himgs as <-.
  eassert (exec (handleClearCache env) s = _) as Hexec.
  { unfold handleClearCache, Confirm, clearImageCache, clearUrlsCache,
      setDay, daysPut.
    rewrite exec_bind. simpl. rewrite Hyes.
    rewrite exec_thenRender.
    fold resetFields.
    unfold exec at 2. mstep. rewrite Hd. mstep. rewrite Hk'. mstep.
    erewrite (render_silent (set_days _ _) manual); cycle 1.
    { unfold allImages. simpl. rewrite Hd, Hman. reflexivity. }
    { simpl. rewrite Hprev, length_app.
      destruct manual; [by right|left; simpl; lia]. }
    simpl.
    erewrite (render_silent (set_dayState _ _) []); cycle 1.
    { unfold allImages, manualImages. simpl. rewrite Hm. reflexivity. }
    { by right. }
    reflexivity. }
  assert (days s' = <[k := spread d resetFields]> (days s)
          /\ dayState s' = Some (spread d resetFields)
          /\ images s' = ∅ /\ urls s' = ∅) as [Hdays [Hst [Hi Hu]]].
  { subst s'. rewrite Hexec. simpl. auto. }
  split.
  { intros k' Hsome. rewrite Hdays.
    destruct (decide (k = k')) as [->|Hne].
    - rewrite lookup_insert_eq. eauto.
    - by rewrite lookup_insert_ne. }
  split; [rewrite Hdays; apply lookup_insert_eq|].
  split; [exact Hst|].
  do 3 (split; [assumption|]).
  do 3 (split; [apply spread_reset_get; vm_compute; discriminate|]).
  split; [|by split].
  intros k' Hne. rewrite Hdays. by apply lookup_insert_ne.
Qed.

(** A world without network, in which the user confirms every dialog. *)
Definition offline : Env :=
  mkEnv (fun n => 1000 + Z.of_nat n) (fun _ _ => None) (fun _ => [])
    (fun _ _ => js "blob:local") (fun _ => true).

Lemma clear_cache_resets_loaded_day_witness :
  confirm offline (ticks day7saved) = true
  /\ (exists d, dayState day7saved = Some d
                /\ keyOf d = Some (JStr (js "2025-10-7")))
  /\ atRest day7saved
  /\ images (exec (handleClearCache offline) day7saved) = ∅.
Proof.
  assert (atRest day7saved) as Hrest
    by (eexists; split; vm_compute; reflexivity).
  split; [reflexivity|].
  split; [eexists; split; vm_compute; reflexivity|].
  split; [exact Hrest|].
  eapply (clear_cache_resets_loaded_day offline day7saved _
            (JStr (js "2025-10-7")) eq_refl); [| |exact Hrest];
    vm_compute; reflexivity.
Defined.

(** Day 8 was completed with one manual image, then day 7 was selected. *)
Definition day8doneDay7shown : Sys :=
  run [ (offline, Mount 2025 8);
        (offline, ManualUrlsSave (js "https://a.com/1.jpg"));
        (offline, SelectDay 7) ] initial.

(** C5 as stated fails: the record of a day that is not the loaded one
    keeps its [done] flag and its manual images through a cache-clear. *)
Lemma clear_cache_counterexample :
  exists o,
    days day8doneDay7shown !! JStr (js "2025-10-8") = Some o
    /\ obj_get (js "done") o = Some (JBool true)
    /\ obj_get (js "manualImageUrls") o
       = Some (JArr [JStr (js "https://a.com/1.jpg")])
    /\ days (exec (handleClearCache offline) day8doneDay7shown)
         !! JStr (js "2025-10-8") = Some o.
Proof.
  eexists. split; [vm_compute; reflexivity|].
  repeat split; vm_compute; reflexivity.
Qed.

(** ** The media pattern *)

(** An atom that cannot consume the character [d]. *)
Definition rejects (d : N) (a : reAtom) : Prop :=
  match a with
  | Lit c | OptLit c => c <> d
  | Plus p | Star p => p d = false
  end.

Lemma reStar_stop (p : N -> bool) (k : jsstring -> option nat) (d : N)
    (b : jsstring) :
  p d = false ->
  (forall a, k (a ++ d :: b) = k a) ->
  forall a, reStar p k (a ++ d :: b) = reStar p k a.
Proof.
  intros Hp Hk a. induction a as [|x a IH]; simpl.
  - rewrite Hp. apply (Hk []).
  - rewrite IH. destruct (p x); [|apply (Hk (x :: a))].
    destruct (reStar p k a); [reflexivity|apply (Hk (x :: a))].
Qed.

(** A match never runs over a character that every atom rejects. *)
Lemma reMatch_stop (r : list reAtom) (d : N) (b : jsstring) :
  Forall (rejects d) r ->
  forall a, reMatch r (a ++ d :: b) = reMatch r a.
Proof.
  induction 1 as [|at_ r Hat _ IH]; intros a; [reflexivity|].
  destruct at_ as [c|c|p|p]; simpl in *.
  - destruct a as [|x a]; simpl.
    + by rewrite (proj2 (N.eqb_neq d c)).
    + by rewrite IH.
  - destruct a as [|x a]; simpl.
    + rewrite (proj2 (N.eqb_neq d c)) by done. apply (IH []).
    + rewrite IH. change (x :: a ++ d :: b) with ((x :: a) ++ d :: b).
      rewrite IH. reflexivity.
  - destruct a as [|x a]; simpl.
    + by rewrite Hat.
    + by rewrite reStar_stop.
  - by apply reStar_stop.
Qed.

Lemma reStar_le (p : N -> bool) (k : jsstring -> option nat) :
  (forall s n, k s = Some n -> (n <= length s)%nat) ->
  forall s n, reStar p k s = Some n -> (n <= length s)%nat.
Proof.
  intros Hk s. induction s as [|x s IH]; intros n; simpl.
  - apply (Hk []).
  - destruct (p x); [|apply (Hk (x :: s))].
    destruct (reStar p k s) as [m|] eqn:E.
    + intros [= <-]. specialize (IH m eq_refl). lia.
    + apply (Hk (x :: s)).
Qed.

Lemma reMatch_le (r : list reAtom) (s : jsstring) (n : nat) :
  reMatch r s = Some n -> (n <= length s)%nat.
Proof.
  revert s n. induction r as [|at_ r IH]; intros s n; simpl.
  - intros [= <-]. lia.
  - destruct at_ as [c|c|p|p].
    + destruct s as [|x s]; [discriminate|].
      destruct (x =? c)%N; [|discriminate].
      destruct (reMatch r s) as [m|] eqn:E; [|discriminate].
      intros [= <-]. apply IH in E. simpl. lia.
    + destruct s as [|x s]; [apply IH|].
      destruct (x =? c)%N; [|apply IH].
      destruct (reMatch r s) as [m|] eqn:E; [|apply IH].
      intros [= <-]. apply IH in E. simpl. lia.
    + destruct s as [|x s]; [discriminate|].
      destruct (p x); [|discriminate].
      destruct (reStar p (reMatch r) s) as [m|] eqn:E; [|discriminate].
      intros [= <-]. apply reStar_le in E; [simpl; lia|apply IH].
    + apply reStar_le, IH.
Qed.

(** The scan of a text up to a rejected character is the scan of the part
    before it, and resumes after it. *)
Lemma matchAllFrom_stop (r : list reAtom) (d : N) (b : jsstring) :
  Forall (rejects d) r ->
  reMatch r [] = None ->
  forall a skip, (skip <= length a)%nat ->
    matchAllFrom r skip (a ++ d :: b)
    = matchAllFrom r skip a ++ matchAllFrom r 0 b.
Proof.
  intros Hr Hnil a. induction a as [|x a IH]; intros skip Hskip; simpl in *.
  - assert (skip = 0%nat) as -> by lia.
    pose proof (reMatch_stop r d b Hr []) as E0. simpl in E0.
    simpl. rewrite E0, Hnil. reflexivity.
  - destruct skip as [|k]; [|apply IH; lia].
    change (x :: a ++ d :: b) with ((x :: a) ++ d :: b).
    rewrite (reMatch_stop r d b Hr (x :: a)).
    destruct (reMatch r (x :: a)) as [[|n]|] eqn:E.
    + rewrite IH by lia. reflexivity.
    + apply reMatch_le in E. simpl in E.
      rewrite IH by lia. simpl. f_equal. f_equal.
      apply take_app_le. lia.
    + apply IH. lia.
Qed.

Lemma matchAllFrom_skip (r : list reAtom) (s : jsstring) :
  reMatch r [] = None -> matchAllFrom r (length s) s = [].
Proof.
  intros Hnil. induction s as [|x s IH]; simpl; [by rewrite Hnil|exact IH].
Qed.

(** A string is a media URL when the media pattern matches all of it. *)
Definition isMediaUrl (u : jsstring) : Prop :=
  reMatch mediaRegex u = Some (length u).

#[global] Instance isMediaUrl_dec (u : jsstring) : Decision (isMediaUrl u).
Proof. unfold isMediaUrl. apply _. Defined.

Lemma mediaRegex_nil : reMatch mediaRegex [] = None.
Proof. reflexivity. Qed.

Lemma matchAllFrom_cons (r : list reAtom) (x : N) (s : jsstring) :
  matchAllFrom r 0 (x :: s)
  = match reMatch r (x :: s) with
    | Some (S n) => take (S n) (x :: s) :: matchAllFrom r n s
    | Some O => [] :: matchAllFrom r 0 s
    | None => matchAllFrom r 0 s
    end.
Proof. reflexivity. Qed.

Lemma matchAll_mediaUrl (u : jsstring) :
  isMediaUrl u -> matchAll mediaRegex u = [u].
Proof.
  unfold isMediaUrl, matchAll. intros Hu.
  destruct u as [|x u]; [discriminate|].
  rewrite matchAllFrom_cons, Hu. simpl length. cbv beta iota.
  rewrite matchAllFrom_skip by reflexivity.
  f_equal. apply (firstn_all (x :: u)).
Qed.

Lemma delimiter_not_id (d : N) :
  isDelimiter d = true -> isMediaIdChar d = false.
Proof.
  unfold isDelimiter, isWhiteSpace, isMediaIdChar.
  rewrite !orb_true_iff, !andb_true_iff, !N.leb_le, !N.eqb_eq.
  intros H.
  repeat (apply orb_false_iff; split);
    try (apply andb_false_iff; rewrite !N.leb_gt);
    try (apply N.eqb_neq);
    lia.
Qed.

Lemma mediaRegex_rejects (d : N) :
  isDelimiter d = true -> Forall (rejects d) mediaRegex.
Proof.
  intros Hd.
  assert (forall c, isDelimiter c = false -> c <> d) as Hlit
    by (intros c Hc ->; congruence).
  unfold mediaRegex, lits. rewrite !Forall_app. repeat split.
  - apply Forall_fmap, Forall_forall. intros c Hc. simpl. apply Hlit.
    revert c Hc. apply Forall_forall. vm_compute. repeat constructor.
  - repeat constructor. by apply Hlit.
  - apply Forall_fmap, Forall_forall. intros c Hc. simpl. apply Hlit.
    revert c Hc. apply Forall_forall. vm_compute. repeat constructor.
  - repeat constructor; simpl.
    + by apply delimiter_not_id.
    + by rewrite Hd.
Qed.

(** A text made of tokens, each two separated by one delimiter. *)
Definition joinTokens (t0 : jsstring) (rest : list (N * jsstring)) : jsstring :=
  t0 ++ flat_map (fun dt => fst dt :: snd dt) rest.

Lemma matchAll_joinTokens (t0 : jsstring) (rest : list (N * jsstring)) :
  Forall (fun dt => isDelimiter (fst dt) = true) rest ->
  matchAll mediaRegex (joinTokens t0 rest)
  = flat_map (matchAll mediaRegex) (t0 :: map snd rest).
Proof.
  intros H. revert t0. unfold joinTokens, matchAll.
  induction H as [|[d t] rest Hd _ IH]; intros t0; simpl in *.
  - by rewrite !app_nil_r.
  - rewrite matchAllFrom_stop;
      [|by apply mediaRegex_rejects|reflexivity|lia].
    f_equal. apply IH.
Qed.

(** Literal characters are matched one for one. *)
Lemma reMatch_lits (p : jsstring) (r : list reAtom) (s : jsstring) (n : nat) :
  reMatch (map Lit p ++ r) s = Some n ->
  exists s' n',
    s = p ++ s' /\ reMatch r s' = Some n' /\ n = (length p + n')%nat.
Proof.
  revert s n. induction p as [|c p IH]; intros s n; simpl.
  - intros H. by exists s, n.
  - destruct s as [|x s]; [discriminate|].
    destruct (x =? c)%N eqn:E; [|discriminate].
    apply N.eqb_eq in E. subst x.
    destruct (reMatch (map Lit p ++ r) s) as [m|] eqn:Hm; [|discriminate].
    intros [= <-]. destruct (IH s m Hm) as [s' [n' [-> [Hr ->]]]].
    by exists s', n'.
Qed.

(** What a starred class consumes belongs to the class. *)
Lemma reStar_split (p : N -> bool) (k : jsstring -> option nat)
    (s : jsstring) (n : nat) :
  reStar p k s = Some n ->
  exists a m,
    n = (a + m)%nat /\ (a <= length s)%nat
    /\ Forall (fun c => p c = true) (take a s)
    /\ k (drop a s) = Some m.
Proof.
  revert n. induction s as [|x s IH]; intros n; simpl.
  - intros H. exists 0%nat, n. simpl. split; [reflexivity|].
    split; [lia|]. split; [constructor|exact H].
  - destruct (p x) eqn:Hx.
    + destruct (reStar p k s) as [m|] eqn:E.
      * intros [= <-]. destruct (IH m eq_refl) as [a [m' [-> [Ha [Hall Hk]]]]].
        exists (S a), m'. simpl. split; [reflexivity|].
        split; [lia|]. split; [by constructor|exact Hk].
      * intros H. exists 0%nat, n. simpl. split; [reflexivity|].
        split; [lia|]. split; [constructor|exact H].
    + intros H. exists 0%nat, n. simpl. split; [reflexivity|].
      split; [lia|]. split; [constructor|exact H].
Qed.

(** The text of a match of the media pattern: the scheme, the host and
    path of the media server, then a run of characters none of which is
    a delimiter and the first of which is a character of an identifier. *)
Definition mediaMatch (m : jsstring) : Prop :=
  exists scheme c body,
    (scheme = js "http" \/ scheme = js "https")
    /\ m = scheme ++ js "://pbs.twimg.com/media/" ++ c :: body
    /\ isMediaIdChar c = true
    /\ Forall (fun x => isDelimiter x = false) body.

Lemma idChar_not_delimiter (c : N) :
  isMediaIdChar c = true -> isDelimiter c = false.
Proof.
  intros Hc. destruct (isDelimiter c) eqn:E; [|reflexivity].
  apply delimiter_not_id in E. congruence.
Qed.

Lemma mediaTail_shape (s : jsstring) (n : nat) :
  reMatch [Plus isMediaIdChar; Star (fun c => negb (isDelimiter c))] s
  = Some n ->
  exists c body,
    take n s = c :: body /\ isMediaIdChar c = true
    /\ Forall (fun x => isDelimiter x = false) body.
Proof.
  simpl. destruct s as [|c s]; [discriminate|].
  destruct (isMediaIdChar c) eqn:Hc; [|discriminate].
  destruct (reStar isMediaIdChar _ s) as [m|] eqn:E; [|discriminate].
  intros [= <-]. exists c, (take m s). split; [reflexivity|].
  split; [exact Hc|].
  apply reStar_split in E as [a [m1 [-> [Ha [Hall Hk]]]]].
  apply reStar_split in Hk as [b [m2 [-> [Hb [Hall2 Hk2]]]]].
  injection Hk2 as <-. rewrite Nat.add_0_r.
  rewrite <- take_take_drop. apply Forall_app. split.
  - eapply Forall_impl; [exact Hall|]. intros x. apply idChar_not_delimiter.
  - eapply Forall_impl; [exact Hall2|]. intros x Hx.
    by apply negb_true_iff in Hx.
Qed.

Lemma mediaRegex_shape (s : jsstring) (n : nat) :
  reMatch mediaRegex s = Some n -> mediaMatch (take n s).
Proof.
  unfold mediaRegex, lits. intros H.
  apply reMatch_lits in H as [s1 [n1 [-> [H ->]]]].
  rewrite take_app_add'; [|reflexivity].
  assert (exists s2 n2 opt,
            (opt = [] \/ opt = [115%N])
            /\ s1 = opt ++ s2 /\ n1 = (length opt + n2)%nat
            /\ reMatch (lits "://pbs.twimg.com/media/"
                        ++ [Plus isMediaIdChar;
                            Star (fun c => negb (isDelimiter c))]) s2
               = Some n2) as [s2 [n2 [opt [Hopt [-> [-> H2]]]]]].
  { simpl app in H. cbn [reMatch] in H.
    destruct s1 as [|x s1].
    - exists [], n1, []. by repeat split; auto.
    - destruct (x =? 115)%N eqn:E.
      + apply N.eqb_eq in E. subst x.
        match type of H with
        | match ?t with _ => _ end = _ => destruct t as [m|] eqn:Hm
        end.
        * injection H as <-. exists s1, m, [115%N]. by repeat split; auto.
        * exists (115%N :: s1), n1, []. by repeat split; auto.
      + exists (x :: s1), n1, []. by repeat split; auto. }
  unfold lits in H2.
  apply reMatch_lits in H2 as [s3 [n3 [-> [H3 ->]]]].
  apply mediaTail_shape in H3 as [c [body [Htake [Hc Hbody]]]].
  rewrite take_app_add'; [|reflexivity].
  rewrite take_app_add'; [|reflexivity].
  rewrite Htake.
  exists (js "http" ++ opt), c, body. split.
  - destruct Hopt as [->| ->]; [left|right]; reflexivity.
  - split; [|by split]. by rewrite <- !app_assoc.
Qed.

(** ** Sets of strings in insertion order *)

Lemma arrayFromSet_Forall {A} `{EqDecision A} (P : A -> Prop) (l : list A) :
  Forall P l -> Forall P (arrayFromSet l).
Proof.
  induction 1 as [|x l Hx _ IH]; simpl; [constructor|].
  constructor; [exact Hx|].
  apply Forall_forall. intros y Hy.
  apply list_elem_of_filter in Hy as [_ Hy].
  rewrite Forall_forall in IH. auto.
Qed.

Lemma filter_twice {A} (P : A -> Prop) `{forall x, Decision (P x)} (l : list A) :
  filter P (filter P l) = filter P l.
Proof.
  induction l as [|x l IH]; [reflexivity|].
  rewrite filter_cons. destruct (decide (P x)) as [Hx|Hx]; [|exact IH].
  rewrite filter_cons, decide_True by done. by rewrite IH.
Qed.

Lemma filter_both {A} `{EqDecision A} (a b : A) (l : list A) :
  Forall (fun x => x = a \/ x = b) l ->
  filter (fun y => y <> a) (filter (fun y => y <> b) l) = [].
Proof.
  induction 1 as [|x l Hx _ IH]; [reflexivity|].
  rewrite filter_cons. destruct (decide (x <> b)) as [Hb|Hb]; [|exact IH].
  rewrite filter_cons. destruct (decide (x <> a)) as [Ha|Ha]; [|exact IH].
  by destruct Hx.
Qed.

Lemma arrayFromSet_other {A} `{EqDecision A} (a b : A) (l : list A) :
  a <> b ->
  Forall (fun x => x = a \/ x = b) l ->
  filter (fun y => y <> a) (arrayFromSet l)
  = if decide (b ∈ l) then [b] else [].
Proof.
  intros Hab. induction 1 as [|x l Hx Hl IH]; [reflexivity|].
  simpl. rewrite filter_cons.
  destruct Hx as [-> | ->].
  - rewrite decide_False by (intros Hn; by apply Hn).
    rewrite filter_twice, IH.
    destruct (decide (b ∈ l)) as [Hin|Hin].
    + rewrite decide_True by (by right). reflexivity.
    + rewrite decide_False; [reflexivity|].
      intros Hin'. apply elem_of_cons in Hin' as [?|?]; [congruence|done].
  - rewrite decide_True by congruence.
    rewrite decide_True by (by left).
    rewrite filter_both; [reflexivity|].
    by apply arrayFromSet_Forall.
Qed.

(** A list that holds two distinct values, and only them, becomes the
    pair of them, the one met first in front. *)
Lemma arrayFromSet_two {A} `{EqDecision A} (a b : A) (l : list A) :
  a <> b ->
  Forall (fun x => x = a \/ x = b) l ->
  a ∈ l -> b ∈ l ->
  exists x y, (x = a /\ y = b \/ x = b /\ y = a)
              /\ head l = Some x /\ arrayFromSet l = [x; y].
Proof.
  intros Hab Hl Ha Hb. destruct l as [|x l]; [by apply elem_of_nil in Ha|].
  inversion Hl as [|? ? Hx Hl']; subst.
  destruct Hx as [-> | ->].
  - exists a, b. split; [by left|]. split; [reflexivity|].
    simpl. rewrite (arrayFromSet_other a b) by done.
    apply elem_of_cons in Hb as [?|Hb]; [congruence|].
    by rewrite decide_True.
  - exists b, a. split; [by right|]. split; [reflexivity|].
    simpl. rewrite (arrayFromSet_other b a).
    + apply elem_of_cons in Ha as [?|Ha]; [congruence|].
      by rewrite decide_True.
    + congruence.
    + eapply Forall_impl; [exact Hl'|]. intros ? [?|?]; auto.
Qed.

Lemma beforeQuery_spec (u : jsstring) :
  Forall (fun c => c <> 63%N) (beforeQuery u)
  /\ exists q, u = beforeQuery u ++ q /\ (q = [] \/ head q = Some 63%N).
Proof.
  unfold beforeQuery. induction u as [|c u [IH1 [q [IH2 IH3]]]]; simpl.
  - split; [constructor|]. exists []. auto.
  - destruct (c =? 63)%N eqn:E.
    + split; [constructor|]. exists (c :: u). split; [reflexivity|].
      right. apply N.eqb_eq in E. by subst.
    + pose proof (splitOn_nonempty (fun c => (c =? 63)%N) u) as Hne.
      destruct (splitOn (fun c => (c =? 63)%N) u) as [|p ps]; [done|].
      split.
      * constructor; [|exact IH1]. by apply N.eqb_neq.
      * exists q. split; [|exact IH3]. simpl. by rewrite <- IH2.
Qed.

(** ** Extraction through a relay *)

Lemma reMatch_lits_app (p : jsstring) (r : list reAtom) (s : jsstring) :
  reMatch (map Lit p ++ r) (p ++ s)
  = (fun n => (length p + n)%nat) <$> reMatch r s.
Proof.
  induction p as [|c p IH]; simpl.
  - by destruct (reMatch r s).
  - rewrite N.eqb_refl, IH. by destruct (reMatch r s).
Qed.

(** A starred class runs up to the first character outside it. *)
Lemma reStar_run (p : N -> bool) (k : jsstring -> option nat)
    (body rest : jsstring) (n : nat) :
  Forall (fun x => p x = true) body ->
  match rest with [] => True | d :: _ => p d = false end ->
  k rest = Some n ->
  reStar p k (body ++ rest) = Some (length body + n)%nat.
Proof.
  intros Hbody Hrest Hk. induction Hbody as [|x body Hx _ IH].
  - destruct rest as [|d rest]; [exact Hk|]. simpl. by rewrite Hrest.
  - simpl. by rewrite Hx, IH.
Qed.

Lemma reStar_id_rest (body rest : jsstring) :
  Forall (fun x => isDelimiter x = false) body ->
  match rest with [] => True | d :: _ => isDelimiter d = true end ->
  reStar isMediaIdChar
    (reMatch [Star (fun c => negb (isDelimiter c))]) (body ++ rest)
  = Some (length body).
Proof.
  intros Hbody Hrest.
  assert (forall body, Forall (fun x => isDelimiter x = false) body ->
            reMatch [Star (fun c => negb (isDelimiter c))] (body ++ rest)
            = Some (length body)) as Hstar.
  { intros l Hl. cbn [reMatch].
    rewrite (reStar_run _ _ l rest 0).
    - by rewrite Nat.add_0_r.
    - eapply Forall_impl; [exact Hl|]. intros x Hx. by rewrite Hx.
    - destruct rest as [|d rest]; [exact I|]. by rewrite Hrest.
    - reflexivity. }
  induction Hbody as [|x body Hx Hb IH].
  - destruct rest as [|d rest]; [reflexivity|].
    cbn [app reStar]. rewrite (delimiter_not_id d Hrest).
    apply (Hstar []). constructor.
  - cbn [app reStar]. rewrite IH.
    destruct (isMediaIdChar x); [reflexivity|].
    apply (Hstar (x :: body)). by constructor.
Qed.

(** The pattern matches a media address that the end of the text or a
    delimiter follows, all of it and no more. *)
Lemma mediaRegex_complete (u rest : jsstring) :
  mediaMatch u ->
  match rest with [] => True | d :: _ => isDelimiter d = true end ->
  reMatch mediaRegex (u ++ rest) = Some (length u).
Proof.
  intros [scheme [c [body [Hs [-> [Hc Hbody]]]]]] Hrest.
  assert (reMatch (lits "://pbs.twimg.com/media/"
                   ++ [Plus isMediaIdChar;
                       Star (fun c => negb (isDelimiter c))])
            (js "://pbs.twimg.com/media/" ++ c :: body ++ rest)
          = Some (length (js "://pbs.twimg.com/media/" ++ c :: body)))
    as Htail.
  { unfold lits. rewrite reMatch_lits_app. cbn [reMatch]. rewrite Hc.
    rewrite reStar_id_rest by done. simpl. reflexivity. }
  unfold mediaRegex.
  destruct Hs as [-> | ->]; rewrite <- !app_assoc.
  - unfold lits at 1. rewrite reMatch_lits_app.
    change (js "://pbs.twimg.com/media/" ++ c :: body ++ rest)
      with (58%N :: (js "//pbs.twimg.com/media/" ++ c :: body ++ rest)).
    cbn [app reMatch N.eqb Pos.eqb].
    change (58%N :: (js "//pbs.twimg.com/media/" ++ c :: body ++ rest))
      with (js "://pbs.twimg.com/media/" ++ c :: body ++ rest).
    rewrite Htail. simpl. reflexivity.
  - change (js "https") with (js "http" ++ [115%N]).
    rewrite <- !app_assoc.
    unfold lits at 1. rewrite reMatch_lits_app.
    cbn [app reMatch N.eqb Pos.eqb].
    rewrite Htail. simpl. reflexivity.
Qed.

(** A media address starts at the head of [s]. *)
Definition mediaStart (s : jsstring) : Prop :=
  exists scheme c tail,
    (scheme = js "http" \/ scheme = js "https")
    /\ isMediaIdChar c = true
    /\ s = scheme ++ js "://pbs.twimg.com/media/" ++ c :: tail.

(** The pattern matches at the head of [s] only if a media address
    starts there. *)
Lemma mediaRegex_sound (s : jsstring) (n : nat) :
  reMatch mediaRegex s = Some n -> mediaStart s.
Proof.
  intros H. apply mediaRegex_shape in H
    as [scheme [c [body [Hs [Htake [Hc _]]]]]].
  exists scheme, c, (body ++ drop n s). split; [exact Hs|].
  split; [exact Hc|].
  rewrite <- (take_drop n s) at 1. rewrite Htake.
  by rewrite <- !app_assoc.
Qed.

Lemma mediaStart_matches (s : jsstring) :
  mediaStart s -> is_Some (reMatch mediaRegex s).
Proof.
  intros [scheme [c [tail [Hs [Hc ->]]]]].
  assert (exists body rest,
            tail = body ++ rest
            /\ Forall (fun x => isDelimiter x = false) body
            /\ match rest with [] => True | d :: _ => isDelimiter d = true end)
    as [body [rest [-> [Hbody Hrest]]]].
  { clear. induction tail as [|x tail [body [rest [-> [Hb Hr]]]]].
    - by exists [], [].
    - destruct (isDelimiter x) eqn:Hx.
      + exists [], (x :: body ++ rest). by repeat split.
      + exists (x :: body), rest. repeat split; [by constructor|exact Hr]. }
  exists (length (scheme ++ js "://pbs.twimg.com/media/" ++ c :: body)).
  replace (scheme ++ js "://pbs.twimg.com/media/" ++ c :: body ++ rest)
    with ((scheme ++ js "://pbs.twimg.com/media/" ++ c :: body) ++ rest)
    by (by rewrite <- !app_assoc).
  apply mediaRegex_complete; [|exact Hrest].
  by exists scheme, c, body.
Qed.

(** No media address starts inside [g] when [rest] follows it. *)
Definition quiet (g rest : jsstring) : Prop :=
  forall g1 g2, g = g1 ++ g2 -> g2 <> [] -> ~ mediaStart (g2 ++ rest).

(** A text cut into the media addresses in it, each with the stretch that
    follows it up to the next one. *)
Definition textOf (occ : list (jsstring * jsstring)) : jsstring :=
  flat_map (fun ug => fst ug ++ snd ug) occ.

(** The cut is the one of the scan: each address ends where the text ends
    or a delimiter follows, and no address starts inside a stretch. *)
Fixpoint wellCut (occ : list (jsstring * jsstring)) : Prop :=
  match occ with
  | [] => True
  | (u, g) :: occ' =>
      mediaMatch u
      /\ match g with
         | [] => occ' = []
         | d :: _ => isDelimiter d = true
         end
      /\ quiet g (textOf occ')
      /\ wellCut occ'
  end.

Lemma quiet_tail (x : N) (g rest : jsstring) :
  quiet (x :: g) rest -> quiet g rest.
Proof.
  intros H g1 g2 -> Hne. apply (H (x :: g1) g2); [reflexivity|exact Hne].
Qed.

Lemma matchAllFrom_quiet (g rest : jsstring) :
  quiet g rest ->
  matchAllFrom mediaRegex 0 (g ++ rest) = matchAllFrom mediaRegex 0 rest.
Proof.
  induction g as [|x g IH]; intros Hq; [reflexivity|].
  change ((x :: g) ++ rest) with (x :: (g ++ rest)).
  rewrite matchAllFrom_cons.
  destruct (reMatch mediaRegex (x :: g ++ rest)) as [n|] eqn:E.
  - exfalso. apply (Hq [] (x :: g)); [reflexivity|discriminate|].
    by apply mediaRegex_sound in E.
  - apply IH. by eapply quiet_tail.
Qed.

Lemma matchAllFrom_over (r : list reAtom) (u rest : jsstring) :
  matchAllFrom r (length u) (u ++ rest) = matchAllFrom r 0 rest.
Proof. induction u as [|x u IH]; [reflexivity|exact IH]. Qed.

Lemma mediaMatch_cons (u : jsstring) :
  mediaMatch u -> exists x u', u = x :: u'.
Proof.
  intros [scheme [c [body [Hs [-> _]]]]].
  destruct Hs as [-> | ->]; by eexists _, _.
Qed.

(** The scan of a text finds the addresses of its cut, in order. *)
Lemma matchAll_textOf (g0 : jsstring) (occ : list (jsstring * jsstring)) :
  quiet g0 (textOf occ) ->
  wellCut occ ->
  matchAll mediaRegex (g0 ++ textOf occ) = map fst occ.
Proof.
  unfold matchAll. intros Hq Hcut. rewrite matchAllFrom_quiet by exact Hq.
  clear Hq g0. induction occ as [|[u g] occ IH]; [reflexivity|].
  destruct Hcut as (Hu & Hg & Hq & Hcut). simpl textOf. simpl fst. simpl snd.
  assert (match g ++ textOf occ with
          | [] => True
          | d :: _ => isDelimiter d = true
          end) as Hrest.
  { destruct g as [|d g]; [|exact Hg]. subst occ. exact I. }
  pose proof (mediaRegex_complete u (g ++ textOf occ) Hu Hrest) as Hm.
  destruct (mediaMatch_cons u Hu) as [x [u' ->]].
  rewrite <- app_assoc.
  change ((x :: u') ++ g ++ textOf occ) with (x :: (u' ++ g ++ textOf occ)).
  rewrite matchAllFrom_cons.
  change (x :: (u' ++ g ++ textOf occ)) with ((x :: u') ++ g ++ textOf occ).
  rewrite Hm. simpl length. cbv beta iota.
  rewrite matchAllFrom_over, matchAllFrom_quiet by exact Hq.
  simpl map. f_equal; [|by apply IH].
  apply (take_app_length (x :: u')).
Qed.

(** C6: take any text cut into the media addresses in it and the
    stretches between them: a first stretch, then each address (scheme
    [http] or [https], [://pbs.twimg.com/media/], a character of an
    identifier, then characters that are no delimiter) with the stretch
    that follows it, which starts with a delimiter (quote, closing
    parenthesis, white space) unless the text ends with the address, and
    inside which no media address starts; the stretches may hold any
    other URL.  When the addresses in the text are two distinct ones,
    [a] met first and [b], each any number of times, and the first relay
    answers with that text, the proxy extraction yields exactly two
    results, the one of [a] then the one of [b]: the part of the address
    before its first question mark (all of it if it has none), followed
    by [?format=jpg&name=large]. *)
Theorem proxy_extracts_two_media_urls (env : Env) (s : Sys)
    (tweetUrl enc : jsstring) (res : Response)
    (g0 : jsstring) (occ : list (jsstring * jsstring)) (a b : jsstring) :
  let relay := js "https://r.jina.ai/http://" ++ stripScheme tweetUrl in
  quiet g0 (textOf occ) ->
  wellCut occ ->
  Forall (fun ug => fst ug = a \/ fst ug = b) occ ->
  head (map fst occ) = Some a ->
  b ∈ map fst occ ->
  a <> b ->
  encodeURIComponent tweetUrl = Some enc ->
  includes (js "allorigins.win") relay = false ->
  fetch env (ticks s) relay = Some res ->
  res_ok res = true ->
  res_text res = Some (g0 ++ textOf occ) ->
  exists pa qa pb qb,
    a = pa ++ qa
    /\ Forall (fun c => c <> 63%N) pa
    /\ (qa = [] \/ head qa = Some 63%N)
    /\ b = pb ++ qb
    /\ Forall (fun c => c <> 63%N) pb
    /\ (qb = [] \/ head qb = Some 63%N)
    /\ outcome (fetchTweetImagesViaProxy env tweetUrl) s
       = Ok [ pa ++ js "?format=jpg&name=large";
              pb ++ js "?format=jpg&name=large" ].
Proof.
  intros relay Hq Hcut Hocc Hhead Hb Hne Henc Hincl Hfetch Hok Htext.
  pose proof (matchAll_textOf g0 occ Hq Hcut) as Hscan.
  assert (arrayFromSet (map fst occ) = [a; b]) as Hset.
  { destruct (arrayFromSet_two a b (map fst occ) Hne)
      as [x [y [Hxy [Hx Hl]]]].
    - by apply Forall_fmap.
    - destruct (map fst occ) as [|z l]; [discriminate|].
      injection Hhead as ->. by left.
    - exact Hb.
    - rewrite Hhead in Hx. injection Hx as <-.
      destruct Hxy as [[_ ->]|[Hba _]]; [exact Hl|congruence]. }
  destruct (beforeQuery_spec a) as [Hpa [qa [Ha Hqa]]].
  destruct (beforeQuery_spec b) as [Hpb [qb [Hb' Hqb]]].
  exists (beforeQuery a), qa, (beforeQuery b), qb.
  split; [exact Ha|]. split; [exact Hpa|]. split; [exact Hqa|].
  split; [exact Hb'|]. split; [exact Hpb|]. split; [exact Hqb|].
  unfold fetchTweetImagesViaProxy, proxies, relayLoop, relayAttempt, doFetch.
  rewrite Henc. fold relay. mrun. rewrite Hincl. simpl.
  rewrite Hfetch. simpl. rewrite Hok. simpl. rewrite Htext. simpl.
  rewrite Hscan, Hset. reflexivity.
Qed.

(** A relay that answers every request with a page naming two media URLs
    and one other URL. *)
Definition mediaA : jsstring :=
  js "https://pbs.twimg.com/media/ABC123?format=jpg&name=small".
Definition mediaB : jsstring :=
  js "https://pbs.twimg.com/media/XYZ789?format=png&name=orig".
Definition otherUrl : jsstring := js "https://example.com/other.png".

Definition relayPage : Response :=
  mkResponse true
    (Some (joinTokens mediaA [(32%N, otherUrl); (10%N, mediaB); (32%N, mediaA)]))
    None None.

Definition relayWorld : Env :=
  mkEnv (fun n => 1000 + Z.of_nat n) (fun _ _ => Some relayPage) (fun _ => [])
    (fun _ _ => js "blob:local") (fun _ => true).

(** The cut of the text of [relayPage]. *)
Definition relayPageCut : list (jsstring * jsstring) :=
  [ (mediaA, 32%N :: otherUrl ++ [10%N]); (mediaB, [32%N]); (mediaA, []) ].

Lemma isMediaUrl_mediaMatch (u : jsstring) : isMediaUrl u -> mediaMatch u.
Proof.
  intros H. apply mediaRegex_shape in H. by rewrite firstn_all in H.
Qed.

(** A stretch is quiet when the pattern matches at none of its
    positions. *)
Lemma quiet_check (g rest : jsstring) :
  forallb (fun i => bool_decide (reMatch mediaRegex (drop i g ++ rest) = None))
    (seq 0 (length g)) = true ->
  quiet g rest.
Proof.
  intros H g1 g2 -> Hne Hstart.
  rewrite forallb_forall in H.
  specialize (H (length g1)).
  rewrite drop_app_length in H.
  apply mediaStart_matches in Hstart as [n Hn].
  rewrite Hn in H. discriminate H.
  apply in_seq. rewrite length_app.
  destruct g2; [done|simpl; lia].
Qed.

Lemma proxy_extracts_two_media_urls_witness :
  exists pa qa pb qb,
    mediaA = pa ++ qa
    /\ Forall (fun c => c <> 63%N) pa
    /\ (qa = [] \/ head qa = Some 63%N)
    /\ mediaB = pb ++ qb
    /\ Forall (fun c => c <> 63%N) pb
    /\ (qb = [] \/ head qb = Some 63%N)
    /\ outcome (fetchTweetImagesViaProxy relayWorld
                  (js "https://x.com/user/status/1")) day7
       = Ok [ pa ++ js "?format=jpg&name=large";
              pb ++ js "?format=jpg&name=large" ].
Proof.
  assert (mediaMatch mediaA) as HA
    by (apply isMediaUrl_mediaMatch; vm_compute; reflexivity).
  assert (mediaMatch mediaB) as HB
    by (apply isMediaUrl_mediaMatch; vm_compute; reflexivity).
  apply (proxy_extracts_two_media_urls relayWorld day7
           (js "https://x.com/user/status/1")
           (js "https%3A%2F%2Fx.com%2Fuser%2Fstatus%2F1") relayPage
           [] relayPageCut mediaA mediaB).
  - apply quiet_check. reflexivity.
  - split; [exact HA|]. split; [reflexivity|].
    split; [apply quiet_check; vm_compute; reflexivity|].
    split; [exact HB|]. split; [reflexivity|].
    split; [apply quiet_check; vm_compute; reflexivity|].
    split; [exact HA|]. split; [reflexivity|].
    split; [apply quiet_check; reflexivity|exact I].
  - apply Forall_cons_2; [by left|].
    apply Forall_cons_2; [by right|].
    apply Forall_cons_2; [by left|constructor].
  - reflexivity.
  - right. left.
  - vm_compute. discriminate.
  - vm_compute; reflexivity.
  - vm_compute; reflexivity.
  - reflexivity.
  - reflexivity.
  - vm_compute; reflexivity.
Defined.

(** The production pattern on the sample of test 2 of [runSelfTests]. *)
Example media_self_test_sample :
  map largeFormat
    (arrayFromSet
       (matchAll mediaRegex
          (js "img src=" ++ 34%N
             :: js "https://pbs.twimg.com/media/ABC123?format=jpg&name=small"
             ++ 34%N
             :: js " other https://pbs.twimg.com/media/XYZ789?format=jpg&name=large")))
  = [ js "https://pbs.twimg.com/media/ABC123?format=jpg&name=large";
      js "https://pbs.twimg.com/media/XYZ789?format=jpg&name=large" ].
Proof. vm_compute. reflexivity. Qed.

(** ** The auto-completion rule *)

(** A state update that neither reads nor writes the image-count ref: what
    every handler of the component is. *)
Definition refFree (u : Sys -> Sys) : Prop :=
  forall n s, u (set_prevImgCountRef n s) = set_prevImgCountRef n (u s).

(** The component shows at least one image. *)
Definition countPositive (s : Sys) : bool :=
  match allImages s with
  | Some (_ :: _) => true
  | _ => false
  end.

(** State updates, without and with the render that follows each. *)
Fixpoint updates (us : list (Sys -> Sys)) (s : Sys) : Sys :=
  match us with
  | [] => s
  | u :: us' => updates us' (u s)
  end.

Fixpoint renders (us : list (Sys -> Sys)) (s : Sys) : Sys :=
  match us with
  | [] => s
  | u :: us' => renders us' (exec render (u s))
  end.

(** The image count is positive after each update. *)
Fixpoint staysPositive (us : list (Sys -> Sys)) (s : Sys) : Prop :=
  match us with
  | [] => True
  | u :: us' => countPositive (u s) = true /\ staysPositive us' (u s)
  end.

Lemma set_prevImgCountRef_twice (n m : nat) (s : Sys) :
  set_prevImgCountRef n (set_prevImgCountRef m s) = set_prevImgCountRef n s.
Proof. reflexivity. Qed.

Lemma set_prevImgCountRef_same (s : Sys) :
  set_prevImgCountRef (prevImgCountRef s) s = s.
Proof. by destruct s. Qed.

Lemma refFree_prev (u : Sys -> Sys) (s : Sys) :
  refFree u -> prevImgCountRef (u s) = prevImgCountRef s.
Proof.
  intros Hu. rewrite <- (set_prevImgCountRef_same s) at 1.
  rewrite Hu. reflexivity.
Qed.

Lemma updates_refFree (us : list (Sys -> Sys)) (n : nat) (s : Sys) :
  Forall refFree us ->
  updates us (set_prevImgCountRef n s) = set_prevImgCountRef n (updates us s).
Proof.
  intros H. revert s. induction H as [|u us Hu _ IH]; intros s; simpl.
  - reflexivity.
  - by rewrite Hu, IH.
Qed.

Lemma staysPositive_refFree (us : list (Sys -> Sys)) (n : nat) (s : Sys) :
  Forall refFree us ->
  staysPositive us s -> staysPositive us (set_prevImgCountRef n s).
Proof.
  intros H. revert s. induction H as [|u us Hu _ IH]; intros s; simpl.
  - done.
  - intros [Hpos Hrest]. rewrite Hu. split; [exact Hpos|]. by apply IH.
Qed.

(** While the count stays positive the renders only move the ref. *)
Lemma renders_inert (us : list (Sys -> Sys)) (s : Sys) :
  Forall refFree us ->
  (0 < prevImgCountRef s)%nat ->
  staysPositive us s ->
  exists n, renders us s = set_prevImgCountRef n (updates us s).
Proof.
  intros H. revert s. induction H as [|u us Hu Hus IH]; intros s Hprev Hpos.
  - exists (prevImgCountRef s). simpl. by rewrite set_prevImgCountRef_same.
  - simpl in *. destruct Hpos as [Hpos Hrest].
    unfold countPositive in Hpos.
    destruct (allImages (u s)) as [[|x imgs]|] eqn:Himgs; try discriminate.
    rewrite (render_silent (u s) (x :: imgs)); [|done|].
    + destruct (IH (set_prevImgCountRef (length (x :: imgs)) (u s)))
        as [n Hn].
      * simpl. lia.
      * by apply staysPositive_refFree.
      * exists n. rewrite Hn, updates_refFree by done. reflexivity.
    + left. rewrite refFree_prev by done. lia.
Qed.

(** The effect issues a patch only on the edge from zero to positive. *)
Lemma render_fires_on_edge_only (t : Sys) :
  log (exec render t) <> log t ->
  prevImgCountRef t = 0%nat /\ countPositive t = true
  /\ exists d, dayState t = Some d
               /\ truthy_opt (obj_get (js "done") d) = false.
Proof.
  intros Hlog. unfold countPositive.
  destruct (allImages t) as [imgs|] eqn:Himgs.
  - destruct (decide (prevImgCountRef t <> 0%nat \/ imgs = [])) as [Hs|Hs].
    + exfalso. apply Hlog.
      rewrite (render_silent t imgs); [reflexivity|exact Himgs|exact Hs].
    + assert (prevImgCountRef t = 0%nat) as Hprev.
      { destruct (prevImgCountRef t); [done|].
        exfalso. apply Hs. left. lia. }
      destruct imgs as [|x imgs]; [exfalso; apply Hs; by right|].
      split; [exact Hprev|]. split; [reflexivity|].
      unfold render, autoDoneEffect, persist in Hlog. mrun.
      rewrite Himgs, Hprev in Hlog. simpl in Hlog.
      destruct (dayState t) as [d|]; [|exfalso; by apply Hlog].
      exists d. split; [reflexivity|].
      destruct (truthy_opt (obj_get (js "done") d)); [|reflexivity].
      rewrite andb_false_r in Hlog. exfalso. by apply Hlog.
  - unfold render in Hlog. mrun. rewrite Himgs in Hlog. exfalso. by apply Hlog.
Qed.

(** The record after the patch of the rule. *)
Definition markDone (d : obj) : obj := spread d [(js "done", JBool true)].

(** The edge of the completion rule.  At a render in which the image
    count of the loaded day goes from exactly zero (the value left in the
    ref) to a positive number while the record is not done, the rule
    issues exactly one patch, the put of the record with done set to
    true.  In the renders that follow, as long as the count stays
    positive after every state update and the ref is not reset, the rule
    only moves its ref: the log, the store and the day state are what the
    updates made them.  A patch is issued by no render but one that finds
    the ref at zero and the count positive. *)
Theorem auto_done_edge_trigger (s : Sys) (d : obj) (imgs : list json)
    (us : list (Sys -> Sys)) :
  dayState s = Some d ->
  truthy_opt (obj_get (js "done") d) = false ->
  allImages s = Some imgs ->
  (0 < length imgs)%nat ->
  prevImgCountRef s = 0%nat ->
  Forall refFree us ->
  staysPositive us (exec render s) ->
  let s1 := exec render s in
  log s1 = log s ++ [EvDaysPut (JObj (markDone d))]
  /\ dayState s1 = Some (markDone d)
  /\ obj_get (js "done") (markDone d) = Some (JBool true)
  /\ (forall k, keyOf d = Some k -> days s1 = <[k := markDone d]> (days s))
  /\ prevImgCountRef s1 = length imgs
  /\ (exists n, renders us s1 = set_prevImgCountRef n (updates us s1))
  /\ (forall t, log (exec render t) <> log t ->
        prevImgCountRef t = 0%nat /\ countPositive t = true).
Proof.
  intros Hd Hdone Himgs Hlen Hprev Hus Hpos s1.
  assert (obj_get (js "done") (markDone d) = Some (JBool true)) as Hmark
    by apply obj_get_set_eq.
  assert (keyOf (markDone d) = keyOf d) as Hkey.
  { unfold keyOf, markDone, spread. simpl.
    rewrite obj_get_set_ne by (vm_compute; discriminate). reflexivity. }
  assert (s1 = set_prevImgCountRef (length imgs)
                 (match keyOf d with
                  | Some k =>
                      set_days (<[k := markDone d]> (days s))
                        (set_log (log s ++ [EvDaysPut (JObj (markDone d))])
                           (set_dayState (Some (markDone d)) s))
                  | None =>
                      set_log (log s ++ [EvDaysPut (JObj (markDone d))])
                        (set_dayState (Some (markDone d)) s)
                  end)) as Hs1.
  { subst s1. unfold render, autoDoneEffect, persist, setDay, daysPut. mrun.
    rewrite Himgs, Hprev. simpl.
    destruct (length imgs) as [|n] eqn:E; [lia|]. simpl.
    rewrite Hd. simpl. rewrite Hdone. simpl.
    rewrite Hprev. simpl. rewrite Hd. simpl.
    fold (markDone d). rewrite Hkey.
    destruct (keyOf d); reflexivity. }
  assert (prevImgCountRef s1 = length imgs) as Hp1
    by (rewrite Hs1; reflexivity).
  split; [rewrite Hs1; by destruct (keyOf d)|].
  split; [rewrite Hs1; by destruct (keyOf d)|].
  split; [exact Hmark|].
  split; [intros k Hk; rewrite Hs1, Hk; reflexivity|].
  split; [exact Hp1|].
  split; [apply renders_inert; [done|lia|done]|].
  intros t Ht. destruct (render_fires_on_edge_only t Ht) as [? [? _]]. done.
Qed.

Lemma persist_refFree (partial : obj) : refFree (exec (persist partial)).
Proof.
  intros n s. unfold persist, setDay, daysPut. mrun.
  destruct (dayState s) as [d|]; [|reflexivity]. simpl.
  destruct (keyOf (spread d partial)); reflexivity.
Qed.

(** Day 7 right after the handler stored two manual URLs, before the
    render that follows. *)
Definition day7justSaved : Sys :=
  exec (detach (persist [(js "manualImageUrls",
                          JArr (map JStr (parseManualUrls twoUrls)))]))
    (exec (mount 2025 7) initial).

(** The user un-marks the day, then saves one more manual URL. *)
Definition unmarkThenAdd : list (Sys -> Sys) :=
  [ exec (persist [(js "done", JBool false)]);
    exec (persist [(js "manualImageUrls",
                    JArr (map JStr (parseManualUrls
                                      (twoUrls ++ js ", https://c.com/3.gif"))))]) ].

Lemma auto_done_edge_trigger_witness :
  prevImgCountRef day7justSaved = 0%nat
  /\ countPositive day7justSaved = true
  /\ staysPositive unmarkThenAdd (exec render day7justSaved)
  /\ (exists d, dayState (exec render day7justSaved) = Some d
                /\ obj_get (js "done") d = Some (JBool true))
  /\ (exists n, renders unmarkThenAdd (exec render day7justSaved)
                = set_prevImgCountRef n
                    (updates unmarkThenAdd (exec render day7justSaved)))
  /\ (exists d, dayState (renders unmarkThenAdd (exec render day7justSaved))
                = Some d
                /\ obj_get (js "done") d = Some (JBool false)).
Proof.
  assert (staysPositive unmarkThenAdd (exec render day7justSaved)) as Hpos
    by (vm_compute; auto).
  split; [reflexivity|]. split; [reflexivity|]. split; [exact Hpos|].
  split; [eexists; split; vm_compute; reflexivity|].
  split.
  - eapply (auto_done_edge_trigger day7justSaved _ _ unmarkThenAdd);
      [vm_compute; reflexivity|vm_compute; reflexivity|vm_compute; reflexivity
      |vm_compute; lia|reflexivity| |exact Hpos].
    repeat constructor; apply persist_refFree.
  - eexists; split; vm_compute; reflexivity.
Defined.

(** The done flag of the record on display, and of the record the store
    holds for the selected day. *)
Definition shownDone (s : Sys) : option json :=
  d ← dayState s; obj_get (js "done") d.

Definition storedDone (s : Sys) : option json :=
  d ← storedDay s; obj_get (js "done") d.

(** C2: the rule does set back to true a done flag that the user has set
    to false, although the images of the day were never removed.  The
    ref the rule compares the count with starts at zero with every load
    of the page and follows the count of the day on display only.  Day 7
    of 2025 gets two manual images and the rule marks it done; the user
    unticks the box, and the store holds done = false.  Then the page is
    loaded again: the ref is zero, the stored record arrives with its two
    images, and the rule stores done = true.  The same happens without a
    reload when the user looks at the empty day 8 and comes back to
    day 7.  In both runs the stored images of day 7 are the same two
    throughout. *)
Theorem unmark_is_undone_on_reload :
  shownDone day7saved = Some (JBool true)
  /\ storedDone day7saved = Some (JBool true)
  /\ shownDone day7unmarked = Some (JBool false)
  /\ storedDone day7unmarked = Some (JBool false)
  /\ manualImages (storedDay day7unmarked)
     = Some [JStr (js "https://a.com/1.jpg"); JStr (js "https://b.com/2.png")]
  /\ (let reloaded := exec (step offline (Mount 2025 7)) day7unmarked in
      shownDone reloaded = Some (JBool true)
      /\ storedDone reloaded = Some (JBool true)
      /\ manualImages (storedDay reloaded)
         = manualImages (storedDay day7unmarked))
  /\ (let away := exec (step offline (SelectDay 8)) day7unmarked in
      let back := exec (step offline (SelectDay 7)) away in
      days away = days day7unmarked
      /\ shownDone back = Some (JBool true)
      /\ storedDone back = Some (JBool true)
      /\ manualImages (storedDay back)
         = manualImages (storedDay day7unmarked)).
Proof. repeat split; vm_compute; reflexivity. Qed.

(** ** Invariants of computations *)

(** [m] keeps the property [P] of the state, whether it completes or
    throws. *)
Definition preserves {A} (P : Sys -> Prop) (m : M A) : Prop :=
  forall s, P s -> P (snd (m s)).

Section Preserves.
Context (P : Sys -> Prop).

Lemma preserves_ret {A} (a : A) : preserves P (ret a).
Proof. by intros s Hs. Qed.

Lemma preserves_throw {A} : preserves P (@throw A).
Proof. by intros s Hs. Qed.

Lemma preserves_gets {A} (f : Sys -> A) : preserves P (gets f).
Proof. by intros s Hs. Qed.

Lemma preserves_orThrow {A} (o : option A) : preserves P (orThrow o).
Proof. destruct o; [apply preserves_ret|apply preserves_throw]. Qed.

Lemma preserves_bind {A B} (m : M A) (k : A -> M B) :
  preserves P m -> (forall a, preserves P (k a)) -> preserves P (bind m k).
Proof.
  intros Hm Hk s Hs. unfold bind. specialize (Hm s Hs).
  destruct (m s) as [[a|] s']; simpl in *; [by apply Hk|done].
Qed.

Lemma preserves_tryCatch {A} (m h : M A) :
  preserves P m -> preserves P h -> preserves P (tryCatch m h).
Proof.
  intros Hm Hh s Hs. unfold tryCatch. specialize (Hm s Hs).
  destruct (m s) as [[a|] s']; simpl in *; [done|by apply Hh].
Qed.

Lemma preserves_detach (m : M unit) : preserves P m -> preserves P (detach m).
Proof. intros Hm. apply preserves_tryCatch; [done|apply preserves_ret]. Qed.

Lemma preserves_modify (f : Sys -> Sys) :
  (forall s, P s -> P (f s)) -> preserves P (modify f).
Proof. intros Hf s Hs. by apply Hf. Qed.

Lemma preserves_forEach {A} (f : A -> M unit) (l : list A) :
  (forall x, preserves P (f x)) -> preserves P (forEach f l).
Proof.
  intros Hf. induction l as [|x l IH]; simpl; [apply preserves_ret|].
  apply preserves_bind; [apply Hf|intros _; exact IH].
Qed.

Lemma preserves_mapM {A B} (f : A -> M B) (l : list A) :
  (forall x, preserves P (f x)) -> preserves P (mapM f l).
Proof.
  intros Hf. induction l as [|x l IH]; simpl; [apply preserves_ret|].
  apply preserves_bind; [apply Hf|intros y].
  apply preserves_bind; [exact IH|intros ys; apply preserves_ret].
Qed.

End Preserves.

(** ** The resolved-URL cache holds no empty list *)

Definition urlsWf (m : gmap jsstring UrlsEntry) : Prop :=
  map_Forall (fun _ e => ue_imageUrls e <> []) m.

(** A logged call that is no cache write with an empty list. *)
Definition writeOk (e : event) : Prop :=
  match e with
  | EvUrlsPut _ l => l <> []
  | _ => True
  end.

Definition cacheInv (s : Sys) : Prop :=
  urlsWf (urls s) /\ Forall writeOk (log s).

(** State changes that touch neither the cache nor the log. *)
Lemma cacheInv_frame (f : Sys -> Sys) :
  (forall s, urls (f s) = urls s) -> (forall s, log (f s) = log s) ->
  preserves cacheInv (modify f).
Proof.
  intros Hu Hl. apply preserves_modify. intros s [H1 H2].
  split; [by rewrite Hu|by rewrite Hl].
Qed.

Lemma cacheInv_emit (e : event) : writeOk e -> preserves cacheInv (emit e).
Proof.
  intros He. apply preserves_modify. intros s [H1 H2].
  split; [exact H1|]. simpl. apply Forall_app. split; [exact H2|].
  by constructor.
Qed.

Create HintDb pres discriminated.

#[local] Hint Resolve preserves_ret preserves_throw preserves_gets
  preserves_orThrow preserves_tryCatch preserves_detach preserves_forEach
  preserves_mapM : pres.
#[local] Hint Extern 1 (preserves cacheInv (emit _)) =>
  apply cacheInv_emit; exact I : pres.
#[local] Hint Extern 1 (preserves cacheInv (modify _)) =>
  apply cacheInv_frame; intros; reflexivity : pres.
#[local] Hint Extern 2 (preserves _ (bind _ _)) =>
  apply preserves_bind; [|intros ?] : pres.
#[local] Hint Extern 3 (preserves _ (match ?x with _ => _ end)) =>
  destruct x : pres.

Lemma cacheInv_tick (env : Env) :
  preserves cacheInv (DateNow env).
Proof. by intros s Hs. Qed.

Lemma cacheInv_doFetch (env : Env) (url : jsstring) :
  preserves cacheInv (doFetch env url).
Proof.
  unfold doFetch. apply preserves_bind; [auto with pres|intros _].
  intros s Hs. by destruct (fetch env (ticks s) url).
Qed.

Lemma cacheInv_objectURL (env : Env) (b : Blob) :
  preserves cacheInv (objectURL env b).
Proof. by intros s Hs. Qed.

Lemma cacheInv_Confirm (env : Env) : preserves cacheInv (Confirm env).
Proof. by intros s Hs. Qed.

#[local] Hint Resolve cacheInv_tick cacheInv_doFetch cacheInv_objectURL
  cacheInv_Confirm : pres.

Lemma cacheInv_daysPut (v : json) : preserves cacheInv (daysPut v).
Proof. unfold daysPut. auto 10 with pres. Qed.
#[local] Hint Resolve cacheInv_daysPut : pres.

Lemma cacheInv_persist (partial : obj) : preserves cacheInv (persist partial).
Proof. unfold persist, setDay. auto 10 with pres. Qed.
#[local] Hint Resolve cacheInv_persist : pres.

Lemma cacheInv_render : preserves cacheInv render.
Proof. unfold render, autoDoneEffect. auto 10 with pres. Qed.
#[local] Hint Resolve cacheInv_render : pres.

Lemma preserves_thenRender {A} (m : M A) :
  preserves cacheInv m -> preserves cacheInv (thenRender m).
Proof.
  intros Hm s Hs. unfold thenRender. specialize (Hm s Hs).
  destruct (m s) as [r s']. simpl in *. by apply cacheInv_render.
Qed.
#[local] Hint Resolve preserves_thenRender : pres.

Lemma cacheInv_saveImageToCache (env : Env) (url : jsstring) (b : Blob) :
  preserves cacheInv (saveImageToCache env url b).
Proof. unfold saveImageToCache. auto 10 with pres. Qed.

Lemma cacheInv_getImageFromCache (env : Env) (url : jsstring) :
  preserves cacheInv (getImageFromCache env url).
Proof. unfold getImageFromCache. auto 10 with pres. Qed.
#[local] Hint Resolve cacheInv_saveImageToCache cacheInv_getImageFromCache
  : pres.

Lemma cacheInv_downloadAndCacheImage (env : Env) (url : jsstring) :
  preserves cacheInv (downloadAndCacheImage env url).
Proof. unfold downloadAndCacheImage. auto 12 with pres. Qed.
#[local] Hint Resolve cacheInv_downloadAndCacheImage : pres.

Lemma cacheInv_getTweetUrlsFromCache (env : Env) (url : jsstring) :
  preserves cacheInv (getTweetUrlsFromCache env url).
Proof. unfold getTweetUrlsFromCache. auto 10 with pres. Qed.

(** The write keeps the invariant when, and only when, the list has an
    element. *)
Lemma cacheInv_saveTweetUrlsToCache (env : Env) (url : jsstring)
    (imgs : list jsstring) :
  imgs <> [] -> preserves cacheInv (saveTweetUrlsToCache env url imgs).
Proof.
  intros Hne. unfold saveTweetUrlsToCache.
  apply preserves_bind; [auto with pres|intros now].
  apply preserves_bind; [by apply cacheInv_emit|intros _].
  apply preserves_modify. intros s [H1 H2]. split; [|exact H2].
  simpl. by apply map_Forall_insert_2.
Qed.

Lemma cacheInv_clearUrlsCache : preserves cacheInv clearUrlsCache.
Proof.
  apply preserves_modify. intros s [H1 H2]. split; [|exact H2].
  apply map_Forall_empty.
Qed.

Lemma cacheInv_relayAttempt (env : Env) (proxyUrl : jsstring) :
  preserves cacheInv (relayAttempt env proxyUrl).
Proof. unfold relayAttempt. auto 14 with pres. Qed.
#[local] Hint Resolve cacheInv_getTweetUrlsFromCache cacheInv_clearUrlsCache
  cacheInv_relayAttempt : pres.

Lemma cacheInv_relayLoop (env : Env) (ps : list jsstring) :
  preserves cacheInv (relayLoop env ps).
Proof.
  induction ps as [|p ps IH]; simpl; [auto with pres|].
  apply preserves_bind; [auto with pres|intros [imgs|]];
    [auto with pres|exact IH].
Qed.
#[local] Hint Resolve cacheInv_relayLoop : pres.

Lemma cacheInv_fetchTweetImagesViaProxy (env : Env) (url : jsstring) :
  preserves cacheInv (fetchTweetImagesViaProxy env url).
Proof. unfold fetchTweetImagesViaProxy. auto 10 with pres. Qed.

Lemma cacheInv_oembedImages (env : Env) (url : jsstring) :
  preserves cacheInv (oembedImages env url).
Proof. unfold oembedImages. auto 14 with pres. Qed.
#[local] Hint Resolve cacheInv_fetchTweetImagesViaProxy cacheInv_oembedImages
  : pres.

Lemma cacheInv_resolveTweetImages (env : Env) (url : jsstring) :
  preserves cacheInv (resolveTweetImages env url).
Proof.
  unfold resolveTweetImages.
  apply preserves_bind; [auto with pres|intros cached].
  destruct cached as [[|u us]|]; [|auto with pres|];
    (apply preserves_bind; [auto with pres|intros a];
     apply preserves_bind; [auto 10 with pres|intros b];
     apply preserves_bind; [auto 10 with pres|intros c];
     apply preserves_bind; [|auto with pres];
     destruct c; simpl; [auto with pres|];
     by apply cacheInv_saveTweetUrlsToCache).
Qed.
#[local] Hint Resolve cacheInv_resolveTweetImages : pres.

Lemma cacheInv_setOembedImgs (imgs : list jsstring) :
  preserves cacheInv (setOembedImgs imgs).
Proof. unfold setOembedImgs. auto 10 with pres. Qed.
#[local] Hint Resolve cacheInv_setOembedImgs : pres.

Lemma cacheInv_handleTweetFetch (env : Env) :
  preserves cacheInv (handleTweetFetch env).
Proof. unfold handleTweetFetch, showImages, processImages. auto 20 with pres. Qed.

Lemma cacheInv_loadDay : preserves cacheInv loadDay.
Proof. unfold loadDay, getDay. auto 12 with pres. Qed.
#[local] Hint Resolve cacheInv_loadDay cacheInv_handleTweetFetch : pres.

Lemma cacheInv_step (env : Env) (a : action) :
  preserves cacheInv (step env a).
Proof.
  destruct a; simpl.
  - unfold mount, autoDoneEffect. auto 12 with pres.
  - unfold selectDay. auto 12 with pres.
  - unfold toggleDone. auto 12 with pres.
  - unfold editTweetUrl. auto 12 with pres.
  - unfold handleManualUrlsSave. auto 12 with pres.
  - unfold clearManualUrls. auto 12 with pres.
  - auto with pres.
  - unfold handleExport, getAllDays. auto 12 with pres.
  - unfold handleImport, importOnload, getDay. auto 16 with pres.
  - unfold handleClearCache, clearImageCache, setDay. auto 16 with pres.
Qed.

Lemma cacheInv_reachable (s : Sys) : reachable s -> cacheInv s.
Proof.
  intros [tr ->]. unfold run.
  assert (cacheInv initial) as Hinit.
  { split; [apply map_Forall_empty|constructor]. }
  revert Hinit. generalize initial.
  induction tr as [|[env a] tr IH]; intros s Hs; simpl; [exact Hs|].
  apply IH. by apply cacheInv_step.
Qed.

(** The cache read: one logged [get], one look at the clock for an entry
    that is present, nothing written. *)
Lemma getTweetUrlsFromCache_run (env : Env) (url : jsstring) (s : Sys) :
  exists r,
    getTweetUrlsFromCache env url s
    = (Ok r, exec (getTweetUrlsFromCache env url) s)
    /\ log (exec (getTweetUrlsFromCache env url) s) = log s ++ [EvUrlsGet url]
    /\ urls (exec (getTweetUrlsFromCache env url) s) = urls s
    /\ r = match urls s !! url with
           | Some e =>
               if dateNow env (ticks s) - ue_timestamp e >? TTL then None
               else Some (ue_imageUrls e)
           | None => None
           end.
Proof.
  unfold getTweetUrlsFromCache, DateNow. mrun.
  destruct (urls s !! url) as [e|]; simpl; eexists; repeat split.
Qed.

(** C10: in every state the page can reach, every call of the cache write
    logged so far was made with a list that is not empty, every entry of
    the resolved-URL cache holds at least one URL, and a read of the cache
    that hits (entry present and not expired) gives a list that is not
    empty, on which the resolver stops at once: its result and final state
    are those of the read, with no request and no write. *)
Theorem urls_cache_entries_nonempty (s : Sys) :
  reachable s ->
  Forall writeOk (log s)
  /\ urlsWf (urls s)
  /\ forall env url l,
       outcome (getTweetUrlsFromCache env url) s = Ok (Some l) ->
       l <> []
       /\ resolveTweetImages env url s
          = (Ok l, exec (getTweetUrlsFromCache env url) s)
       /\ log (exec (resolveTweetImages env url) s) = log s ++ [EvUrlsGet url]
       /\ urls (exec (resolveTweetImages env url) s) = urls s.
Proof.
  intros Hreach. destruct (cacheInv_reachable s Hreach) as [Hwf Hlog].
  split; [exact Hlog|]. split; [exact Hwf|].
  intros env url l Hhit.
  destruct (getTweetUrlsFromCache_run env url s) as [r [Hrun [Hl [Hu Hr]]]].
  unfold outcome in Hhit. rewrite Hrun in Hhit. simpl in Hhit.
  injection Hhit as ->.
  assert (l <> []) as Hne.
  { destruct (urls s !! url) as [e|] eqn:He; [|discriminate].
    destruct (dateNow env (ticks s) - ue_timestamp e >? TTL); [discriminate|].
    injection Hr as ->. exact (Hwf url e He). }
  assert (resolveTweetImages env url s
          = (Ok l, exec (getTweetUrlsFromCache env url) s)) as Hres.
  { unfold resolveTweetImages, bind. rewrite Hrun.
    destruct l as [|u us]; [done|reflexivity]. }
  split; [exact Hne|]. split; [exact Hres|].
  assert (exec (resolveTweetImages env url) s
          = exec (getTweetUrlsFromCache env url) s) as ->
    by (unfold exec at 1; by rewrite Hres).
  by split.
Qed.

(** A fetch of the known tweet with no network: the fallback table fills
    the cache. *)
Definition knownTweet : jsstring :=
  js "https://x.com/user/status/1973385010481606663".

Definition knownCached : list (Env * action) :=
  [ (offline, Mount 2025 7);
    (offline, EditTweetUrl knownTweet);
    (offline, TweetFetch) ].

Lemma urls_cache_entries_nonempty_witness :
  reachable (run knownCached initial)
  /\ outcome (getTweetUrlsFromCache offline knownTweet) (run knownCached initial)
     = Ok (Some (getKnownTweetImages knownTweet))
  /\ getKnownTweetImages knownTweet <> [].
Proof.
  assert (reachable (run knownCached initial)) as Hreach by (by exists knownCached).
  assert (outcome (getTweetUrlsFromCache offline knownTweet)
            (run knownCached initial)
          = Ok (Some (getKnownTweetImages knownTweet))) as Hhit
    by (vm_compute; reflexivity).
  split; [exact Hreach|]. split; [exact Hhit|].
  destruct (urls_cache_entries_nonempty _ Hreach) as [_ [_ H]].
  by destruct (H offline knownTweet _ Hhit) as [Hne _].
Defined.

(** ** The order of the resolver strategies *)

(** The oEmbed step: one request to the embed endpoint, never an
    exception, nothing written. *)
Lemma oembedImages_run (env : Env) (url enc : jsstring) (s : Sys) :
  encodeURIComponent url = Some enc ->
  exists a s1,
    oembedImages env url s = (Ok a, s1)
    /\ log s1 = log s ++ [EvFetch (oembedEndpoint enc)]
    /\ urls s1 = urls s.
Proof.
  intros Henc. unfold oembedImages, doFetch. rewrite Henc. mrun.
  destruct (fetch env (ticks s) (oembedEndpoint enc)) as [res|]; simpl;
    [|eexists _, _; repeat split].
  destruct (res_ok res); simpl; [|eexists _, _; repeat split].
  destruct (res_json res); simpl; eexists _, _; repeat split.
Qed.

(** One relay: one request, never an exception, nothing written, and a
    result only if it is not empty. *)
Lemma relayAttempt_run (env : Env) (p : jsstring) (s : Sys) :
  exists r s1,
    relayAttempt env p s = (Ok r, s1)
    /\ log s1 = log s ++ [EvFetch p]
    /\ urls s1 = urls s
    /\ r <> Some [].
Proof.
  unfold relayAttempt, doFetch. mrun.
  destruct (fetch env (ticks s) p) as [res|]; simpl;
    [|eexists _, _; repeat split; discriminate].
  destruct (res_ok res); simpl; [|eexists _, _; repeat split; discriminate].
  destruct (includes (js "allorigins.win") p); simpl.
  - destruct (res_json res) as [data|]; simpl;
      [|eexists _, _; repeat split; discriminate].
    destruct (prop (js "contents") data) as [[| | |t| | |]|]; simpl;
      try (eexists _, _; repeat split; discriminate).
    destruct (arrayFromSet (matchAll mediaRegex t)); simpl;
      eexists _, _; repeat split; discriminate.
  - destruct (res_text res) as [t|]; simpl;
      [|eexists _, _; repeat split; discriminate].
    destruct (arrayFromSet (matchAll mediaRegex t)); simpl;
      eexists _, _; repeat split; discriminate.
Qed.

(** The relay chain: the relays are asked in the order of the list, up to
    the first that yields images, whose result is the result of the chain;
    an empty result means all were asked. *)
Lemma relayLoop_run (env : Env) (ps : list jsstring) (s : Sys) :
  exists b s1 n,
    relayLoop env ps s = (Ok b, s1)
    /\ log s1 = log s ++ map EvFetch (take n ps)
    /\ urls s1 = urls s
    /\ (n <= length ps)%nat
    /\ (b = [] -> n = length ps)
    /\ (b <> [] ->
        (0 < n)%nat
        /\ exists p sp,
             ps !! (n - 1)%nat = Some p
             /\ log sp = log s ++ map EvFetch (take (n - 1) ps)
             /\ relayAttempt env p sp = (Ok (Some b), s1)).
Proof.
  revert s. induction ps as [|p ps IH]; intros s.
  - exists [], s, 0%nat. simpl. rewrite app_nil_r.
    repeat split; auto; done.
  - destruct (relayAttempt_run env p s) as [r [s1 [Hrun [Hlog [Hurls Hr]]]]].
    simpl. unfold bind. rewrite Hrun.
    destruct r as [imgs|].
    + exists imgs, s1, 1%nat. simpl.
      split; [reflexivity|]. split; [exact Hlog|]. split; [exact Hurls|].
      split; [lia|]. split; [by intros ->|].
      intros _. split; [lia|]. exists p, s. simpl.
      rewrite app_nil_r. by repeat split.
    + destruct (IH s1) as [b [s2 [n [Hrun2 [Hlog2 [Hurls2 [Hn [Hb1 Hb2]]]]]]]].
      exists b, s2, (S n). rewrite Hrun2. simpl.
      split; [reflexivity|].
      split; [rewrite Hlog2, Hlog, <- app_assoc; reflexivity|].
      split; [congruence|]. split; [lia|]. split; [auto|].
      intros Hb. destruct (Hb2 Hb) as [Hpos [q [sq [Hq [Hlq Hrq]]]]].
      split; [lia|]. exists q, sq.
      destruct n as [|n]; [lia|]. simpl in *.
      rewrite Nat.sub_0_r in *.
      split; [exact Hq|]. split; [|exact Hrq].
      rewrite Hlq, Hlog, <- app_assoc. reflexivity.
Qed.

(** A render writes to the day store only. *)
Lemma render_frame (s : Sys) :
  urls (exec render s) = urls s
  /\ images (exec render s) = images s
  /\ ticks (exec render s) = ticks s.
Proof.
  unfold render, autoDoneEffect, persist, setDay, daysPut. mrun.
  destruct (allImages s) as [imgs|]; [|done].
  destruct (length imgs =? prevImgCountRef s)%nat; [done|]. simpl.
  destruct (dayState s) as [d|]; [|done].
  destruct ((prevImgCountRef s =? 0)%nat && (0 <? length imgs)%nat
            && negb (truthy_opt (obj_get (js "done") d))); [|done].
  simpl. destruct (dayState s) as [d'|]; [|done]. simpl.
  destruct (keyOf (spread d' [(js "done", JBool true)])); done.
Qed.

(** The declared order, for a run of the resolver on state [s] that did not
    end at the cache and returned [images]: [a] is what the embed request
    gave, [b] what was in hand after the relay chain, [n] the number of
    relays asked.  The embed endpoint is requested first; the relays are
    requested, in the order of [proxies], only when [a] is empty, up to
    the relay whose answer is [b], and all of them when they yield
    nothing; the table is consulted only when [b] is empty; the cache write is the last call and is made exactly
    when [images] is not empty, under the key [url]. *)
Definition strategiesInOrder (env : Env) (url enc : jsstring) (s : Sys)
    (images : list jsstring) : Prop :=
  let s0 := exec (getTweetUrlsFromCache env url) s in
  let s1 := exec (oembedImages env url) s0 in
  let sR := exec (resolveTweetImages env url) s in
  exists a b ps n,
    outcome (oembedImages env url) s0 = Ok a
    /\ log s1 = log s0 ++ [EvFetch (oembedEndpoint enc)]
    /\ proxies url = Some ps
    /\ (a = [] -> outcome (fetchTweetImagesViaProxy env url) s1 = Ok b)
    /\ (a <> [] -> b = a)
    /\ images = match b with [] => getKnownTweetImages url | _ => b end
    /\ log sR
       = log s1
         ++ match a with [] => map EvFetch (take n ps) | _ => [] end
         ++ match b with [] => [EvKnownImages url] | _ => [] end
         ++ match images with [] => [] | _ => [EvUrlsPut url images] end
    /\ (n <= length ps)%nat
    /\ (a = [] -> b = [] -> n = length ps)
    /\ (a = [] -> b <> [] ->
        (0 < n)%nat
        /\ exists p sp,
             ps !! (n - 1)%nat = Some p
             /\ log sp = log s1 ++ map EvFetch (take (n - 1) ps)
             /\ outcome (relayAttempt env p) sp = Ok (Some b))
    /\ (images <> [] ->
        exists ts, urls sR = <[url := mkUrlsEntry url images ts]> (urls s))
    /\ (images = [] -> urls sR = urls s).

Lemma resolve_miss (env : Env) (url enc : jsstring) (s : Sys) :
  encodeURIComponent url = Some enc ->
  outcome (getTweetUrlsFromCache env url) s = Ok None ->
  exists images,
    outcome (resolveTweetImages env url) s = Ok images
    /\ strategiesInOrder env url enc s images.
Proof.
  intros Henc Hmiss. unfold strategiesInOrder.
  set (s0 := exec (getTweetUrlsFromCache env url) s).
  set (s1 := exec (oembedImages env url) s0).
  set (sR := exec (resolveTweetImages env url) s).
  destruct (getTweetUrlsFromCache_run env url s) as [r [Hrun [Hl0 [Hu0 _]]]].
  unfold outcome in Hmiss. rewrite Hrun in Hmiss. simpl in Hmiss.
  injection Hmiss as ->. fold s0 in Hrun, Hl0, Hu0.
  destruct (oembedImages_run env url enc s0 Henc) as [a [s1' [Ha [Hl1 Hu1]]]].
  assert (s1 = s1') as <- by (unfold s1, exec; by rewrite Ha).
  assert (proxies url = Some [ js "https://r.jina.ai/http://" ++ stripScheme url;
                               js "https://api.allorigins.win/get?url=" ++ enc;
                               js "https://cors-anywhere.herokuapp.com/" ++ url ])
    as Hps by (unfold proxies; by rewrite Henc).
  set (ps := [ js "https://r.jina.ai/http://" ++ stripScheme url;
               js "https://api.allorigins.win/get?url=" ++ enc;
               js "https://cors-anywhere.herokuapp.com/" ++ url ]) in *.
  (* the relay phase *)
  assert (exists b s2 n,
            (match a with
             | [] => fetchTweetImagesViaProxy env url
             | _ => ret a
             end) s1 = (Ok b, s2)
            /\ log s2 = log s1 ++ match a with
                                  | [] => map EvFetch (take n ps)
                                  | _ => []
                                  end
            /\ urls s2 = urls s1
            /\ (n <= length ps)%nat
            /\ (a = [] -> outcome (fetchTweetImagesViaProxy env url) s1 = Ok b)
            /\ (a <> [] -> b = a)
            /\ (a = [] -> b = [] -> n = length ps)
            /\ (a = [] -> b <> [] ->
                (0 < n)%nat
                /\ exists p sp,
                     ps !! (n - 1)%nat = Some p
                     /\ log sp = log s1 ++ map EvFetch (take (n - 1) ps)
                     /\ outcome (relayAttempt env p) sp = Ok (Some b)))
    as [b [s2 [n [Hb [Hl2 [Hu2 [Hn [Hb1 [Hb2 [Hn1 Hn2]]]]]]]]]].
  { destruct a as [|x a].
    - destruct (relayLoop_run env ps s1)
        as [b [s2 [n [Hr [Hl [Hu [Hn [H1 H2]]]]]]]].
      assert (fetchTweetImagesViaProxy env url s1 = (Ok b, s2)) as Hf
        by (unfold fetchTweetImagesViaProxy, bind; rewrite Hps; exact Hr).
      exists b, s2, n.
      split; [exact Hf|]. split; [exact Hl|]. split; [exact Hu|].
      split; [exact Hn|].
      split; [intros _; unfold outcome; by rewrite Hf|].
      split; [done|]. split; [intros _; exact H1|].
      intros _ Hne. destruct (H2 Hne) as [Hpos [p [sp [Hp [Hlp Hrp]]]]].
      split; [exact Hpos|]. exists p, sp.
      split; [exact Hp|]. split; [exact Hlp|].
      unfold outcome. by rewrite Hrp.
    - exists (x :: a), s1, 0%nat. rewrite app_nil_r.
      split; [reflexivity|]. split; [reflexivity|]. split; [reflexivity|].
      split; [simpl; lia|]. repeat split; done. }
  set (images := match b with [] => getKnownTweetImages url | _ => b end).
  (* the table phase *)
  assert (exists s3,
            (match b with
             | [] => emit (EvKnownImages url) ;;; ret (getKnownTweetImages url)
             | _ => ret b
             end) s2 = (Ok images, s3)
            /\ log s3 = log s2 ++ match b with
                                  | [] => [EvKnownImages url]
                                  | _ => []
                                  end
            /\ urls s3 = urls s2 /\ ticks s3 = ticks s2)
    as [s3 [Hk [Hl3 [Hu3 Ht3]]]].
  { subst images. destruct b; eexists; repeat split. simpl.
    by rewrite app_nil_r. }
  (* the write *)
  assert (exists s4,
            (if (0 <? length images)%nat
             then saveTweetUrlsToCache env url images
             else ret tt) s3 = (Ok tt, s4)
            /\ log s4 = log s3 ++ match images with
                                  | [] => []
                                  | _ => [EvUrlsPut url images]
                                  end
            /\ (images <> [] ->
                exists ts, urls s4 = <[url := mkUrlsEntry url images ts]> (urls s3))
            /\ (images = [] -> urls s4 = urls s3))
    as [s4 [Hw [Hl4 [Hu4 Hu4']]]].
  { destruct images as [|i is_]; simpl.
    - eexists. repeat split; [by rewrite app_nil_r|done].
    - unfold saveTweetUrlsToCache, DateNow. mrun.
      eexists. repeat split; [eauto|done]. }
  assert (resolveTweetImages env url s = (Ok images, s4)) as Hres.
  { unfold resolveTweetImages. unfold bind at 1. rewrite Hrun.
    unfold bind at 1. rewrite Ha.
    unfold bind at 1. rewrite Hb.
    unfold bind at 1. fold images. rewrite Hk.
    unfold bind at 1. rewrite Hw. reflexivity. }
  assert (sR = s4) as -> by (unfold sR, exec; by rewrite Hres).
  exists images. split; [unfold outcome; by rewrite Hres|].
  exists a, b, ps, n.
  split; [unfold outcome; by rewrite Ha|].
  split; [exact Hl1|]. split; [exact Hps|]. split; [exact Hb1|].
  split; [exact Hb2|]. split; [reflexivity|].
  split; [rewrite Hl4, Hl3, Hl2, <- !app_assoc; reflexivity|].
  split; [exact Hn|]. split; [exact Hn1|]. split; [exact Hn2|].
  split.
  - intros Hne. destruct (Hu4 Hne) as [ts Hts]. exists ts.
    rewrite Hts, Hu3, Hu2, Hu1, Hu0. reflexivity.
  - intros He. rewrite (Hu4' He), Hu3, Hu2, Hu1, Hu0. reflexivity.
Qed.

(** On a hit the resolver ends at the cache read. *)
Lemma resolve_hit (env : Env) (url : jsstring) (s : Sys) (l : list jsstring) :
  urlsWf (urls s) ->
  outcome (getTweetUrlsFromCache env url) s = Ok (Some l) ->
  resolveTweetImages env url s
  = (Ok l, exec (getTweetUrlsFromCache env url) s).
Proof.
  intros Hwf Hhit.
  destruct (getTweetUrlsFromCache_run env url s) as [r [Hrun [_ [_ Hr]]]].
  unfold outcome in Hhit. rewrite Hrun in Hhit. simpl in Hhit.
  injection Hhit as ->.
  unfold resolveTweetImages, bind. rewrite Hrun.
  destruct l as [|u us]; [|reflexivity].
  destruct (urls s !! url) as [e|] eqn:He; [|discriminate].
  destruct (dateNow env (ticks s) - ue_timestamp e >? TTL); [discriminate|].
  injection Hr as Hr. symmetry in Hr. by destruct (Hwf url e He).
Qed.

(** A post URL with a lone surrogate cannot be encoded: on a miss the
    resolver makes no request and throws out of the relay step, into the
    outer [catch] of [handleTweetFetch]. *)
Lemma resolve_unencodable (env : Env) (url : jsstring) (s : Sys) :
  encodeURIComponent url = None ->
  outcome (getTweetUrlsFromCache env url) s = Ok None ->
  outcome (resolveTweetImages env url) s = Thrown
  /\ log (exec (resolveTweetImages env url) s) = log s ++ [EvUrlsGet url].
Proof.
  intros Henc Hmiss.
  destruct (getTweetUrlsFromCache_run env url s) as [r [Hrun [Hl [_ _]]]].
  unfold outcome in Hmiss. rewrite Hrun in Hmiss. simpl in Hmiss.
  injection Hmiss as ->.
  unfold outcome, exec, resolveTweetImages.
  unfold bind at 1 3. rewrite Hrun.
  unfold oembedImages, fetchTweetImagesViaProxy, proxies. rewrite Henc.
  mrun. split; [reflexivity|].
  destruct (getTweetUrlsFromCache env url s) as [r' s'].
  simpl in *. injection Hrun as ->. exact Hl.
Qed.

Example lone_surrogate_unencodable :
  encodeURIComponent (js "https://x.com/a/status/1" ++ [55357%N]) = None.
Proof. vm_compute. reflexivity. Qed.

(** C1: for a post URL typed into a loaded day, over a cache without empty
    lists, the resolution of [handleTweetFetch] returns a list and uses it
    (step 4) only in the state the resolver has left.  The cache is read
    first; if it holds an entry for exactly the trimmed URL that is not
    expired, that list is the result, nothing else is called and the cache
    is unchanged; otherwise the strategies run in order: the embed
    request, the relays only if it gave no image, the table only if they
    gave none, and a result that is not empty is written to the cache
    under the URL as the last call of the resolver. *)
Theorem tweet_fetch_strategy_order (env : Env) (s : Sys) (d : obj)
    (t url enc : jsstring) :
  urlsWf (urls s) ->
  dayState s = Some d ->
  obj_get (js "tweetUrl") d = Some (JStr t) ->
  trim t = url -> url <> [] ->
  encodeURIComponent url = Some enc ->
  let sA := exec (thenRender (setOembedImgs [])) s in
  let s0 := exec (getTweetUrlsFromCache env url) sA in
  let sR := exec (resolveTweetImages env url) sA in
  exists images,
    outcome (resolveTweetImages env url) sA = Ok images
    /\ exec (handleTweetFetch env) s
       = exec render (exec (tryCatch (showImages env images) (ret tt)) sR)
    /\ log s0 = log sA ++ [EvUrlsGet url]
    /\ (forall e, urls s !! url = Some e ->
                  dateNow env (ticks s) - ue_timestamp e <= TTL ->
                  images = ue_imageUrls e /\ sR = s0 /\ urls sR = urls s)
    /\ (urls s !! url = None
        \/ (exists e, urls s !! url = Some e
                      /\ dateNow env (ticks s) - ue_timestamp e > TTL) ->
        strategiesInOrder env url enc sA images).
Proof.
  intros Hwf Hd Ht Hurl Hne Henc sA s0 sR.
  assert (urls sA = urls s /\ ticks sA = ticks s) as [HuA HtA].
  { unfold sA. rewrite exec_thenRender.
    destruct (render_frame (exec (setOembedImgs []) s)) as [-> [_ ->]].
    done. }
  destruct (getTweetUrlsFromCache_run env url sA) as [r [Hrun [Hl0 [Hu0 Hr]]]].
  fold s0 in Hrun, Hl0, Hu0. rewrite HuA, HtA in Hr.
  assert (exists images,
            resolveTweetImages env url sA = (Ok images, sR)
            /\ (forall e, urls s !! url = Some e ->
                  dateNow env (ticks s) - ue_timestamp e <= TTL ->
                  images = ue_imageUrls e /\ sR = s0 /\ urls sR = urls s)
            /\ (urls s !! url = None
                \/ (exists e, urls s !! url = Some e
                      /\ dateNow env (ticks s) - ue_timestamp e > TTL) ->
                strategiesInOrder env url enc sA images))
    as [images [Hres [Hhit Hmiss]]].
  { destruct r as [l|].
    - assert (resolveTweetImages env url sA = (Ok l, s0)) as Hres.
      { apply resolve_hit; [by rewrite HuA|].
        unfold outcome. by rewrite Hrun. }
      assert (sR = s0) as HsR by (unfold sR, exec; by rewrite Hres).
      exists l. split; [by rewrite HsR|].
      destruct (urls s !! url) as [e|] eqn:He; [|discriminate].
      destruct (dateNow env (ticks s) - ue_timestamp e >? TTL) eqn:Hexp;
        [discriminate|].
      injection Hr as ->. split.
      + intros e' [= <-] _. split; [reflexivity|]. split; [exact HsR|].
        by rewrite HsR, Hu0, HuA.
      + intros [Hnone|[e' [[= <-] Hold]]]; [discriminate|].
        rewrite Z.gtb_ltb in Hexp. apply Z.ltb_ge in Hexp. lia.
    - destruct (resolve_miss env url enc sA Henc) as [images [Hout Hord]].
      { unfold outcome. by rewrite Hrun. }
      exists images. split.
      + unfold outcome in Hout. unfold sR, exec.
        destruct (resolveTweetImages env url sA) as [r' s']. simpl in *.
        by rewrite Hout.
      + split; [|by intros _].
        intros e He Hfresh. rewrite He in Hr.
        destruct (dateNow env (ticks s) - ue_timestamp e >? TTL) eqn:Hexp;
          [|discriminate].
        apply Z.gtb_lt in Hexp. lia. }
  exists images.
  split; [unfold outcome; by rewrite Hres|].
  split; [|split; [exact Hl0|split; [exact Hhit|exact Hmiss]]].
  unfold handleTweetFetch.
  rewrite exec_bind. simpl. rewrite Hd, Ht, Hurl.
  destruct url as [|c url']; [done|].
  rewrite exec_thenRender. f_equal.
  rewrite exec_bind. fold sA.
  destruct (thenRender (setOembedImgs []) s) as [[[]|] sA'] eqn:HA.
  - assert (sA' = sA) as -> by (unfold sA, exec; by rewrite HA).
    unfold exec, tryCatch, bind. rewrite Hres. reflexivity.
  - exfalso. unfold thenRender, setOembedImgs in HA. mrun. discriminate.
Qed.

(** Day 7 with the URL of the known tweet typed in. *)
Definition knownTyped : Sys :=
  run [ (offline, Mount 2025 7); (offline, EditTweetUrl knownTweet) ] initial.

Lemma tweet_fetch_strategy_order_witness :
  urlsWf (urls knownTyped)
  /\ (exists d, dayState knownTyped = Some d
                /\ obj_get (js "tweetUrl") d = Some (JStr knownTweet))
  /\ trim knownTweet = knownTweet
  /\ encodeURIComponent knownTweet
     = Some (js "https%3A%2F%2Fx.com%2Fuser%2Fstatus%2F1973385010481606663")
  /\ exists images,
       outcome (resolveTweetImages offline knownTweet)
         (exec (thenRender (setOembedImgs [])) knownTyped) = Ok images.
Proof.
  assert (urlsWf (urls knownTyped)) as Hwf by apply map_Forall_empty.
  assert (encodeURIComponent knownTweet
          = Some (js "https%3A%2F%2Fx.com%2Fuser%2Fstatus%2F1973385010481606663"))
    as Henc by (vm_compute; reflexivity).
  split; [exact Hwf|].
  split; [eexists; split; vm_compute; reflexivity|].
  split; [vm_compute; reflexivity|]. split; [exact Henc|].
  destruct (tweet_fetch_strategy_order offline knownTyped
              (spread (defaultDay 2025 7) [(js "tweetUrl", JStr knownTweet)])
              knownTweet knownTweet
              (js "https%3A%2F%2Fx.com%2Fuser%2Fstatus%2F1973385010481606663")
              Hwf) as [images [Hout _]];
    [vm_compute; reflexivity|vm_compute; reflexivity|vm_compute; reflexivity
    |vm_compute; discriminate|exact Henc|].
  exists images. exact Hout.
Defined.
(* ===================================================================== *)
(** * Further properties of the helpers and of the component *)
(* ===================================================================== *)

(** ** The image cache *)

(** X1: a blob saved under a URL is what a later read of that URL
    resolves to, provided the clock of the read is at most 365 days after
    the clock of the write (the bound included); the write touches no
    entry of another URL. *)
Theorem image_cache_round_trip (env : Env) (url : jsstring) (blob : Blob)
    (s t : Sys) :
  images t = images (exec (saveImageToCache env url blob) s) ->
  dateNow env (ticks t) - dateNow env (ticks s) <= TTL ->
  outcome (getImageFromCache env url) t = Ok (Some blob)
  /\ forall url', url' <> url -> images t !! url' = images s !! url'.
Proof.
  intros Himg Hclock. unfold getImageFromCache, saveImageToCache, DateNow in *.
  mrun. rewrite Himg. split.
  - rewrite lookup_insert_eq. simpl.
    destruct (Z.gtb_spec (dateNow env (ticks t) - dateNow env (ticks s)) TTL);
      [lia|reflexivity].
  - intros url' Hne. by rewrite lookup_insert_ne.
Qed.

Lemma image_cache_round_trip_witness :
  outcome (getImageFromCache offline (js "https://a.com/1.jpg"))
    (exec (saveImageToCache offline (js "https://a.com/1.jpg")
             (MkBlob [1%N; 2%N])) day7)
  = Ok (Some (MkBlob [1%N; 2%N])).
Proof.
  apply (image_cache_round_trip offline (js "https://a.com/1.jpg")
           (MkBlob [1%N; 2%N]) day7
           (exec (saveImageToCache offline (js "https://a.com/1.jpg")
                    (MkBlob [1%N; 2%N])) day7)).
  - reflexivity.
  - vm_compute. discriminate.
Defined.

(** X2: the list of image URLs saved for a post is what a later read of
    the resolved-URL cache gives for that post, under the same condition
    on the clock; the write touches no entry of another post. *)
Theorem urls_cache_round_trip (env : Env) (tweetUrl : jsstring)
    (imageUrls : list jsstring) (s t : Sys) :
  urls t = urls (exec (saveTweetUrlsToCache env tweetUrl imageUrls) s) ->
  dateNow env (ticks t) - dateNow env (ticks s) <= TTL ->
  outcome (getTweetUrlsFromCache env tweetUrl) t = Ok (Some imageUrls)
  /\ forall url', url' <> tweetUrl -> urls t !! url' = urls s !! url'.
Proof.
  intros Hurls Hclock.
  unfold getTweetUrlsFromCache, saveTweetUrlsToCache, DateNow in *.
  mrun. rewrite Hurls. split.
  - rewrite lookup_insert_eq. simpl.
    destruct (Z.gtb_spec (dateNow env (ticks t) - dateNow env (ticks s)) TTL);
      [lia|reflexivity].
  - intros url' Hne. by rewrite lookup_insert_ne.
Qed.

Lemma urls_cache_round_trip_witness :
  outcome (getTweetUrlsFromCache offline (js "https://x.com/u/status/1"))
    (exec (saveTweetUrlsToCache offline (js "https://x.com/u/status/1")
             [js "https://pbs.twimg.com/media/A"]) day7)
  = Ok (Some [js "https://pbs.twimg.com/media/A"]).
Proof.
  apply (urls_cache_round_trip offline (js "https://x.com/u/status/1")
           [js "https://pbs.twimg.com/media/A"] day7
           (exec (saveTweetUrlsToCache offline (js "https://x.com/u/status/1")
                    [js "https://pbs.twimg.com/media/A"]) day7)).
  - reflexivity.
  - vm_compute. discriminate.
Defined.

(** ** Downloading an image *)

(** What a state change leaves alone: everything but the image cache, the
    clock and the log. *)
Definition sameDaysAndUrls (s s' : Sys) : Prop :=
  year s' = year s /\ selectedDay s' = selectedDay s
  /\ dayState s' = dayState s /\ oembedImgs s' = oembedImgs s
  /\ prevImgCountRef s' = prevImgCountRef s
  /\ days s' = days s /\ urls s' = urls s.

(** The possible results of [downloadAndCacheImage(url)]: the address
    itself or an object URL made by the browser. *)
Definition downloadResult (env : Env) (url r : jsstring) : Prop :=
  r = url \/ exists n b, r = createObjectURL env n b.

(** The run of [downloadAndCacheImage]: it always completes; the image
    cache is left as it was or receives one entry, under [url]. *)
Lemma downloadAndCacheImage_run (env : Env) (url : jsstring) (s : Sys) :
  exists r s',
    downloadAndCacheImage env url s = (Ok r, s')
    /\ downloadResult env url r
    /\ sameDaysAndUrls s s'
    /\ (images s' = images s
        \/ exists b t, images s' = <[url := mkImageEntry url b t]> (images s)).
Proof.
  unfold downloadAndCacheImage, getImageFromCache, saveImageToCache, doFetch,
    objectURL, DateNow, downloadResult, sameDaysAndUrls.
  mrun.
  destruct (images s !! url) as [e|] eqn:He; simpl.
  - destruct (dateNow env (ticks s) - ie_timestamp e >? TTL); simpl.
    + destruct (fetch env (S (ticks s)) url) as [res|]; simpl;
        [|eexists _, _; repeat split; auto].
      destruct (res_ok res); simpl; [|eexists _, _; repeat split; auto].
      destruct (res_blob res) as [b|]; simpl;
        eexists _, _; repeat split; eauto.
    + eexists _, _; repeat split; eauto.
  - destruct (fetch env (ticks s) url) as [res|]; simpl;
      [|eexists _, _; repeat split; auto].
    destruct (res_ok res); simpl; [|eexists _, _; repeat split; auto].
    destruct (res_blob res) as [b|]; simpl;
      eexists _, _; repeat split; eauto.
Qed.

(** X3: [downloadAndCacheImage] never rejects.  It resolves to the address
    it was given or to an object URL, changes no entry of the image cache
    other than the one of that address, and touches neither the day
    store, the resolved-URL cache nor the state of the component. *)
Theorem download_never_rejects (env : Env) (url : jsstring) (s : Sys) :
  exists r,
    outcome (downloadAndCacheImage env url) s = Ok r
    /\ downloadResult env url r
    /\ sameDaysAndUrls s (exec (downloadAndCacheImage env url) s)
    /\ forall url', url' <> url ->
         images (exec (downloadAndCacheImage env url) s) !! url'
         = images s !! url'.
Proof.
  destruct (downloadAndCacheImage_run env url s)
    as [r [s' [Hrun [Hr [Hsame Himg]]]]].
  exists r. unfold outcome, exec. rewrite Hrun. simpl.
  repeat split; try done; try apply Hsame.
  intros url' Hne. destruct Himg as [->|[b [t ->]]]; [done|].
  by rewrite lookup_insert_ne.
Qed.

(** X4: when the image cache holds an entry for the address that has not
    expired, [downloadAndCacheImage] makes no request: its only logged
    call is the read of the cache, the cache is left as it was, and the
    result is the object URL of the cached blob. *)
Theorem download_hit_makes_no_request (env : Env) (url : jsstring)
    (e : ImageEntry) (s : Sys) :
  images s !! url = Some e ->
  dateNow env (ticks s) - ie_timestamp e <= TTL ->
  let s' := exec (downloadAndCacheImage env url) s in
  outcome (downloadAndCacheImage env url) s
  = Ok (createObjectURL env (S (ticks s)) (ie_blob e))
  /\ log s' = log s ++ [EvImagesGet url]
  /\ images s' = images s.
Proof.
  intros He Hfresh.
  unfold downloadAndCacheImage, getImageFromCache, objectURL, DateNow.
  mrun. rewrite He. simpl.
  destruct (Z.gtb_spec (dateNow env (ticks s) - ie_timestamp e) TTL);
    [lia|]. by simpl.
Qed.

(** A cache that holds one image, saved at time 1000. *)
Definition cachedImage : ImageEntry :=
  mkImageEntry mediaA (MkBlob [1%N; 2%N; 3%N]) 1000.
Definition warmCache : Sys := set_images {[ mediaA := cachedImage ]} day7.

Lemma download_hit_makes_no_request_witness :
  images warmCache !! mediaA = Some cachedImage
  /\ dateNow offline (ticks warmCache) - ie_timestamp cachedImage <= TTL
  /\ log (exec (downloadAndCacheImage offline mediaA) warmCache)
     = log warmCache ++ [EvImagesGet mediaA].
Proof.
  assert (images warmCache !! mediaA = Some cachedImage) as He
    by (vm_compute; reflexivity).
  assert (dateNow offline (ticks warmCache) - ie_timestamp cachedImage <= TTL)
    as Hfresh by (vm_compute; discriminate).
  split; [exact He|]. split; [exact Hfresh|].
  by destruct (download_hit_makes_no_request offline mediaA cachedImage
                 warmCache He Hfresh) as [_ [Hlog _]].
Defined.

(** X5: when the cache has no entry for the address and the download
    fails (a network error, a response that is not OK, or a body that
    cannot be read), [downloadAndCacheImage] resolves to the address it
    was given and stores nothing. *)
Theorem download_failure_gives_address (env : Env) (url : jsstring)
    (s : Sys) :
  images s !! url = None ->
  match fetch env (ticks s) url with
  | Some res => res_ok res = false \/ res_blob res = None
  | None => True
  end ->
  let s' := exec (downloadAndCacheImage env url) s in
  outcome (downloadAndCacheImage env url) s = Ok url
  /\ images s' = images s
  /\ log s' = log s ++ [EvImagesGet url; EvFetch url].
Proof.
  intros He Hfail.
  unfold downloadAndCacheImage, getImageFromCache, saveImageToCache, doFetch,
    objectURL, DateNow.
  mrun. rewrite He. simpl. rewrite <- app_assoc. simpl.
  destruct (fetch env (ticks s) url) as [res|]; simpl; [|done].
  destruct Hfail as [Hok|Hblob].
  - by rewrite Hok.
  - destruct (res_ok res); simpl; [|done]. by rewrite Hblob.
Qed.

Lemma download_failure_gives_address_witness :
  outcome (downloadAndCacheImage offline mediaA) day7 = Ok mediaA.
Proof.
  assert (images day7 !! mediaA = None) as He by (vm_compute; reflexivity).
  assert (match fetch offline (ticks day7) mediaA with
          | Some res => res_ok res = false \/ res_blob res = None
          | None => True
          end) as Hfail by (vm_compute; exact I).
  by destruct (download_failure_gives_address offline mediaA day7 He Hfail)
    as [Hout _].
Defined.

(** X6: an image is downloaded once.  After a download that succeeded
    (no entry before, an OK response with a body), the cache holds the
    body under the address with the time of the write, and a second call
    made while the entry has not expired is answered from the cache: it
    logs the cache read and no request, and resolves to an object URL of
    the same body. *)
Theorem download_then_cached (env : Env) (url : jsstring) (res : Response)
    (blob : Blob) (s : Sys) :
  images s !! url = None ->
  fetch env (ticks s) url = Some res ->
  res_ok res = true ->
  res_blob res = Some blob ->
  dateNow env (3 + ticks s)%nat - dateNow env (1 + ticks s)%nat <= TTL ->
  let s1 := exec (downloadAndCacheImage env url) s in
  let s2 := exec (downloadAndCacheImage env url) s1 in
  outcome (downloadAndCacheImage env url) s
  = Ok (createObjectURL env (2 + ticks s)%nat blob)
  /\ log s1 = log s ++ [EvImagesGet url; EvFetch url; EvImagesPut url]
  /\ images s1
     = <[url := mkImageEntry url blob (dateNow env (1 + ticks s)%nat)]>
         (images s)
  /\ outcome (downloadAndCacheImage env url) s1
     = Ok (createObjectURL env (4 + ticks s)%nat blob)
  /\ log s2 = log s1 ++ [EvImagesGet url]
  /\ images s2 = images s1.
Proof.
  intros He Hres Hok Hblob Hfresh.
  unfold downloadAndCacheImage, getImageFromCache, saveImageToCache, doFetch,
    objectURL, DateNow.
  mrun. rewrite He. simpl. rewrite Hres. simpl. rewrite Hok. simpl.
  rewrite Hblob. simpl. rewrite lookup_insert_eq. simpl.
  destruct (Z.gtb_spec
              (dateNow env (S (S (S (ticks s))))
               - dateNow env (S (ticks s))) TTL); [lia|].
  simpl. rewrite <- !app_assoc. simpl. done.
Qed.

(** A world in which every request is answered with a three-byte body. *)
Definition imageHost : Env :=
  mkEnv (fun n => 1000 + Z.of_nat n)
    (fun _ _ => Some (mkResponse true None None (Some (MkBlob [1%N; 2%N; 3%N]))))
    (fun _ => []) (fun _ _ => js "blob:local") (fun _ => true).

Lemma download_then_cached_witness :
  log (exec (downloadAndCacheImage imageHost mediaA)
         (exec (downloadAndCacheImage imageHost mediaA) day7))
  = log (exec (downloadAndCacheImage imageHost mediaA) day7)
    ++ [EvImagesGet mediaA].
Proof.
  assert (images day7 !! mediaA = None) as He by (vm_compute; reflexivity).
  assert (dateNow imageHost (3 + ticks day7)%nat
          - dateNow imageHost (1 + ticks day7)%nat <= TTL) as Hfresh
    by (vm_compute; discriminate).
  by destruct (download_then_cached imageHost mediaA _ (MkBlob [1%N; 2%N; 3%N])
                 day7 He eq_refl eq_refl eq_refl Hfresh)
    as [_ [_ [_ [_ [Hlog _]]]]].
Defined.

(** ** The loop over the resolved images *)

Lemma sameDaysAndUrls_trans (s1 s2 s3 : Sys) :
  sameDaysAndUrls s1 s2 -> sameDaysAndUrls s2 s3 -> sameDaysAndUrls s1 s3.
Proof.
  unfold sameDaysAndUrls. intros (?&?&?&?&?&?&?) (?&?&?&?&?&?&?).
  repeat split; congruence.
Qed.

Lemma processImages_run (env : Env) (imgs : list jsstring) (s : Sys) :
  exists out s',
    processImages env imgs s = (Ok out, s')
    /\ Forall2 (downloadResult env) imgs out
    /\ sameDaysAndUrls s s'.
Proof.
  unfold processImages. revert s.
  induction imgs as [|u imgs IH]; intros s; simpl.
  - exists [], s. repeat split. constructor.
  - destruct (downloadAndCacheImage_run env u s)
      as [r [s1 [Hrun [Hr [Hsame _]]]]].
    destruct (IH s1) as [out [s2 [Hrun2 [Hout Hsame2]]]].
    exists (r :: out), s2. unfold bind, tryCatch at 1.
    rewrite Hrun. unfold bind in Hrun2. rewrite Hrun2. simpl.
    split; [reflexivity|]. split; [by constructor|].
    by apply (sameDaysAndUrls_trans s s1 s2).
Qed.

(** X7: the loop of step 4 of [handleTweetFetch] never rejects and gives
    one address per resolved image, in the same order: each is the
    resolved address itself or an object URL.  It touches neither the day
    store, the resolved-URL cache nor the state of the component. *)
Theorem process_images_keeps_every_image (env : Env) (imgs : list jsstring)
    (s : Sys) :
  exists out,
    outcome (processImages env imgs) s = Ok out
    /\ length out = length imgs
    /\ Forall2 (downloadResult env) imgs out
    /\ sameDaysAndUrls s (exec (processImages env imgs) s).
Proof.
  destruct (processImages_run env imgs s) as [out [s' [Hrun [Hout Hsame]]]].
  exists out. unfold outcome, exec. rewrite Hrun. simpl.
  split; [reflexivity|]. split; [|by split].
  symmetry. by apply Forall2_length in Hout.
Qed.

(** ** The shape of the addresses found through a relay *)

Lemma matchAllFrom_Forall (P : jsstring -> Prop) (r : list reAtom) :
  (forall s n, reMatch r s = Some n -> P (take n s)) ->
  forall s skip, Forall P (matchAllFrom r skip s).
Proof.
  intros HP s. induction s as [|x s IH]; intros skip; simpl.
  - destruct skip; [|constructor].
    destruct (reMatch r []) as [n|] eqn:E; [|constructor].
    repeat constructor. pose proof (HP [] n E) as H0.
    by rewrite take_nil in H0.
  - destruct skip as [|k]; [|apply IH].
    destruct (reMatch r (x :: s)) as [[|n]|] eqn:E.
    + constructor; [apply (HP _ _ E)|apply IH].
    + constructor; [apply (HP _ _ E)|apply IH].
    + apply IH.
Qed.

(** An address as the relay extraction gives it. *)
Definition largeMediaAddress (u : jsstring) : Prop :=
  exists scheme c id,
    (scheme = js "http" \/ scheme = js "https")
    /\ u = scheme ++ js "://pbs.twimg.com/media/" ++ c :: id
           ++ js "?format=jpg&name=large"
    /\ isMediaIdChar c = true
    /\ Forall (fun x => isDelimiter x = false /\ x <> 63%N) id.

Lemma beforeQuery_app (p s : jsstring) :
  Forall (fun c => c <> 63%N) p -> beforeQuery (p ++ s) = p ++ beforeQuery s.
Proof.
  unfold beforeQuery. induction 1 as [|c p Hc _ IH]; simpl; [reflexivity|].
  rewrite (proj2 (N.eqb_neq c 63)) by exact Hc.
  pose proof (splitOn_nonempty (fun c => (c =? 63)%N) (p ++ s)) as Hne.
  destruct (splitOn (fun c => (c =? 63)%N) (p ++ s)) as [|q qs]; [done|].
  simpl in *. by rewrite IH.
Qed.

Lemma largeFormat_shape (m : jsstring) :
  mediaMatch m -> largeMediaAddress (largeFormat m).
Proof.
  intros [scheme [c [body [Hs [-> [Hc Hbody]]]]]].
  destruct (beforeQuery_spec body) as [Hnq [q [Hq _]]].
  exists scheme, c, (beforeQuery body).
  split; [exact Hs|]. split; [|split; [exact Hc|]].
  - unfold largeFormat.
    assert (Forall (fun x => x <> 63%N)
              (scheme ++ js "://pbs.twimg.com/media/" ++ [c])) as Hpre.
    { apply Forall_app. split.
      - destruct Hs as [-> | ->]; vm_compute; repeat constructor; discriminate.
      - apply Forall_app. split.
        + vm_compute. repeat constructor; discriminate.
        + repeat constructor. intros ->. vm_compute in Hc. discriminate. }
    replace (scheme ++ js "://pbs.twimg.com/media/" ++ c :: body)
      with ((scheme ++ js "://pbs.twimg.com/media/" ++ [c]) ++ body)
      by (by rewrite <- !app_assoc).
    rewrite beforeQuery_app by exact Hpre.
    by rewrite <- !app_assoc.
  - rewrite Hq in Hbody. apply Forall_app in Hbody as [Hb _].
    apply Forall_forall. intros x Hx. split.
    + rewrite Forall_forall in Hb. by apply Hb.
    + rewrite Forall_forall in Hnq. by apply Hnq.
Qed.

Lemma media_matches_shape (t : jsstring) :
  Forall largeMediaAddress
    (map largeFormat (arrayFromSet (matchAll mediaRegex t))).
Proof.
  apply Forall_fmap. apply arrayFromSet_Forall.
  apply (matchAllFrom_Forall (fun m => largeMediaAddress (largeFormat m))).
  intros s n H. by apply largeFormat_shape, mediaRegex_shape.
Qed.

Lemma relayAttempt_shape (env : Env) (p : jsstring) (s s1 : Sys)
    (b : list jsstring) :
  relayAttempt env p s = (Ok (Some b), s1) -> Forall largeMediaAddress b.
Proof.
  unfold relayAttempt, doFetch. mrun.
  destruct (fetch env (ticks s) p) as [res|]; simpl; [|discriminate].
  destruct (res_ok res); simpl; [|discriminate].
  destruct (includes (js "allorigins.win") p); simpl.
  - destruct (res_json res) as [data|]; simpl; [|discriminate].
    destruct (prop (js "contents") data) as [[| | |t| | |]|]; simpl;
      try discriminate.
    pose proof (media_matches_shape t) as Hshape.
    destruct (arrayFromSet (matchAll mediaRegex t)); simpl; [discriminate|].
    intros [= <- _]. exact Hshape.
  - destruct (res_text res) as [t|]; simpl; [|discriminate].
    pose proof (media_matches_shape t) as Hshape.
    destruct (arrayFromSet (matchAll mediaRegex t)); simpl; [discriminate|].
    intros [= <- _]. exact Hshape.
Qed.

(** X8: the relay extraction rejects only when the post address cannot be
    encoded (a lone surrogate).  Otherwise it resolves to a list, empty
    when no relay gave a match, and each address of the list reads: the
    scheme [http] or [https], then [://pbs.twimg.com/media/], then an
    identifier that starts with a letter, digit, underscore or hyphen and
    holds no quote, closing parenthesis, white space or question mark,
    then [?format=jpg&name=large]. *)
Theorem proxy_results_are_media_addresses (env : Env) (tweetUrl : jsstring)
    (s : Sys) :
  match outcome (fetchTweetImagesViaProxy env tweetUrl) s with
  | Ok imgs => Forall largeMediaAddress imgs
  | Thrown => encodeURIComponent tweetUrl = None
  end.
Proof.
  unfold fetchTweetImagesViaProxy, proxies, outcome.
  destruct (encodeURIComponent tweetUrl) as [enc|] eqn:Henc;
    [|reflexivity].
  unfold orThrow, bind, ret. cbv beta iota.
  match goal with
  | |- context [relayLoop env ?ps s] =>
      destruct (relayLoop_run env ps s)
        as [b [s1 [n [Hrun [_ [_ [_ [_ Hb]]]]]]]]
  end.
  rewrite Hrun. simpl.
  destruct b as [|u b]; [constructor|].
  destruct Hb as [_ [p [sp [_ [_ Hatt]]]]]; [discriminate|].
  by apply relayAttempt_shape in Hatt.
Qed.

(** ** The table of known posts *)

Lemma reSearch_found (r : list reAtom) (s m : jsstring) :
  reSearch r s = Some m ->
  exists pre s' n, s = pre ++ s' /\ reMatch r s' = Some n /\ m = take n s'.
Proof.
  induction s as [|x s IH]; simpl.
  - destruct (reMatch r []) as [n|] eqn:E; [|discriminate].
    intros [= <-]. by exists [], [], n.
  - destruct (reMatch r (x :: s)) as [n|] eqn:E.
    + intros [= <-]. by exists [], (x :: s), n.
    + intros H. destruct (IH H) as [pre [s' [n [-> [Hn ->]]]]].
      by exists (x :: pre), s', n.
Qed.

Lemma startsWith_app (p s : jsstring) : startsWith p (p ++ s) = true.
Proof.
  induction p as [|c p IH]; simpl; [reflexivity|].
  by rewrite N.eqb_refl, IH.
Qed.

Lemma includes_app (p a b : jsstring) : includes p (a ++ p ++ b) = true.
Proof.
  induction a as [|x a IH].
  - pose proof (startsWith_app p b) as H. simpl app.
    destruct (p ++ b); simpl; by rewrite H.
  - simpl. rewrite IH. apply orb_true_r.
Qed.

(** X9: the table of known posts answers with the empty list unless the
    address contains [/status/1973385010481606663]; when its answer is
    not empty it is the list the table holds for that identifier. *)
Theorem known_images_only_for_known_id (tweetUrl : jsstring) :
  getKnownTweetImages tweetUrl = []
  \/ (includes (js "/status/1973385010481606663") tweetUrl = true
      /\ (js "1973385010481606663", getKnownTweetImages tweetUrl)
         ∈ knownImages).
Proof.
  unfold getKnownTweetImages.
  destruct (reSearch statusRegex tweetUrl) as [m|] eqn:E; [|by left].
  apply reSearch_found in E as [pre [s' [n [-> [Hn ->]]]]].
  unfold statusRegex, lits in Hn.
  apply reMatch_lits in Hn as [s2 [n2 [-> [_ ->]]]].
  rewrite take_app_add' by reflexivity.
  rewrite drop_app_length'; [|reflexivity].
  unfold knownImages at 1. simpl list_find.
  destruct (decide (js "1973385010481606663" = take n2 s2)) as [Heq|Hne];
    simpl; [|by left].
  right. split.
  - rewrite <- (take_drop n2 s2), <- Heq.
    change (js "/status/1973385010481606663")
      with (js "/status/" ++ js "1973385010481606663").
    change (includes (js "/status/" ++ js "1973385010481606663")
              (pre ++ (js "/status/" ++ js "1973385010481606663")
               ++ drop n2 s2) = true).
    apply (includes_app (js "/status/" ++ js "1973385010481606663") pre).
  - unfold knownImages. apply list_elem_of_here.
Qed.

(** ** Loading a post with no address *)

Lemma trim_blank (t : jsstring) :
  Forall (fun c => isWhiteSpace c = true) t -> trim t = [].
Proof.
  intros H. unfold trim, trimEnd.
  assert (trimStart t = []) as ->; [|reflexivity].
  induction H as [|c t Hc _ IH]; simpl; [reflexivity|]. by rewrite Hc.
Qed.

(** X10: [handleTweetFetch] does nothing at all when no day is loaded, or
    when the loaded record has no post address, or one made of white
    space only: the state is left as it was, nothing is requested and
    nothing is logged. *)
Theorem tweet_fetch_without_address (env : Env) (s : Sys) :
  match dayState s with
  | None => True
  | Some d =>
      match obj_get (js "tweetUrl") d with
      | None | Some JNull => True
      | Some (JStr t) => Forall (fun c => isWhiteSpace c = true) t
      | Some _ => False
      end
  end ->
  handleTweetFetch env s = (Ok tt, s).
Proof.
  unfold handleTweetFetch. mstep.
  destruct (dayState s) as [d|]; [|reflexivity].
  destruct (obj_get (js "tweetUrl") d) as [[| | |t| | |]|];
    try reflexivity; try contradiction.
  intros H. by rewrite (trim_blank t H).
Qed.

(** A loaded day whose post address is two spaces. *)
Definition blankAddressDay : Sys :=
  set_dayState
    (Some (spread (defaultDay 2025 7) [(js "tweetUrl", JStr (js "  "))]))
    day7.

Lemma tweet_fetch_without_address_witness :
  handleTweetFetch offline blankAddressDay = (Ok tt, blankAddressDay).
Proof.
  apply (tweet_fetch_without_address offline blankAddressDay).
  vm_compute. repeat constructor.
Defined.

(** ** A put into the day store *)

Lemma daysPut_run (v : json) (s : Sys) :
  daysPut v s
  = match v with
    | JObj o =>
        match keyOf o with
        | Some k =>
            (Ok tt,
             set_days (<[k := o]> (days s))
               (set_log (log s ++ [EvDaysPut v]) s))
        | None => (Thrown, set_log (log s ++ [EvDaysPut v]) s)
        end
    | _ => (Thrown, set_log (log s ++ [EvDaysPut v]) s)
    end.
Proof.
  unfold daysPut. mrun. destruct v as [|b|n|str|l|o|x]; try reflexivity.
  by destruct (keyOf o).
Qed.

(** ** What the resolver and the downloads leave alone *)

(** A view of the state that the caches, the clock and the log do not
    enter is kept by every helper that works on those only. *)
Section CacheFrame.
Context {X : Type} (view : Sys -> X).
Hypothesis view_log : forall l s, view (set_log l s) = view s.
Hypothesis view_ticks : forall n s, view (set_ticks n s) = view s.
Hypothesis view_images : forall m s, view (set_images m s) = view s.
Hypothesis view_urls : forall m s, view (set_urls m s) = view s.

Definition viewIs (c : X) (s : Sys) : Prop := view s = c.

Lemma viewIs_emit (e : event) (c : X) : preserves (viewIs c) (emit e).
Proof using view_log. intros s Hs. unfold viewIs. simpl. by rewrite view_log. Qed.

Lemma viewIs_DateNow (env : Env) (c : X) : preserves (viewIs c) (DateNow env).
Proof using view_ticks.
  intros s Hs. unfold viewIs. simpl. by rewrite view_ticks.
Qed.

Lemma viewIs_objectURL (env : Env) (b : Blob) (c : X) :
  preserves (viewIs c) (objectURL env b).
Proof using view_ticks.
  intros s Hs. unfold viewIs. simpl. by rewrite view_ticks.
Qed.

Lemma viewIs_doFetch (env : Env) (url : jsstring) (c : X) :
  preserves (viewIs c) (doFetch env url).
Proof using view_log view_ticks.
  unfold doFetch. apply preserves_bind; [apply viewIs_emit|intros _].
  intros s Hs. unfold viewIs.
  destruct (fetch env (ticks s) url); simpl; by rewrite view_ticks.
Qed.

Lemma viewIs_saveImageToCache (env : Env) (url : jsstring) (b : Blob)
    (c : X) :
  preserves (viewIs c) (saveImageToCache env url b).
Proof using view_log view_ticks view_images.
  unfold saveImageToCache.
  apply preserves_bind; [apply viewIs_DateNow|intros now].
  apply preserves_bind; [apply viewIs_emit|intros _].
  intros s Hs. unfold viewIs. simpl. by rewrite view_images.
Qed.

Lemma viewIs_getImageFromCache (env : Env) (url : jsstring) (c : X) :
  preserves (viewIs c) (getImageFromCache env url).
Proof using view_log view_ticks.
  unfold getImageFromCache.
  apply preserves_bind; [apply viewIs_emit|intros _].
  apply preserves_bind; [apply preserves_gets|intros [e|]].
  - apply preserves_bind; [apply viewIs_DateNow|intros now].
    apply preserves_ret.
  - apply preserves_ret.
Qed.

Lemma viewIs_downloadAndCacheImage (env : Env) (url : jsstring) (c : X) :
  preserves (viewIs c) (downloadAndCacheImage env url).
Proof using view_log view_ticks view_images.
  unfold downloadAndCacheImage.
  apply preserves_tryCatch; [|apply preserves_ret].
  apply preserves_bind; [apply viewIs_getImageFromCache|intros [b|]].
  - apply viewIs_objectURL.
  - apply preserves_bind; [apply viewIs_doFetch|intros res].
    destruct (res_ok res); [|apply preserves_throw].
    apply preserves_bind; [apply preserves_orThrow|intros blob].
    apply preserves_bind; [apply viewIs_saveImageToCache|intros _].
    apply viewIs_objectURL.
Qed.

Lemma viewIs_processImages (env : Env) (imgs : list jsstring) (c : X) :
  preserves (viewIs c) (processImages env imgs).
Proof using view_log view_ticks view_images.
  unfold processImages. apply preserves_mapM. intros u.
  apply preserves_tryCatch; [|apply preserves_ret].
  apply viewIs_downloadAndCacheImage.
Qed.

Lemma viewIs_getTweetUrlsFromCache (env : Env) (url : jsstring) (c : X) :
  preserves (viewIs c) (getTweetUrlsFromCache env url).
Proof using view_log view_ticks.
  unfold getTweetUrlsFromCache.
  apply preserves_bind; [apply viewIs_emit|intros _].
  apply preserves_bind; [apply preserves_gets|intros [e|]].
  - apply preserves_bind; [apply viewIs_DateNow|intros now].
    apply preserves_ret.
  - apply preserves_ret.
Qed.

Lemma viewIs_saveTweetUrlsToCache (env : Env) (url : jsstring)
    (imgs : list jsstring) (c : X) :
  preserves (viewIs c) (saveTweetUrlsToCache env url imgs).
Proof using view_log view_ticks view_urls.
  unfold saveTweetUrlsToCache.
  apply preserves_bind; [apply viewIs_DateNow|intros now].
  apply preserves_bind; [apply viewIs_emit|intros _].
  intros s Hs. unfold viewIs. simpl. by rewrite view_urls.
Qed.

Lemma viewIs_relayAttempt (env : Env) (p : jsstring) (c : X) :
  preserves (viewIs c) (relayAttempt env p).
Proof using view_log view_ticks.
  unfold relayAttempt.
  apply preserves_tryCatch; [|apply preserves_ret].
  apply preserves_bind; [apply viewIs_doFetch|intros res].
  destruct (negb (res_ok res)); [apply preserves_ret|].
  apply preserves_bind.
  - destruct (includes (js "allorigins.win") p).
    + apply preserves_bind; [apply preserves_orThrow|intros data].
      apply preserves_ret.
    + apply preserves_bind; [apply preserves_orThrow|intros t].
      apply preserves_ret.
  - intros [[| | |t| | |]|]; try apply preserves_throw.
    destruct (0 <? length _)%nat; apply preserves_ret.
Qed.

Lemma viewIs_relayLoop (env : Env) (ps : list jsstring) (c : X) :
  preserves (viewIs c) (relayLoop env ps).
Proof using view_log view_ticks.
  induction ps as [|p ps IH]; simpl; [apply preserves_ret|].
  apply preserves_bind; [apply viewIs_relayAttempt|].
  intros [imgs|]; [apply preserves_ret|exact IH].
Qed.

Lemma viewIs_oembedImages (env : Env) (url : jsstring) (c : X) :
  preserves (viewIs c) (oembedImages env url).
Proof using view_log view_ticks.
  unfold oembedImages.
  apply preserves_tryCatch; [|apply preserves_ret].
  apply preserves_bind; [apply preserves_orThrow|intros enc].
  apply preserves_bind; [apply viewIs_doFetch|intros res].
  destruct (res_ok res); [|apply preserves_ret].
  apply preserves_bind; [apply preserves_orThrow|intros data].
  apply preserves_ret.
Qed.

Lemma viewIs_resolveTweetImages (env : Env) (url : jsstring) (c : X) :
  preserves (viewIs c) (resolveTweetImages env url).
Proof using view_log view_ticks view_urls.
  assert (preserves (viewIs c)
            (let! images := oembedImages env url in
             let! images :=
               (match images with
                | [] => fetchTweetImagesViaProxy env url
                | _ => ret images
                end) in
             let! images :=
               (match images with
                | [] =>
                    emit (EvKnownImages url) ;;;
                    ret (getKnownTweetImages url)
                | _ => ret images
                end) in
             (if (0 <? length images)%nat
              then saveTweetUrlsToCache env url images
              else ret tt) ;;;
             ret images)) as Hmiss.
  { apply preserves_bind; [apply viewIs_oembedImages|intros a].
    apply preserves_bind.
    { destruct a; [|apply preserves_ret]. unfold fetchTweetImagesViaProxy.
      apply preserves_bind; [apply preserves_orThrow|intros ps].
      apply viewIs_relayLoop. }
    intros b. apply preserves_bind.
    { destruct b; [|apply preserves_ret].
      apply preserves_bind; [apply viewIs_emit|intros _].
      apply preserves_ret. }
    intros i. apply preserves_bind; [|intros _; apply preserves_ret].
    destruct (0 <? length i)%nat; [|apply preserves_ret].
    apply viewIs_saveTweetUrlsToCache. }
  unfold resolveTweetImages.
  apply preserves_bind; [apply viewIs_getTweetUrlsFromCache|].
  intros [[|u us]|]; [exact Hmiss|apply preserves_ret|exact Hmiss].
Qed.

End CacheFrame.

(** The part of the state that describes the days: the year, the selected
    day, the loaded record and the day store. *)
Definition dayFields (s : Sys) : Z * Z * option obj * gmap json obj :=
  (year s, selectedDay s, dayState s, days s).

(** The same with the gallery and the ref of the completion rule. *)
Definition pageFields (s : Sys)
  : Z * Z * option obj * gmap json obj * list jsstring * nat :=
  (year s, selectedDay s, dayState s, days s, oembedImgs s,
   prevImgCountRef s).

Lemma pageFields_resolveTweetImages (env : Env) (url : jsstring) (s : Sys) :
  pageFields (exec (resolveTweetImages env url) s) = pageFields s.
Proof.
  by apply (viewIs_resolveTweetImages pageFields
              (fun _ _ => eq_refl) (fun _ _ => eq_refl) (fun _ _ => eq_refl)
              env url (pageFields s) s).
Qed.

Lemma pageFields_processImages (env : Env) (imgs : list jsstring) (s : Sys) :
  pageFields (exec (processImages env imgs) s) = pageFields s.
Proof.
  by apply (viewIs_processImages pageFields
              (fun _ _ => eq_refl) (fun _ _ => eq_refl) (fun _ _ => eq_refl)
              env imgs (pageFields s) s).
Qed.

Lemma pageFields_dayFields (s s' : Sys) :
  pageFields s' = pageFields s -> dayFields s' = dayFields s.
Proof. unfold pageFields, dayFields. by intros [= -> -> -> -> _ _]. Qed.

(** The work of [handleTweetFetch] between its two renders: the
    resolver, the download loop and the display. *)
Lemma dayFields_fetchBody (env : Env) (url : jsstring) (s : Sys) :
  dayFields
    (exec (tryCatch
             (let! images := resolveTweetImages env url in
              showImages env images) (ret tt)) s)
  = dayFields s.
Proof.
  unfold exec, tryCatch, bind.
  pose proof (pageFields_resolveTweetImages env url s) as Hr.
  apply pageFields_dayFields in Hr. unfold exec in Hr.
  destruct (resolveTweetImages env url s) as [[imgs|] s1]; simpl in *;
    [|exact Hr].
  unfold showImages.
  destruct (0 <? length imgs)%nat; [|exact Hr].
  unfold bind, setOembedImgs.
  pose proof (pageFields_processImages env imgs s1) as Hp.
  apply pageFields_dayFields in Hp. unfold exec in Hp.
  destruct (processImages env imgs s1) as [[out|] s2]; simpl in *;
    unfold dayFields in *; simpl; congruence.
Qed.

(** ** Properties of the days that the handlers keep *)

(** A patch that does not redefine the key of a record. *)
Definition noId (partial : obj) : Prop :=
  Forall (fun kv => fst kv <> js "id") partial.

Lemma spread_keyOf (d partial : obj) :
  noId partial -> keyOf (spread d partial) = keyOf d.
Proof.
  unfold spread. intros H. revert d.
  induction H as [|[k v] partial Hk _ IH]; intros d; simpl; [reflexivity|].
  rewrite IH. unfold keyOf. by rewrite obj_get_set_ne.
Qed.

Lemma preserves_rerender {A} (P : Sys -> Prop) (m : M A) :
  preserves P m -> preserves P render -> preserves P (thenRender m).
Proof.
  intros Hm Hr s Hs. unfold thenRender. specialize (Hm s Hs).
  destruct (m s) as [r s']. simpl in *. by apply Hr.
Qed.

Lemma preserves_bind_gets {A B} (P : Sys -> Prop) (f : Sys -> A)
    (k : A -> M B) :
  (forall s, P s -> P (snd (k (f s) s))) -> preserves P (bind (gets f) k).
Proof. intros H s Hs. unfold bind, gets. simpl. by apply H. Qed.

Section DayHandlers.
Context (P : Sys -> Prop) (okRec : obj -> Prop).
Hypothesis Hfields : forall s s', dayFields s' = dayFields s -> P s -> P s'.
Hypothesis HsetState :
  forall s o, okRec o -> P s -> P (set_dayState (Some o) s).
Hypothesis HsetDay : forall o, okRec o -> preserves P (setDay o).
Hypothesis Hstate : forall s d, P s -> dayState s = Some d -> okRec d.
Hypothesis Hspread :
  forall d partial, noId partial -> okRec d -> okRec (spread d partial).

Lemma dayP_modify (f : Sys -> Sys) :
  (forall s, dayFields (f s) = dayFields s) -> preserves P (modify f).
Proof using Hfields. intros Hf s Hs. simpl. by apply (Hfields s). Qed.

Lemma dayP_persist (partial : obj) :
  noId partial -> preserves P (persist partial).
Proof using HsetState HsetDay Hstate Hspread.
  intros Hp. unfold persist. apply preserves_bind_gets. intros s Hs.
  destruct (dayState s) as [d|] eqn:Hd; [|exact Hs].
  assert (okRec (spread d partial)) as Hok by eauto.
  apply preserves_bind; [|intros _; by apply HsetDay|exact Hs].
  intros t Ht. simpl. by apply HsetState.
Qed.

Lemma dayP_render : preserves P render.
Proof using Hfields HsetState HsetDay Hstate Hspread.
  unfold render, autoDoneEffect.
  apply preserves_bind; [apply preserves_gets|intros s0].
  destruct (allImages s0) as [imgs|]; [|apply preserves_ret].
  destruct (length imgs =? prevImgCountRef s0)%nat; [apply preserves_ret|].
  apply preserves_bind; [apply preserves_gets|intros prev].
  apply preserves_bind; [apply preserves_gets|intros st].
  apply preserves_bind; [|intros _; by apply dayP_modify].
  destruct st as [d|]; [|apply preserves_ret].
  destruct (_ && _); [|apply preserves_ret].
  apply preserves_detach, dayP_persist.
  repeat constructor. simpl. vm_compute. discriminate.
Qed.

Lemma dayP_rerender {A} (m : M A) :
  preserves P m -> preserves P (thenRender m).
Proof using Hfields HsetState HsetDay Hstate Hspread.
  intros Hm. apply preserves_rerender; [exact Hm|apply dayP_render].
Qed.

Lemma dayP_handleTweetFetch (env : Env) : preserves P (handleTweetFetch env).
Proof using Hfields HsetState HsetDay Hstate Hspread.
  unfold handleTweetFetch.
  apply preserves_bind; [apply preserves_gets|intros st].
  destruct st as [d|]; [|apply preserves_ret].
  destruct (obj_get (js "tweetUrl") d) as [[| | |t| | |]|];
    try apply preserves_ret; try apply preserves_throw.
  destruct (trim t) as [|c url]; [apply preserves_ret|].
  apply dayP_rerender. apply preserves_bind; [|intros _].
  - apply dayP_rerender. by apply dayP_modify.
  - intros s Hs. apply (Hfields s); [|exact Hs].
    apply dayFields_fetchBody.
Qed.

(** The handlers that edit the loaded record. *)
Lemma dayP_toggleDone (checked : bool) : preserves P (toggleDone checked).
Proof using Hfields HsetState HsetDay Hstate Hspread.
  apply dayP_rerender, dayP_persist.
  repeat constructor. simpl. vm_compute. discriminate.
Qed.

Lemma dayP_editTweetUrl (value : jsstring) :
  preserves P (editTweetUrl value).
Proof using Hfields HsetState HsetDay Hstate Hspread.
  apply dayP_rerender, preserves_detach, dayP_persist.
  repeat constructor. simpl. vm_compute. discriminate.
Qed.

Lemma dayP_handleManualUrlsSave (input : jsstring) :
  preserves P (handleManualUrlsSave input).
Proof using Hfields HsetState HsetDay Hstate Hspread.
  apply dayP_rerender, preserves_detach, dayP_persist.
  repeat constructor. simpl. vm_compute. discriminate.
Qed.

Lemma dayP_clearManualUrls : preserves P clearManualUrls.
Proof using Hfields HsetState HsetDay Hstate Hspread.
  apply dayP_rerender, preserves_detach, dayP_persist.
  repeat constructor. simpl. vm_compute. discriminate.
Qed.

Lemma dayP_handleExport : preserves P handleExport.
Proof using Type.
  unfold handleExport, getAllDays.
  apply preserves_bind; [apply preserves_gets|intros all].
  apply preserves_bind; [apply preserves_gets|intros y].
  apply preserves_ret.
Qed.

Lemma dayP_handleClearCache (env : Env) :
  preserves P (handleClearCache env).
Proof using Hfields HsetState HsetDay Hstate Hspread.
  unfold handleClearCache.
  apply preserves_bind; [intros s Hs; by apply (Hfields s)|intros yes].
  destruct yes; [|apply preserves_ret].
  apply dayP_rerender.
  apply preserves_bind; [by apply dayP_modify|intros _].
  apply preserves_bind; [by apply dayP_modify|intros _].
  apply preserves_bind; [by apply dayP_modify|intros _].
  apply preserves_bind_gets. intros s Hs.
  destruct (dayState s) as [d|] eqn:Hd; [|exact Hs].
  assert (okRec (spread d [ (js "tweetUrl", JStr []);
                            (js "manualImageUrls", JArr []);
                            (js "done", JBool false) ])) as Hok.
  { apply Hspread; [|by eapply Hstate].
    repeat constructor; simpl; vm_compute; discriminate. }
  apply preserves_bind; [|intros _|exact Hs].
  - apply dayP_rerender. by apply HsetDay.
  - intros t Ht. simpl. by apply HsetState.
Qed.

(** The actions that neither select a day nor import a file. *)
Definition stays (a : action) : Prop :=
  match a with
  | Mount _ _ | SelectDay _ | Import _ => False
  | _ => True
  end.

Lemma dayP_step (env : Env) (a : action) :
  stays a -> preserves P (step env a).
Proof using Hfields HsetState HsetDay Hstate Hspread.
  destruct a as [y d|d|c|v|i| | | |p|]; simpl; try contradiction; intros _.
  - apply dayP_toggleDone.
  - apply dayP_editTweetUrl.
  - apply dayP_handleManualUrlsSave.
  - apply dayP_clearManualUrls.
  - apply dayP_handleTweetFetch.
  - apply preserves_bind; [apply dayP_handleExport|intros _].
    apply preserves_ret.
  - apply dayP_handleClearCache.
Qed.

End DayHandlers.

(** ** The loaded record carries the key of the selected day *)

(** The key of the record of the selected day. *)
Definition selectedKey (s : Sys) : json :=
  JStr (idFor (year s) (selectedDay s)).

(** Every stored record sits under its own key, and the loaded record
    carries the key of the selected day. *)
Definition dayInv (s : Sys) : Prop :=
  daysWf (days s)
  /\ forall d, dayState s = Some d -> keyOf d = Some (selectedKey s).

(** The same for a fixed key [K], together with the records of the other
    keys being those of the store [m0]. *)
Definition dayFrame (m0 : gmap json obj) (K : json) (s : Sys) : Prop :=
  daysWf (days s)
  /\ selectedKey s = K
  /\ (forall d, dayState s = Some d -> keyOf d = Some K)
  /\ forall k, k <> K -> days s !! k = m0 !! k.

Lemma dayFrame_dayInv (m0 : gmap json obj) (K : json) (s : Sys) :
  dayFrame m0 K s -> dayInv s.
Proof. intros (Hwf&HK&Hd&_). split; [exact Hwf|]. by rewrite HK. Qed.

Lemma dayInv_dayFrame (s : Sys) :
  dayInv s -> dayFrame (days s) (selectedKey s) s.
Proof. intros [Hwf Hd]. by repeat split. Qed.

Section DayFrame.
Context (m0 : gmap json obj) (K : json).

Lemma dayFrame_fields (s s' : Sys) :
  dayFields s' = dayFields s -> dayFrame m0 K s -> dayFrame m0 K s'.
Proof.
  unfold dayFields, dayFrame, selectedKey. intros [= Hy Hsel Hst Hdays].
  by rewrite Hy, Hsel, Hst, Hdays.
Qed.

Lemma dayFrame_setState (s : Sys) (o : obj) :
  keyOf o = Some K -> dayFrame m0 K s ->
  dayFrame m0 K (set_dayState (Some o) s).
Proof.
  intros Ho (Hwf&HK&Hd&Hm). repeat split; try done.
  simpl. by intros d [= <-].
Qed.

Lemma dayFrame_setDay (o : obj) :
  keyOf o = Some K -> preserves (dayFrame m0 K) (setDay o).
Proof.
  intros Ho s (Hwf&HK&Hd&Hm). unfold setDay. rewrite daysPut_run, Ho.
  simpl. repeat split; try done; simpl.
  - by apply map_Forall_insert_2.
  - intros k Hk. rewrite lookup_insert_ne by done. by apply Hm.
Qed.

Lemma dayFrame_state (s : Sys) (d : obj) :
  dayFrame m0 K s -> dayState s = Some d -> keyOf d = Some K.
Proof. intros (_&_&Hd&_). apply Hd. Qed.

Lemma dayFrame_spread (d partial : obj) :
  noId partial -> keyOf d = Some K -> keyOf (spread d partial) = Some K.
Proof. intros Hp Hd. by rewrite spread_keyOf. Qed.

End DayFrame.

Lemma keyOf_defaultDay (y d : Z) :
  keyOf (defaultDay y d) = Some (JStr (idFor y d)).
Proof.
  reflexivity.
Qed.

(** The state in which the day-load effect leaves the page before the
    render that follows it. *)
Definition loaded (s : Sys) : Sys :=
  set_oembedImgs []
    (set_dayState
       (Some (default (defaultDay (year s) (selectedDay s))
                (days s !! selectedKey s))) s).

Lemma loadDay_run (s : Sys) : exec loadDay s = exec render (loaded s).
Proof. reflexivity. Qed.

Lemma loaded_dayFrame (s : Sys) :
  daysWf (days s) -> dayFrame (days s) (selectedKey s) (loaded s).
Proof.
  intros Hwf. repeat split; try done. simpl. intros d [= <-].
  destruct (days s !! selectedKey s) as [o|] eqn:Ho; simpl.
  - by apply Hwf.
  - apply keyOf_defaultDay.
Qed.

(** A load displays a record of the selected day; the only record it may
    write is that one. *)
Lemma loadDay_dayFrame (s : Sys) :
  daysWf (days s) -> dayFrame (days s) (selectedKey s) (exec loadDay s).
Proof.
  intros Hwf. rewrite loadDay_run.
  apply (dayP_render (dayFrame (days s) (selectedKey s))
           (fun o => keyOf o = Some (selectedKey s))).
  - apply dayFrame_fields.
  - apply dayFrame_setState.
  - apply dayFrame_setDay.
  - apply dayFrame_state.
  - apply dayFrame_spread.
  - by apply loaded_dayFrame.
Qed.

Lemma mount_dayFrame (y d : Z) (s : Sys) :
  daysWf (days s) ->
  dayFrame (days s) (JStr (idFor y d)) (exec (mount y d) s).
Proof.
  intros Hwf. unfold mount. rewrite exec_bind.
  unfold modify at 1. cbv beta iota. rewrite exec_bind.
  unfold autoDoneEffect. mstep.
  match goal with
  | |- dayFrame _ _ (exec loadDay ?t) =>
      apply (loadDay_dayFrame t)
  end. exact Hwf.
Qed.

Lemma selectDay_dayFrame (d : Z) (s : Sys) :
  dayInv s ->
  dayFrame (days s) (JStr (idFor (year s) d)) (exec (selectDay d) s).
Proof.
  intros Hinv. unfold selectDay. rewrite exec_bind.
  unfold gets at 1. cbv beta iota.
  destruct (decide (selectedDay s = d)) as [<-|Hne].
  - by apply dayInv_dayFrame.
  - rewrite exec_bind. unfold modify at 1. cbv beta iota.
    apply (loadDay_dayFrame (set_selectedDay d s)). apply Hinv.
Qed.

(** One action, other than an import, from a state in which the loaded
    record carries the key of the selected day. *)
Lemma step_dayFrame (env : Env) (a : action) (s : Sys) :
  (forall p, a <> Import p) ->
  dayInv s ->
  dayFrame (days s) (selectedKey (exec (step env a) s))
    (exec (step env a) s).
Proof.
  intros Hnoimp Hinv.
  assert (forall K (t : Sys), dayFrame (days s) K t ->
                              dayFrame (days s) (selectedKey t) t) as Hself.
  { intros K t H. destruct H as (H1&H2&H3&H4). rewrite H2. by repeat split. }
  pose proof (fun a Ha =>
                dayP_step (dayFrame (days s) (selectedKey s))
                  (fun o => keyOf o = Some (selectedKey s))
                  (dayFrame_fields _ _) (dayFrame_setState _ _)
                  (dayFrame_setDay _ _) (dayFrame_state _ _)
                  (dayFrame_spread _) env a Ha s (dayInv_dayFrame s Hinv))
    as Hstep.
  destruct a as [y d|d|c|v|i| | | |p|];
    try (apply (Hself (selectedKey s)); apply Hstep; exact I).
  - eapply Hself. apply mount_dayFrame, Hinv.
  - eapply Hself. by apply selectDay_dayFrame.
  - by destruct (Hnoimp p).
Qed.

Lemma dayInv_daysPut (v : json) : preserves dayInv (daysPut v).
Proof.
  intros s [Hwf Hd]. rewrite daysPut_run.
  destruct v as [|b|n|str|l|o|x]; try (by split).
  destruct (keyOf o) as [k|] eqn:Hk; [|by split].
  split; [|exact Hd]. simpl. by apply map_Forall_insert_2.
Qed.

Lemma dayInv_importOnload (parsed : option json) :
  preserves dayInv (importOnload parsed).
Proof.
  unfold importOnload.
  apply preserves_tryCatch; [|intros s Hs; exact Hs].
  apply preserves_bind; [apply preserves_orThrow|intros doc].
  apply preserves_bind.
  - destruct (match prop (js "data") doc with
              | Some v => if truthy v then v else JArr []
              | None => JArr []
              end); try apply preserves_throw.
    apply preserves_forEach, dayInv_daysPut.
  - intros _ s [Hwf Hd]. unfold getDay. mrun.
    split; [exact Hwf|]. intros d Hd2. exact (Hwf _ _ Hd2).
Qed.

Lemma dayInv_step (env : Env) (a : action) : preserves dayInv (step env a).
Proof.
  intros s Hinv.
  assert ((exists p, a = Import p) \/ forall p, a <> Import p)
    as [[p ->]|Hno] by (destruct a; eauto; right; discriminate).
  - simpl step. unfold handleImport.
    apply (preserves_rerender dayInv (importOnload p)); [| |exact Hinv].
    + apply dayInv_importOnload.
    + intros t Ht. apply (dayFrame_dayInv (days t) (selectedKey t)).
      apply (dayP_render (dayFrame (days t) (selectedKey t))
               (fun o => keyOf o = Some (selectedKey t))).
      * apply dayFrame_fields.
      * apply dayFrame_setState.
      * apply dayFrame_setDay.
      * apply dayFrame_state.
      * apply dayFrame_spread.
      * by apply dayInv_dayFrame.
  - eapply dayFrame_dayInv. by apply step_dayFrame.
Qed.

Lemma day7saved_dayInv : dayInv day7saved.
Proof.
  split.
  - apply (bool_decide_unpack (daysWf _)). vm_compute. exact I.
  - intros d Hd. vm_compute in Hd. injection Hd as <-. vm_compute.
    reflexivity.
Qed.

(** X12: take a state between two actions in which each record of the
    day store sits under the key its [id] gives and the record on
    display, if there is one, has the key [idFor(year, selectedDay)] of
    the selected day.  Whatever action comes next and whatever the
    outside world answers, the state that action leaves when it has run
    to its end with no other action in between is again such a state.
    (While a handler is still waiting nothing is said: a day switch that
    has set the selected day and not yet loaded its record is not such a
    state.) *)
Theorem selected_key_kept_by_each_action (env : Env) (a : action) (s : Sys) :
  dayInv s -> dayInv (exec (step env a) s).
Proof. apply dayInv_step. Qed.

Lemma selected_key_kept_by_each_action_witness :
  dayInv day7saved /\ dayInv (exec (step offline (SelectDay 8)) day7saved).
Proof.
  split; [exact day7saved_dayInv|].
  apply (selected_key_kept_by_each_action offline (SelectDay 8) day7saved).
  exact day7saved_dayInv.
Defined.

(** X13: from a state in which each stored record sits under its own key
    and the record on display has the key of the selected day, an action
    other than an import, run to its end with no other action in
    between, changes no record of the day store but the one of the day
    that is selected when the action is over. *)
Theorem actions_write_selected_day_only (env : Env) (a : action) (s : Sys)
    (k : json) :
  dayInv s ->
  (forall p, a <> Import p) ->
  let s' := exec (step env a) s in
  k <> JStr (idFor (year s') (selectedDay s')) ->
  days s' !! k = days s !! k.
Proof.
  intros Hinv Hnoimp s' Hk.
  destruct (step_dayFrame env a s Hnoimp Hinv) as (_&_&_&Hother).
  by apply Hother.
Qed.

Lemma actions_write_selected_day_only_witness :
  days (exec (step offline (SelectDay 8)) day7saved) !! JStr (js "2025-10-7")
  = days day7saved !! JStr (js "2025-10-7").
Proof.
  apply (actions_write_selected_day_only offline (SelectDay 8) day7saved
           (JStr (js "2025-10-7")) day7saved_dayInv).
  - discriminate.
  - vm_compute. discriminate.
Defined.

(** ** No action deletes a day *)

Definition keeps (k : json) (s : Sys) : Prop := is_Some (days s !! k).

Lemma keeps_fields (k : json) (s s' : Sys) :
  dayFields s' = dayFields s -> keeps k s -> keeps k s'.
Proof. unfold dayFields, keeps. intros [= _ _ _ ->]. done. Qed.

Lemma keeps_daysPut (k : json) (v : json) : preserves (keeps k) (daysPut v).
Proof.
  intros s Hs. rewrite daysPut_run.
  destruct v as [|b|n|str|l|o|x]; try exact Hs.
  destruct (keyOf o) as [k'|]; [|exact Hs].
  unfold keeps. simpl. apply lookup_insert_is_Some'. by right.
Qed.

Lemma keeps_render (k : json) : preserves (keeps k) render.
Proof.
  apply (dayP_render (keeps k) (fun _ => True)); try done.
  - apply keeps_fields.
  - intros o _. apply keeps_daysPut.
Qed.

Lemma keeps_step (env : Env) (a : action) (k : json) :
  preserves (keeps k) (step env a).
Proof.
  destruct a as [y d|d|c|v|i| | | |p|];
    try (apply (dayP_step (keeps k) (fun _ => True));
         [apply keeps_fields|done|intros o _; apply keeps_daysPut
         |done|done|exact I]).
  - intros s Hs. change (keeps k (exec (mount y d) s)).
    unfold mount. rewrite exec_bind.
    unfold modify at 1. cbv beta iota. rewrite exec_bind.
    unfold autoDoneEffect. mstep. rewrite loadDay_run.
    by apply keeps_render.
  - intros s Hs. simpl step. unfold selectDay.
    change (keeps k (exec (let! cur := gets selectedDay in
                           if decide (cur = d) then ret tt
                           else modify (set_selectedDay d) ;;; loadDay) s)).
    rewrite exec_bind. unfold gets at 1. cbv beta iota.
    destruct (decide (selectedDay s = d)); [exact Hs|].
    rewrite exec_bind. unfold modify at 1. cbv beta iota.
    rewrite loadDay_run. by apply keeps_render.
  - simpl step. unfold handleImport.
    apply preserves_rerender; [|apply keeps_render].
    unfold importOnload.
    apply preserves_tryCatch; [|intros s Hs; exact Hs].
    apply preserves_bind; [apply preserves_orThrow|intros doc].
    apply preserves_bind.
    + destruct (match prop (js "data") doc with
                | Some v => if truthy v then v else JArr []
                | None => JArr []
                end); try apply preserves_throw.
      apply preserves_forEach, keeps_daysPut.
    + intros _ s Hs. exact Hs.
Qed.

(** X14: no action ever deletes a record of the day store: a key that
    holds a record before an action, in any state and whatever the
    outside world answers, holds one after it. *)
Theorem no_action_deletes_a_day (env : Env) (a : action) (s : Sys)
    (k : json) :
  is_Some (days s !! k) -> is_Some (days (exec (step env a) s) !! k).
Proof. apply keeps_step. Qed.

Lemma no_action_deletes_a_day_witness :
  is_Some (days (exec (step offline ClearCache) day7saved)
           !! JStr (js "2025-10-7")).
Proof.
  apply (no_action_deletes_a_day offline ClearCache day7saved).
  vm_compute. eauto.
Defined.

(** ** Edits of the loaded record are saved *)

(** The patch an editing action hands to [persist]. *)
Definition editPatch (a : action) : option obj :=
  match a with
  | ToggleDone checked => Some [(js "done", JBool checked)]
  | EditTweetUrl value => Some [(js "tweetUrl", JStr value)]
  | ManualUrlsSave input =>
      Some [(js "manualImageUrls", JArr (map JStr (parseManualUrls input)))]
  | ManualUrlsClear => Some [(js "manualImageUrls", JArr [])]
  | _ => None
  end.

Lemma editPatch_noId (a : action) (p : obj) :
  editPatch a = Some p -> noId p.
Proof.
  destruct a; simpl; intros [= <-]; repeat constructor; simpl;
    vm_compute; discriminate.
Qed.

Lemma persist_run (partial d : obj) (K : json) (s : Sys) :
  dayState s = Some d ->
  keyOf (spread d partial) = Some K ->
  persist partial s
  = (Ok tt,
     set_days (<[K := spread d partial]> (days s))
       (set_log (log s ++ [EvDaysPut (JObj (spread d partial))])
          (set_dayState (Some (spread d partial)) s))).
Proof.
  intros Hd Hk. unfold persist, setDay. unfold bind at 1, gets at 1.
  cbv beta iota. rewrite Hd. unfold bind, modify. cbv beta iota.
  rewrite daysPut_run, Hk. reflexivity.
Qed.

(** A render leaves the day fields as they are or, when the rule fires,
    stores and displays the loaded record marked as done. *)
Lemma render_cases (t : Sys) (n : obj) (K : json) :
  dayState t = Some n ->
  keyOf n = Some K ->
  dayFields (exec render t) = dayFields t
  \/ dayFields (exec render t)
     = (year t, selectedDay t, Some (markDone n),
        <[K := markDone n]> (days t)).
Proof.
  intros Hn HK.
  assert (keyOf (spread n [(js "done", JBool true)]) = Some K) as HK'.
  { rewrite spread_keyOf; [exact HK|].
    repeat constructor; simpl; vm_compute; discriminate. }
  unfold render, autoDoneEffect, persist, setDay, daysPut, dayFields,
    markDone.
  mrun.
  destruct (allImages t) as [imgs|]; [|by left].
  destruct (length imgs =? prevImgCountRef t)%nat; [by left|]. simpl.
  rewrite Hn.
  destruct ((prevImgCountRef t =? 0)%nat && (0 <? length imgs)%nat
            && negb (truthy_opt (obj_get (js "done") n)));
    [|left; simpl; by rewrite ?Hn].
  simpl. rewrite Hn. simpl.
  rewrite HK'. simpl. by right.
Qed.

(** X15: with a record on display whose [id] is a valid key [K], each
    of the four editing actions (the done box, the post address, saving
    and emptying the manual list), run to its end with no other action
    in between, completes, and what it leaves on display is what the
    store then holds under [K]: the displayed record with the patch of
    the action applied, marked as done in addition if the rule fired in
    the render that follows.  The year and the selected day stay the
    same and no record under another key changes.  The record is stored
    under its own [id], whichever day is selected. *)
Theorem edits_are_saved (env : Env) (a : action) (s : Sys) (d p : obj)
    (K : json) :
  dayState s = Some d ->
  keyOf d = Some K ->
  editPatch a = Some p ->
  let s' := exec (step env a) s in
  outcome (step env a) s = Ok tt
  /\ exists d',
       (d' = spread d p \/ d' = markDone (spread d p))
       /\ dayState s' = Some d'
       /\ days s' !! K = Some d'
       /\ year s' = year s /\ selectedDay s' = selectedDay s
       /\ forall k, k <> K -> days s' !! k = days s !! k.
Proof.
  intros Hd Hkey Hp s'.
  assert (keyOf (spread d p) = Some K) as HK.
  { rewrite spread_keyOf by (by eapply editPatch_noId). exact Hkey. }
  pose proof (persist_run p d K s Hd HK) as Hrun.
  set (t := set_days (<[K := spread d p]> (days s))
              (set_log (log s ++ [EvDaysPut (JObj (spread d p))])
                 (set_dayState (Some (spread d p)) s))) in *.
  assert (outcome (step env a) s = Ok tt /\ s' = exec render t) as [Hout ->].
  { subst s'. destruct a; simpl in Hp; try discriminate;
      injection Hp as <-; simpl step;
      unfold toggleDone, editTweetUrl, handleManualUrlsSave,
        clearManualUrls, outcome, exec, thenRender, detach, tryCatch;
      rewrite Hrun; by split. }
  split; [exact Hout|].
  destruct (render_cases t (spread d p) K eq_refl HK) as [Hf|Hf];
    unfold dayFields in Hf; injection Hf as Hy Hsel Hst Hdays.
  - exists (spread d p). split; [by left|]. split; [exact Hst|].
    rewrite Hdays, Hy, Hsel. simpl.
    split; [by rewrite lookup_insert_eq|]. split; [reflexivity|].
    split; [reflexivity|]. intros k Hk. by rewrite lookup_insert_ne.
  - exists (markDone (spread d p)). split; [by right|]. split; [exact Hst|].
    rewrite Hdays, Hy, Hsel. simpl.
    split; [by rewrite lookup_insert_eq|]. split; [reflexivity|].
    split; [reflexivity|]. intros k Hk. by rewrite !lookup_insert_ne.
Qed.

Lemma edits_are_saved_witness :
  outcome (step offline (ToggleDone false)) day7saved = Ok tt.
Proof.
  destruct (dayState day7saved) as [d|] eqn:Hd;
    [|vm_compute in Hd; discriminate].
  assert (keyOf d = Some (JStr (js "2025-10-7"))) as Hk.
  { vm_compute in Hd. injection Hd as <-. vm_compute. reflexivity. }
  by destruct (edits_are_saved offline (ToggleDone false) day7saved d
                 [(js "done", JBool false)] (JStr (js "2025-10-7"))
                 Hd Hk eq_refl)
    as [Hout _].
Defined.

(** ** Requests are made by the post loader only *)

(** The addresses requested so far, in order. *)
Definition requests (s : Sys) : list jsstring :=
  omap (fun e => match e with EvFetch u => Some u | _ => None end) (log s).

Definition requestsAre (l : list jsstring) (s : Sys) : Prop :=
  requests s = l.

Lemma requests_emit (e : event) (l : list jsstring) :
  match e with EvFetch _ => False | _ => True end ->
  preserves (requestsAre l) (emit e).
Proof.
  intros He s Hs. unfold requestsAre, requests in *. simpl.
  rewrite omap_app, Hs. destruct e; simpl; try apply app_nil_r.
  contradiction.
Qed.

#[local] Hint Extern 1 (preserves (requestsAre _) (emit _)) =>
  (apply requests_emit; exact I) : pres.
#[local] Hint Extern 1 (preserves (requestsAre _) (modify _)) =>
  (intros ? ?; assumption) : pres.

Lemma requests_daysPut (v : json) (l : list jsstring) :
  preserves (requestsAre l) (daysPut v).
Proof. unfold daysPut. auto 10 with pres. Qed.
#[local] Hint Resolve requests_daysPut : pres.

Lemma requests_persist (partial : obj) (l : list jsstring) :
  preserves (requestsAre l) (persist partial).
Proof. unfold persist, setDay. auto 10 with pres. Qed.
#[local] Hint Resolve requests_persist : pres.

Lemma requests_render (l : list jsstring) : preserves (requestsAre l) render.
Proof. unfold render, autoDoneEffect. auto 10 with pres. Qed.

Lemma requests_rerender {A} (m : M A) (l : list jsstring) :
  preserves (requestsAre l) m -> preserves (requestsAre l) (thenRender m).
Proof. intros Hm. apply preserves_rerender; [exact Hm|apply requests_render]. Qed.
#[local] Hint Resolve requests_rerender : pres.

Lemma requests_loadDay (l : list jsstring) : preserves (requestsAre l) loadDay.
Proof. unfold loadDay, getDay, setOembedImgs. auto 12 with pres. Qed.
#[local] Hint Resolve requests_loadDay : pres.

Lemma requests_step (env : Env) (a : action) (l : list jsstring) :
  a <> TweetFetch -> preserves (requestsAre l) (step env a).
Proof.
  intros Ha. destruct a as [y d|d|c|v|i| | | |p|]; simpl step;
    try contradiction.
  - unfold mount, autoDoneEffect. auto 12 with pres.
  - unfold selectDay.
    apply preserves_bind; [auto with pres|intros cur].
    destruct (decide (cur = d)); auto 10 with pres.
  - unfold toggleDone. auto with pres.
  - unfold editTweetUrl. auto with pres.
  - unfold handleManualUrlsSave. auto with pres.
  - unfold clearManualUrls. auto with pres.
  - unfold handleExport, getAllDays. auto 10 with pres.
  - unfold handleImport, importOnload, getDay.
    apply requests_rerender, preserves_tryCatch; [|auto with pres].
    apply preserves_bind; [auto with pres|intros doc].
    apply preserves_bind; [|auto 10 with pres].
    destruct (match prop (js "data") doc with
              | Some v => if truthy v then v else JArr []
              | None => JArr []
              end); auto with pres.
  - unfold handleClearCache, clearImageCache, clearUrlsCache, setOembedImgs,
      setDay.
    apply preserves_bind; [by intros s Hs|intros yes].
    destruct yes; auto 14 with pres.
Qed.

(** X16: the page makes a request to the network only in
    [handleTweetFetch].  Every other action (mounting, selecting a day,
    editing the record, exporting, importing, clearing the caches)
    leaves the list of requested addresses as it was, in any state. *)
Theorem only_tweet_fetch_makes_requests (env : Env) (a : action) (s : Sys) :
  a <> TweetFetch ->
  requests (exec (step env a) s) = requests s.
Proof. intros Ha. by apply (requests_step env a (requests s) Ha s). Qed.

Lemma only_tweet_fetch_makes_requests_witness :
  requests (exec (step offline (SelectDay 8)) day7saved) = requests day7saved.
Proof.
  apply (only_tweet_fetch_makes_requests offline (SelectDay 8) day7saved).
  discriminate.
Defined.

(* ===================================================================== *)
(** * The day of the month, the prompts and the calendar *)
(* ===================================================================== *)

(** [getCurrentOctDay()] for a clock whose local date has the year
    [fullYear], the month [month] (zero for January) and the day of the
    month [date]: the pair of [year] and [day]. *)
Definition getCurrentOctDay (fullYear month date : Z) : Z * Z :=
  if month =? 9 then (fullYear, Z.min (Z.max date 1) 31)
  else (fullYear, 1).

(** X17: the day the page starts on is always a day of October: between
    1 and 31 whatever the clock reads, the day of the month when the
    month is October, and 1 in any other month; the year is the year of
    the clock. *)
Theorem current_oct_day_in_month (fullYear month date : Z) :
  let r := getCurrentOctDay fullYear month date in
  fst r = fullYear
  /\ 1 <= snd r <= 31
  /\ (month = 9 -> 1 <= date <= 31 -> snd r = date)
  /\ (month <> 9 -> snd r = 1).
Proof.
  unfold getCurrentOctDay.
  destruct (Z.eqb_spec month 9) as [->|Hne]; simpl.
  - split; [reflexivity|]. split; [lia|]. split; [lia|]. done.
  - split; [reflexivity|]. split; [lia|]. split; [done|]. done.
Qed.

(** The prompts of the 31 days.  The hyphen of the 26th is the
    non-breaking hyphen, code unit 8209. *)
Definition PROMPTS : list jsstring :=
  [ js "Lightsaber Duel (Star Wars)";
    js "Hobbiton at Dawn (LotR)";
    js "Neo Dodging Bullets (Matrix)";
    js "Jurassic Jungle (Jurassic Park)";
    js "Mad Max Wasteland";
    js "Cartoon Gotham (Batman retro)";
    js "Kaiju Attack (Godzilla)";
    js "Ecto-1 in Action (Ghostbusters)";
    js "Cyberpunk Tokyo (Akira/Blade Runner)";
    js "Back to the Future Hoverboard";
    js "Wakanda Skyline (Black Panther)";
    js "Arcade Stranger Things";
    js "Quidditch Match (Harry Potter)";
    js "Indiana Jones Temple Trap";
    js "Spider-Verse Mashup";
    js "The Shining Hallway";
    js "Kaer Morhen Training (The Witcher)";
    js "Dune Sandworms";
    js "Studio Ghibli Feast";
    js "Ghostly Hotel (Resplandor vibes)";
    js "Treasure Planet Ship";
    js "Pirates of the Caribbean Duel";
    js "Pacific Rim Jaeger Battle";
    js "Classic Universal Monsters";
    js "Toy Story Western Scene";
    js "Cybernetic Samurai (Kurosawa + Sci" ++ [8209%N] ++ js "Fi)";
    js "Disney Villains Tea Party";
    js "Alien Facehugger Encounter";
    js "Marvel Zombies";
    js "Tim Burton's Wonderland";
    js "Cinematic Halloween Crossover" ].

(** The index [idx] of the prompt of the selected day. *)
Definition promptIndex (selectedDay : Z) : Z :=
  Z.min (Z.max (selectedDay - 1) 0) (Z.of_nat (length PROMPTS) - 1).

(** [promptText]: [None] is [undefined]. *)
Definition promptText (selectedDay : Z) : option jsstring :=
  PROMPTS !! Z.to_nat (promptIndex selectedDay).

(** X18: the prompt shown for the selected day is never [undefined] and
    never empty, whatever the selected day is.  For a day from 1 to 31 it
    is the entry of that day; a day below 1 gets the first prompt and a
    day above 31 the last. *)
Theorem prompt_text_always_defined (selectedDay : Z) :
  (exists p, promptText selectedDay = Some p /\ p <> [])
  /\ (1 <= selectedDay <= 31 ->
      promptText selectedDay = PROMPTS !! Z.to_nat (selectedDay - 1))
  /\ (selectedDay < 1 -> promptText selectedDay = PROMPTS !! 0%nat)
  /\ (31 < selectedDay -> promptText selectedDay = PROMPTS !! 30%nat).
Proof.
  assert (length PROMPTS = 31%nat) as Hlen by reflexivity.
  unfold promptText, promptIndex. rewrite Hlen. split.
  - assert (Forall (fun p : jsstring => p <> []) PROMPTS) as Hall
      by (unfold PROMPTS; repeat constructor; by vm_compute).
    destruct (lookup_lt_is_Some_2 PROMPTS
                (Z.to_nat (Z.min (Z.max (selectedDay - 1) 0) (Z.of_nat 31 - 1))))
      as [p Hp]; [rewrite Hlen; lia|].
    exists p. split; [exact Hp|].
    rewrite Forall_lookup in Hall. by apply (Hall _ _ Hp).
  - split; [|split]; intros H; f_equal; lia.
Qed.

(** The cells of the calendar of [CalendarOctober], for the day of the
    week [firstDow] of the first of October (zero for Sunday).  A cell is
    a day or [None] for [null]; [day] is the counter of the loops. *)
Definition calendarCell (startPad cellIndex day : Z) : option Z * Z :=
  if (cellIndex <? startPad) || (day >? 31) then (None, day)
  else (Some day, day + 1).

Fixpoint calendarRow (startPad w : Z) (ds : list Z) (day : Z)
  : list (option Z) * Z :=
  match ds with
  | [] => ([], day)
  | d :: ds' =>
      let '(cell, day1) := calendarCell startPad (w * 7 + d) day in
      let '(row, day2) := calendarRow startPad w ds' day1 in
      (cell :: row, day2)
  end.

Fixpoint calendarWeeks (startPad : Z) (ws : list Z) (day : Z)
  : list (list (option Z)) :=
  match ws with
  | [] => []
  | w :: ws' =>
      let '(row, day1) := calendarRow startPad w [0; 1; 2; 3; 4; 5; 6] day in
      row :: calendarWeeks startPad ws' day1
  end.

Definition startPad (firstDow : Z) : Z := Z.rem (firstDow + 6) 7.

Definition weeks (firstDow : Z) : list (list (option Z)) :=
  calendarWeeks (startPad firstDow) [0; 1; 2; 3; 4; 5] 1.

(** X19: whatever day of the week October starts on, the calendar has six
    rows of seven cells, and read row by row it holds the days 1 to 31
    once each, in order and without a gap, after as many empty cells as
    there are days from Monday to the first of October, the cells left
    over at the end being empty. *)
Theorem calendar_holds_each_day_once (firstDow : Z) :
  0 <= firstDow <= 6 ->
  length (weeks firstDow) = 6%nat
  /\ Forall (fun row => length row = 7%nat) (weeks firstDow)
  /\ concat (weeks firstDow)
     = replicate (Z.to_nat (startPad firstDow)) None
       ++ map Some (seqZ 1 31)
       ++ replicate (11 - Z.to_nat (startPad firstDow)) None.
Proof.
  intros H.
  assert (firstDow = 0 \/ firstDow = 1 \/ firstDow = 2 \/ firstDow = 3
          \/ firstDow = 4 \/ firstDow = 5 \/ firstDow = 6)
    as [->|[->|[->|[->|[->|[->| ->]]]]]] by lia;
    (split; [reflexivity|]; split; [repeat constructor|];
     vm_compute; reflexivity).
Qed.

Lemma calendar_holds_each_day_once_witness :
  concat (weeks 3)
  = replicate 2 None ++ map Some (seqZ 1 31) ++ replicate 9 None.
Proof.
  assert (0 <= 3 <= 6) as H by lia.
  by destruct (calendar_holds_each_day_once 3 H) as [_ [_ Hc]].
Defined.

(* ===================================================================== *)
(** * The carousel of the lightbox *)
(* ===================================================================== *)

(** The updates of [lightboxIndex] by the two buttons, for a gallery of
    [n] images; [Z.rem] is the remainder operator of JavaScript. *)
Definition previousImage (n i : Z) : Z := Z.rem (i - 1 + n) n.
Definition nextImage (n i : Z) : Z := Z.rem (i + 1) n.

(** X20: on a gallery of [n] images and from an index within it, both
    buttons of the lightbox give an index within the gallery; each undoes
    the other; the next of the last image is the first and the previous
    of the first is the last. *)
Theorem carousel_stays_in_gallery (n i : Z) :
  0 <= i < n ->
  0 <= previousImage n i < n
  /\ 0 <= nextImage n i < n
  /\ previousImage n (nextImage n i) = i
  /\ nextImage n (previousImage n i) = i
  /\ nextImage n (n - 1) = 0
  /\ previousImage n 0 = n - 1.
Proof.
  intros Hi. unfold previousImage, nextImage.
  assert (forall x, 0 <= x < n -> Z.rem x n = x) as Hsmall
    by (intros x Hx; apply Z.rem_small; lia).
  assert (forall x, x = n -> Z.rem x n = 0) as Hsame
    by (intros x ->; apply Z.rem_same; lia).
  assert (Z.rem (i + 1) n = if decide (i + 1 = n) then 0 else i + 1) as Hn.
  { destruct (decide (i + 1 = n)); [by apply Hsame|apply Hsmall; lia]. }
  assert (Z.rem (i - 1 + n) n = if decide (i = 0) then n - 1 else i - 1)
    as Hp.
  { destruct (decide (i = 0)) as [->|Hne]; [rewrite Hsmall; lia|].
    rewrite Z.rem_mod_nonneg by lia.
    replace (i - 1 + n) with ((i - 1) + 1 * n) by lia.
    rewrite Z_mod_plus_full. apply Z.mod_small. lia. }
  rewrite Hn, Hp.
  split; [destruct (decide (i = 0)); lia|].
  split; [destruct (decide (i + 1 = n)); lia|].
  split.
  - destruct (decide (i + 1 = n)).
    + replace (0 - 1 + n) with (n - 1) by lia. rewrite Hsmall; lia.
    + rewrite Z.rem_mod_nonneg by lia.
      replace (i + 1 - 1 + n) with (i + 1 * n) by lia.
      rewrite Z_mod_plus_full. apply Z.mod_small. lia.
  - split.
    + destruct (decide (i = 0)) as [->|Hne].
      * apply Hsame. lia.
      * replace (i - 1 + 1) with i by lia. by apply Hsmall.
    + split; [apply Hsame; lia|].
      replace (0 - 1 + n) with (n - 1) by lia. apply Hsmall. lia.
Qed.

Lemma carousel_stays_in_gallery_witness :
  previousImage 4 (nextImage 4 3) = 3.
Proof.
  assert (0 <= 3 < 4) as H by lia.
  by destruct (carousel_stays_in_gallery 4 3 H) as [_ [_ [Hpn _]]].
Defined.

(* ===================================================================== *)
(** * Loading a stored day and loading a post *)
(* ===================================================================== *)

(** A render changes neither the gallery nor the selection. *)
Lemma render_keeps_gallery (t : Sys) :
  oembedImgs (exec render t) = oembedImgs t
  /\ year (exec render t) = year t
  /\ selectedDay (exec render t) = selectedDay t.
Proof.
  unfold render, autoDoneEffect, persist, setDay, daysPut. mrun.
  destruct (allImages t) as [imgs|]; [|done].
  destruct (length imgs =? prevImgCountRef t)%nat; [done|]. simpl.
  destruct (dayState t) as [d|]; [|done].
  destruct ((prevImgCountRef t =? 0)%nat && (0 <? length imgs)%nat
            && negb (truthy_opt (obj_get (js "done") d))); [|done].
  simpl. destruct (dayState t) as [d'|]; [|done]. simpl.
  destruct (keyOf (spread d' [(js "done", JBool true)])); done.
Qed.

(** The render in which the rule fires. *)
Lemma render_fires (t : Sys) (d : obj) (K : json) (imgs : list json) :
  allImages t = Some imgs ->
  imgs <> [] ->
  prevImgCountRef t = 0%nat ->
  dayState t = Some d ->
  truthy_opt (obj_get (js "done") d) = false ->
  keyOf d = Some K ->
  exec render t
  = set_prevImgCountRef (length imgs)
      (set_days (<[K := markDone d]> (days t))
         (set_log (log t ++ [EvDaysPut (JObj (markDone d))])
            (set_dayState (Some (markDone d)) t))).
Proof.
  intros Himgs Hne Hprev Hd Hdone HK.
  assert (keyOf (spread d [(js "done", JBool true)]) = Some K) as HK'.
  { rewrite spread_keyOf; [exact HK|].
    repeat constructor; simpl; vm_compute; discriminate. }
  unfold render, autoDoneEffect, persist, setDay, daysPut, markDone. mrun.
  rewrite Himgs, Hprev.
  destruct imgs as [|i imgs]; [done|]. simpl.
  rewrite Hd. simpl. rewrite Hdone. simpl.
  rewrite Hprev. simpl. rewrite Hd. simpl. rewrite HK'. reflexivity.
Qed.

(** X21: loading a day whose record is stored (under the key of the
    selected day, in a well-formed store) empties the gallery and
    displays the stored record, or the stored record marked as done when
    the rule fires in the render after the load, in which case that is
    also what the store then holds.  When the stored record is done
    already, or has no manual image, it is displayed as stored and the
    load writes nothing. *)
Theorem load_stored_day (s : Sys) (r : obj) :
  daysWf (days s) ->
  days s !! JStr (idFor (year s) (selectedDay s)) = Some r ->
  let s' := exec loadDay s in
  let K := JStr (idFor (year s) (selectedDay s)) in
  oembedImgs s' = []
  /\ (dayState s' = Some r /\ days s' = days s
      \/ dayState s' = Some (markDone r)
         /\ days s' = <[K := markDone r]> (days s))
  /\ (truthy_opt (obj_get (js "done") r) = true
      \/ manualImages (Some r) = Some [] ->
      dayState s' = Some r /\ days s' = days s /\ log s' = log s).
Proof.
  intros Hwf Hr s' K. subst s'. rewrite loadDay_run.
  assert (loaded s = set_oembedImgs [] (set_dayState (Some r) s)) as Hl
    by (unfold loaded, selectedKey; by rewrite Hr).
  rewrite Hl. set (t := set_oembedImgs [] (set_dayState (Some r) s)).
  assert (keyOf r = Some K) as HK by (by apply Hwf).
  split; [by destruct (render_keeps_gallery t) as [-> _]|].
  split.
  - destruct (render_cases t r K eq_refl HK) as [Hf|Hf];
      unfold dayFields in Hf; injection Hf as _ _ Hst Hdays; auto.
  - intros Hquiet. unfold render, autoDoneEffect. mrun.
    unfold allImages. simpl.
    destruct (manualImages (Some r)) as [manual|] eqn:Hm; [|done].
    simpl. destruct (length manual =? prevImgCountRef s)%nat; [done|].
    simpl.
    destruct Hquiet as [Hdone|Hnone].
    + rewrite Hdone, !andb_false_r. done.
    + injection Hnone as ->. simpl. rewrite andb_false_r. done.
Qed.

Lemma load_stored_day_witness :
  oembedImgs (exec loadDay day7saved) = [].
Proof.
  assert (daysWf (days day7saved)) as Hwf
    by (apply (bool_decide_unpack (daysWf _)); vm_compute; exact I).
  destruct (days day7saved !! JStr (idFor (year day7saved)
                                      (selectedDay day7saved)))
    as [r|] eqn:Hr; [|vm_compute in Hr; discriminate].
  by destruct (load_stored_day day7saved r Hwf Hr) as [Hg _].
Defined.

(** The run of [handleTweetFetch] on a loaded day with a post address:
    the gallery is emptied and rendered, the resolver and the download
    loop run inside the [try], and the page is rendered again. *)
Lemma handleTweetFetch_run (env : Env) (s : Sys) (d : obj) (t : jsstring) :
  dayState s = Some d ->
  obj_get (js "tweetUrl") d = Some (JStr t) ->
  trim t <> [] ->
  outcome (handleTweetFetch env) s = Ok tt
  /\ exec (handleTweetFetch env) s
     = exec render
         (exec (tryCatch
                  (let! images := resolveTweetImages env (trim t) in
                   showImages env images) (ret tt))
            (exec render (set_oembedImgs [] s))).
Proof.
  intros Hd Ht Hurl.
  assert (handleTweetFetch env s
          = thenRender
              (thenRender (setOembedImgs []) ;;;
               tryCatch
                 (let! images := resolveTweetImages env (trim t) in
                  showImages env images) (ret tt)) s) as Heq.
  { unfold handleTweetFetch. unfold bind at 1, gets at 1. cbv beta iota.
    rewrite Hd, Ht. by destruct (trim t). }
  unfold outcome, exec. rewrite Heq.
  unfold thenRender, bind, setOembedImgs, modify.
  cbv beta iota. unfold tryCatch.
  destruct (resolveTweetImages env (trim t) _) as [[imgs|] s2]; [|by split].
  destruct (showImages env imgs s2) as [[[]|] s3]; by split.
Qed.

Lemma fetchBody_found (env : Env) (url : jsstring) (s1 s2 : Sys)
    (imgs : list jsstring) :
  resolveTweetImages env url s1 = (Ok imgs, s2) ->
  imgs <> [] ->
  exists out s3,
    exec (tryCatch
            (let! images := resolveTweetImages env url in
             showImages env images) (ret tt)) s1
    = set_oembedImgs out s3
    /\ Forall2 (downloadResult env) imgs out
    /\ sameDaysAndUrls s2 s3.
Proof.
  intros Hres Hne.
  destruct (processImages_run env imgs s2) as [out [s3 [Hproc [Hout Hsame]]]].
  exists out, s3. split; [|by split].
  unfold exec, tryCatch, bind. rewrite Hres. unfold showImages.
  destruct imgs as [|i imgs]; [done|]. cbn [length Nat.ltb Nat.leb].
  unfold bind. rewrite Hproc. reflexivity.
Qed.

Lemma fetchBody_nothing (env : Env) (url : jsstring) (s1 s2 : Sys)
    (r : result (list jsstring)) :
  resolveTweetImages env url s1 = (r, s2) ->
  r = Ok [] \/ r = Thrown ->
  exec (tryCatch
          (let! images := resolveTweetImages env url in
           showImages env images) (ret tt)) s1
  = s2.
Proof.
  intros Hres Hr. unfold exec, tryCatch, bind. rewrite Hres.
  by destruct Hr as [-> | ->].
Qed.

(** X22: loading a post marks the day as done.  On a loaded day that is
    not done and has no manual image, when the resolver gives at least
    one image for the trimmed post address, [handleTweetFetch] completes
    with one entry in the gallery per resolved image, in order, each the
    resolved address or an object URL of its download, and the record of
    the day, on display and in the store, is the loaded record with done
    set to true. *)
Theorem tweet_fetch_marks_day_done (env : Env) (s : Sys) (d : obj)
    (t : jsstring) (K : json) (imgs : list jsstring) :
  dayState s = Some d ->
  obj_get (js "tweetUrl") d = Some (JStr t) ->
  trim t <> [] ->
  manualImages (Some d) = Some [] ->
  truthy_opt (obj_get (js "done") d) = false ->
  keyOf d = Some K ->
  outcome (resolveTweetImages env (trim t))
    (set_prevImgCountRef 0 (set_oembedImgs [] s)) = Ok imgs ->
  imgs <> [] ->
  let s' := exec (handleTweetFetch env) s in
  outcome (handleTweetFetch env) s = Ok tt
  /\ Forall2 (downloadResult env) imgs (oembedImgs s')
  /\ dayState s' = Some (markDone d)
  /\ days s' = <[K := markDone d]> (days s)
  /\ obj_get (js "done") (markDone d) = Some (JBool true).
Proof.
  intros Hd Ht Hurl Hman Hdone HK Hres Himgs s'.
  destruct (handleTweetFetch_run env s d t Hd Ht Hurl) as [Hout Hrun].
  split; [exact Hout|]. subst s'. rewrite Hrun.
  rewrite (render_empty (set_oembedImgs [] s))
    by (unfold allImages; simpl; by rewrite Hd, Hman).
  set (s1 := set_prevImgCountRef 0 (set_oembedImgs [] s)) in *.
  pose proof (pageFields_resolveTweetImages env (trim t) s1) as Hpf.
  unfold outcome in Hres. unfold exec in Hpf.
  destruct (resolveTweetImages env (trim t) s1) as [r s2] eqn:Hrs.
  simpl in Hres, Hpf. subst r.
  destruct (fetchBody_found env (trim t) s1 s2 imgs Hrs Himgs)
    as [out [s3 [-> [Hout2 Hsame]]]].
  unfold pageFields in Hpf. injection Hpf as Hy Hsel Hst Hdays Hg Hprev.
  destruct Hsame as (Hy3&Hsel3&Hst3&Hg3&Hprev3&Hdays3&_).
  rewrite (render_fires (set_oembedImgs out s3) d K (map JStr out ++ [])).
  - simpl. split; [exact Hout2|]. split; [reflexivity|].
    split; [by rewrite Hdays3, Hdays|].
    unfold markDone, spread. simpl. apply obj_get_set_eq.
  - unfold allImages. simpl. rewrite Hst3, Hst. simpl. rewrite Hd.
    by rewrite Hman.
  - rewrite app_nil_r. destruct out; [|discriminate].
    apply Forall2_length in Hout2. destruct imgs; [done|discriminate].
  - simpl. by rewrite Hprev3, Hprev.
  - simpl. by rewrite Hst3, Hst.
  - exact Hdone.
  - exact HK.
Qed.

Lemma tweet_fetch_marks_day_done_witness :
  exists d, dayState (exec (handleTweetFetch offline) knownTyped)
            = Some (markDone d).
Proof.
  destruct (dayState knownTyped) as [d|] eqn:Hd;
    [|vm_compute in Hd; discriminate].
  exists d.
  destruct (outcome (resolveTweetImages offline (trim knownTweet))
              (set_prevImgCountRef 0 (set_oembedImgs [] knownTyped)))
    as [imgs|] eqn:Hres; [|vm_compute in Hres; discriminate].
  assert (d = spread (defaultDay 2025 7) [(js "tweetUrl", JStr knownTweet)])
    as Hd' by (vm_compute in Hd; by injection Hd as <-).
  assert (imgs <> []) as Hne
    by (intros ->; vm_compute in Hres; discriminate).
  destruct (tweet_fetch_marks_day_done offline knownTyped d knownTweet
              (JStr (idFor 2025 7)) imgs Hd)
    as [_ [_ [Hst _]]]; try (subst d; vm_compute; reflexivity);
    try (subst d; vm_compute; discriminate); try assumption.
Defined.

(** X23: a post for which nothing is found changes nothing but the
    gallery.  On a page at rest with a loaded day and a post address,
    when the resolver rejects or gives no image, [handleTweetFetch]
    still completes; it leaves the gallery empty and the year, the
    selected day, the loaded record and the day store as they were. *)
Theorem tweet_fetch_nothing_found (env : Env) (s : Sys) (d : obj)
    (t : jsstring) :
  atRest s ->
  dayState s = Some d ->
  obj_get (js "tweetUrl") d = Some (JStr t) ->
  trim t <> [] ->
  (forall i imgs,
     outcome (resolveTweetImages env (trim t))
       (exec render (set_oembedImgs [] s)) <> Ok (i :: imgs)) ->
  let s' := exec (handleTweetFetch env) s in
  outcome (handleTweetFetch env) s = Ok tt
  /\ oembedImgs s' = []
  /\ dayFields s' = dayFields s.
Proof.
  intros [imgs0 [Himgs0 Hprev0]] Hd Ht Hurl Hres s'.
  destruct (handleTweetFetch_run env s d t Hd Ht Hurl) as [Hout Hrun].
  split; [exact Hout|]. subst s'. rewrite Hrun. clear Hrun Hout.
  unfold allImages in Himgs0.
  destruct (manualImages (dayState s)) as [manual|] eqn:Hman; [|done].
  injection Himgs0 as <-.
  assert (exec render (set_oembedImgs [] s)
          = set_prevImgCountRef (length manual) (set_oembedImgs [] s)) as Hr1.
  { apply render_silent; [unfold allImages; simpl; by rewrite Hman|].
    destruct manual as [|m manual]; [by right|left].
    simpl. rewrite Hprev0, length_app. simpl. lia. }
  rewrite Hr1 in *.
  set (s1 := set_prevImgCountRef (length manual) (set_oembedImgs [] s)) in *.
  pose proof (pageFields_resolveTweetImages env (trim t) s1) as Hpf.
  unfold outcome in Hres. unfold exec in Hpf.
  destruct (resolveTweetImages env (trim t) s1) as [r s2] eqn:Hrs.
  simpl in Hres, Hpf.
  unfold pageFields in Hpf. injection Hpf as Hy Hsel Hst Hdays Hg Hprev.
  assert (exec render s2 = s2) as Hr2.
  { apply render_atRest. exists manual. unfold allImages.
    rewrite Hg, Hst, Hprev. simpl. by rewrite Hman. }
  rewrite (fetchBody_nothing env (trim t) s1 s2 r Hrs).
  - rewrite Hr2. split; [exact Hg|].
    unfold dayFields. by rewrite Hy, Hsel, Hst, Hdays.
  - destruct r as [[|i imgs]|]; auto. by destruct (Hres i imgs).
Qed.

(** Day 7 with the address of a post that no strategy knows. *)
Definition unknownTyped : Sys :=
  run [ (offline, Mount 2025 7);
        (offline, EditTweetUrl (js "https://x.com/user/status/1")) ] initial.

Lemma tweet_fetch_nothing_found_witness :
  dayFields (exec (handleTweetFetch offline) unknownTyped)
  = dayFields unknownTyped.
Proof.
  destruct (dayState unknownTyped) as [d|] eqn:Hd;
    [|vm_compute in Hd; discriminate].
  assert (d = spread (defaultDay 2025 7)
                [(js "tweetUrl", JStr (js "https://x.com/user/status/1"))])
    as Hd' by (vm_compute in Hd; by injection Hd as <-).
  assert (atRest unknownTyped) as Hrest by (exists []; by vm_compute).
  destruct (tweet_fetch_nothing_found offline unknownTyped d
              (js "https://x.com/user/status/1") Hrest Hd)
    as [_ [_ Hf]]; try exact Hf.
  - subst d. vm_compute. reflexivity.
  - vm_compute. discriminate.
  - intros i imgs. vm_compute. discriminate.
Defined.

(* ===================================================================== *)
(** * The cache statistics *)
(* ===================================================================== *)

(** [getCacheStats()]: the pair of [imageCount] and [urlCount]. *)
Definition getCacheStats : M (nat * nat) :=
  let! imageCount := gets (fun s => size (images s)) in
  let! urlCount := gets (fun s => size (urls s)) in
  ret (imageCount, urlCount).

Definition cachesAre (i : gmap jsstring ImageEntry)
    (u : gmap jsstring UrlsEntry) (s : Sys) : Prop :=
  images s = i /\ urls s = u.

Lemma cachesAre_render (i : gmap jsstring ImageEntry)
    (u : gmap jsstring UrlsEntry) :
  preserves (cachesAre i u) render.
Proof.
  intros s [Hi Hu]. destruct (render_frame s) as (Hu'&Hi'&_).
  unfold cachesAre, exec in *. split; congruence.
Qed.

(** X24: the statistics read after the cache-clear button are zero images
    and zero addresses when the user confirmed, whatever the caches held,
    and the counts of the caches as they were when the user declined. *)
Theorem cache_stats_after_clear (env : Env) (s : Sys) :
  outcome getCacheStats (exec (handleClearCache env) s)
  = Ok (if confirm env (ticks s) then (0%nat, 0%nat)
        else (size (images s), size (urls s))).
Proof.
  unfold handleClearCache. rewrite exec_bind. unfold Confirm at 1.
  cbv beta iota.
  destruct (confirm env (ticks s)); [|reflexivity].
  match goal with
  | |- outcome getCacheStats ?t = _ => set (X := t)
  end.
  assert (cachesAre ∅ ∅ X) as [Hi Hu].
  { subst X. rewrite exec_thenRender. apply cachesAre_render.
    rewrite exec_bind. unfold clearImageCache at 1, modify at 1.
    cbv beta iota. rewrite exec_bind. unfold clearUrlsCache at 1, modify at 1.
    cbv beta iota.
    match goal with
    | |- cachesAre _ _ (exec ?m ?t) =>
        assert (preserves (cachesAre ∅ ∅) m) as Hm; [|by apply (Hm t)]
    end.
    apply preserves_bind; [by intros t Ht|intros _].
    apply preserves_bind_gets. intros t Ht.
    destruct (dayState t) as [d|]; [|exact Ht].
    apply preserves_bind; [|intros _; by intros t' Ht'|exact Ht].
    apply preserves_rerender; [|apply cachesAre_render].
    intros t' Ht'. unfold setDay. rewrite daysPut_run.
    by destruct (keyOf _). }
  clearbody X. unfold getCacheStats, outcome, bind, gets, ret.
  cbv beta iota. rewrite Hi, Hu. reflexivity.
Qed.

(* ===================================================================== *)
(** * The theme *)
(* ===================================================================== *)

(** What [ThemeProvider] reads and writes in the browser: the item
    [theme] of [localStorage] ([None] when it is absent), the answer of
    the media query for a dark colour scheme, and whether the document
    element has the class [dark]. *)
Record Browser : Type := mkBrowser {
  themeItem : option jsstring;
  prefersDark : bool;
  darkClass : bool;
}.

(** The initial value of [isDark]. *)
Definition initialIsDark (b : Browser) : bool :=
  match themeItem b with
  | Some saved =>
      if truthy (JStr saved) then bool_decide (saved = js "dark")
      else prefersDark b
  | None => prefersDark b
  end.

(** The effect that runs when [isDark] changes. *)
Definition themeEffect (isDark : bool) (b : Browser) : Browser :=
  mkBrowser (Some (if isDark then js "dark" else js "light"))
    (prefersDark b)
    (if isDark then true else false).

(** [toggleTheme] *)
Definition toggleTheme (isDark : bool) : bool := negb isDark.

(** X25: the theme survives a reload.  Once the effect has run for a
    value of [isDark], a provider that starts over on what the effect
    stored starts with that value, whatever the colour scheme of the
    system is by then, and the document has the class [dark] exactly
    when the theme is dark; so a reload after [toggleTheme] starts with
    the opposite theme.  A stored item that is not empty and not the
    text [dark] gives the light theme, whatever the system prefers. *)
Theorem theme_survives_reload (isDark : bool) (b : Browser)
    (systemDark classNow : bool) :
  initialIsDark
    (mkBrowser (themeItem (themeEffect isDark b)) systemDark classNow)
  = isDark
  /\ darkClass (themeEffect isDark b) = isDark
  /\ initialIsDark
       (mkBrowser
          (themeItem (themeEffect (toggleTheme (initialIsDark b)) b))
          systemDark classNow)
     = negb (initialIsDark b)
  /\ forall saved,
       saved <> [] -> saved <> js "dark" ->
       initialIsDark (mkBrowser (Some saved) systemDark classNow) = false.
Proof.
  assert (forall v,
            initialIsDark
              (mkBrowser (themeItem (themeEffect v b)) systemDark classNow)
            = v) as Hround by (by intros []).
  split; [apply Hround|]. split; [by destruct isDark|].
  split; [apply Hround|].
  intros saved Hne Hdark. unfold initialIsDark. simpl.
  destruct saved as [|c saved]; [done|]. by rewrite bool_decide_false.
Qed.

(* ===================================================================== *)
(** * The alternative extraction *)
(* ===================================================================== *)

(** The double quote. *)
Definition quote : jsstring := [34%N].

(** The class of the characters that are no double quote. *)
Definition notQuote (c : N) : bool := negb (c =? 34)%N.

(** The text [media_url] between quotes, a colon and an opening quote. *)
Definition jsonMediaKey : jsstring :=
  quote ++ js "media_url" ++ quote ++ js ":" ++ quote.

(** The text [src=] and an opening quote. *)
Definition srcAttrKey : jsstring := js "src=" ++ quote.

(** The second and third pattern of [extractImagesFromTweetText]: the key,
    a run without quote that holds [pbs.twimg.com], a closing quote; the
    run around the host is of one or more characters on each side in the
    second pattern, of any number in the third. *)
Definition jsonMediaRegex : list reAtom :=
  map Lit jsonMediaKey ++ [Plus notQuote] ++ lits "pbs.twimg.com"
  ++ [Plus notQuote; Lit 34%N].
Definition srcAttrRegex : list reAtom :=
  map Lit srcAttrKey ++ [Star notQuote] ++ lits "pbs.twimg.com"
  ++ [Star notQuote; Lit 34%N].

(** The patterns applied to a match to take the address out of it: the
    key, a group of one or more characters without quote, a quote. *)
Definition jsonMediaCapture : list reAtom :=
  map Lit jsonMediaKey ++ [Plus notQuote; Lit 34%N].
Definition srcAttrCapture : list reAtom :=
  map Lit srcAttrKey ++ [Plus notQuote; Lit 34%N].

(** [m.match(re)?.[1]] for a pattern made of a key, one group and a
    closing quote: the match without the key and the last character. *)
Definition capture (re : list reAtom) (key : jsstring) (m : jsstring)
  : option jsstring :=
  match reSearch re m with
  | Some m' => Some (take (length m' - length key - 1) (drop (length key) m'))
  | None => None
  end.

(** The address taken from a match: the group if there is one and it is
    not empty, the match itself otherwise. *)
Definition urlOfMatch (m : jsstring) : jsstring :=
  if includes jsonMediaKey m then
    match capture jsonMediaCapture jsonMediaKey m with
    | Some (c :: g) => c :: g
    | _ => m
    end
  else if includes srcAttrKey m then
    match capture srcAttrCapture srcAttrKey m with
    | Some (c :: g) => c :: g
    | _ => m
    end
  else m.

(** What one match adds to the set [found]. *)
Definition foundOfMatch (m : jsstring) : list jsstring :=
  let url := urlOfMatch m in
  match url with
  | [] => []
  | _ => if includes (js "pbs.twimg.com") url then [largeFormat url] else []
  end.

(** [extractImagesFromTweetText(text)] *)
Definition extractImagesFromTweetText (text : jsstring) : list jsstring :=
  arrayFromSet
    (flat_map (fun pattern => flat_map foundOfMatch (matchAll pattern text))
       [mediaRegex; jsonMediaRegex; srcAttrRegex]).

Lemma arrayFromSet_elem {A} `{EqDecision A} (x : A) (l : list A) :
  x ∈ arrayFromSet l <-> x ∈ l.
Proof.
  induction l as [|y l IH]; simpl; [done|].
  rewrite !elem_of_cons, list_elem_of_filter, IH.
  destruct (decide (x = y)) as [->|Hne]; [by split; left|].
  split; [intros [->|[_ Hx]]; auto|intros [->|Hx]; auto].
Qed.

Lemma arrayFromSet_NoDup {A} `{EqDecision A} (l : list A) :
  NoDup (arrayFromSet l).
Proof.
  induction l as [|y l IH]; simpl; [constructor|].
  constructor; [|by apply NoDup_filter].
  rewrite list_elem_of_filter. by intros [Hy _].
Qed.

Lemma startsWith_inv (p s : jsstring) :
  startsWith p s = true -> exists b, s = p ++ b.
Proof.
  revert s. induction p as [|c p IH]; intros s; simpl; [by exists s|].
  destruct s as [|x s]; [discriminate|].
  intros H. apply andb_true_iff in H as [Hc Hp].
  apply N.eqb_eq in Hc. subst x.
  destruct (IH s Hp) as [b ->]. by exists b.
Qed.

Lemma includes_inv (p s : jsstring) :
  includes p s = true -> exists a b, s = a ++ p ++ b.
Proof.
  induction s as [|x s IH]; simpl.
  - rewrite orb_false_r. intros H. apply startsWith_inv in H as [b Hb].
    by exists [], b.
  - intros H. apply orb_true_iff in H as [H|H].
    + apply startsWith_inv in H as [b Hb]. by exists [], b.
    + destruct (IH H) as [a [b ->]]. by exists (x :: a), b.
Qed.

Lemma mediaMatch_no_quote (m : jsstring) :
  mediaMatch m -> Forall (fun c => c <> 34%N) m.
Proof.
  intros [scheme [c [body [Hs [-> [Hc Hbody]]]]]].
  assert (forall x, isDelimiter x = false -> x <> 34%N) as Hd
    by (intros x Hx ->; vm_compute in Hx; discriminate).
  apply Forall_app. split.
  - destruct Hs as [-> | ->]; vm_compute; repeat constructor; discriminate.
  - apply Forall_app. split.
    + vm_compute. repeat constructor; discriminate.
    + constructor; [by apply Hd, idChar_not_delimiter|].
      eapply Forall_impl; [exact Hbody|]. exact Hd.
Qed.

Lemma foundOfMatch_media (m : jsstring) :
  mediaMatch m -> foundOfMatch m = [largeFormat m].
Proof.
  intros Hm. pose proof (mediaMatch_no_quote m Hm) as Hnq.
  assert (forall key, 34%N ∈ key -> includes key m = false) as Hkey.
  { intros key Hin. destruct (includes key m) eqn:E; [|reflexivity].
    apply includes_inv in E as [a [b ->]].
    rewrite !Forall_app in Hnq. destruct Hnq as [_ [Hk _]].
    rewrite Forall_forall in Hk. by destruct (Hk _ Hin). }
  unfold foundOfMatch, urlOfMatch.
  rewrite (Hkey jsonMediaKey) by (vm_compute; apply list_elem_of_here).
  rewrite (Hkey srcAttrKey)
    by (unfold srcAttrKey, quote; rewrite elem_of_app; right;
        apply list_elem_of_here).
  destruct Hm as [scheme [c [body [Hs [-> [Hc Hbody]]]]]].
  assert (includes (js "pbs.twimg.com")
            (scheme ++ js "://pbs.twimg.com/media/" ++ c :: body) = true)
    as ->.
  { change (js "://pbs.twimg.com/media/")
      with (js "://" ++ js "pbs.twimg.com" ++ js "/media/").
    rewrite <- !app_assoc, (app_assoc scheme).
    apply includes_app. }
  by destruct Hs as [-> | ->].
Qed.

(** X26: the alternative extraction gives a list without duplicates, in
    which every address is a text without question mark followed by
    [?format=jpg&name=large]; and it finds every address that the relay
    extraction finds in the same text. *)
Theorem extract_images_from_text (text : jsstring) :
  NoDup (extractImagesFromTweetText text)
  /\ Forall (fun u => exists c,
                 u = c ++ js "?format=jpg&name=large"
                 /\ Forall (fun x => x <> 63%N) c)
       (extractImagesFromTweetText text)
  /\ forall u,
       u ∈ map largeFormat (arrayFromSet (matchAll mediaRegex text)) ->
       u ∈ extractImagesFromTweetText text.
Proof.
  unfold extractImagesFromTweetText. split; [apply arrayFromSet_NoDup|].
  split.
  - apply arrayFromSet_Forall. apply Forall_flat_map, Forall_forall.
    intros pattern _. apply Forall_flat_map, Forall_forall. intros m _.
    unfold foundOfMatch. destruct (urlOfMatch m) as [|x url]; [constructor|].
    destruct (includes _ _); [|constructor].
    repeat constructor. exists (beforeQuery (x :: url)).
    split; [reflexivity|]. apply beforeQuery_spec.
  - intros u Hu. apply list_elem_of_fmap in Hu as [m [-> Hm]].
    apply (proj1 (arrayFromSet_elem _ _)) in Hm.
    apply (proj2 (arrayFromSet_elem _ _)).
    simpl. rewrite elem_of_app. left.
    apply list_elem_of_In, in_flat_map. exists m.
    split; [by apply (proj1 (list_elem_of_In _ _))|].
    rewrite foundOfMatch_media; [by left|].
    assert (Forall mediaMatch (matchAll mediaRegex text)) as Hall.
    { apply (matchAllFrom_Forall mediaMatch). intros s n H.
      by apply mediaRegex_shape. }
    rewrite Forall_forall in Hall. by apply Hall.
Qed.

(* ===================================================================== *)
(** * Dragging the image of the lightbox *)
(* ===================================================================== *)

(** The ref [dragRef], and the part of the lightbox the mouse handlers
    work on: the ref [panRef] and the state [pan], each a pair of [x] and
    [y].  Mouse coordinates are whole numbers of pixels. *)
Record DragRef : Type := mkDragRef {
  dragging : bool;
  lastX : Z;
  lastY : Z;
}.

Record PanState : Type := mkPanState {
  dragRef : DragRef;
  panRef : Z * Z;
  pan : Z * Z;
}.

(** [onMouseDown(e)] for an event at [(clientX, clientY)]. *)
Definition onMouseDown (e : Z * Z) (st : PanState) : PanState :=
  mkPanState (mkDragRef true (fst e) (snd e)) (panRef st) (pan st).

(** [onMouseMove(e)]; [zoomIsOne] is the outcome of the test
    [zoom === 1]. *)
Definition onMouseMove (zoomIsOne : bool) (e : Z * Z) (st : PanState)
  : PanState :=
  if negb (dragging (dragRef st)) || zoomIsOne then st
  else
    let dx := fst e - lastX (dragRef st) in
    let dy := snd e - lastY (dragRef st) in
    let p := (fst (panRef st) + dx, snd (panRef st) + dy) in
    mkPanState (mkDragRef (dragging (dragRef st)) (fst e) (snd e)) p p.

(** [onMouseUp()] *)
Definition onMouseUp (st : PanState) : PanState :=
  mkPanState
    (mkDragRef false (lastX (dragRef st)) (lastY (dragRef st)))
    (panRef st) (pan st).

(** A drag: the moves of the mouse, in order, on a zoomed image. *)
Definition moves (es : list (Z * Z)) (st : PanState) : PanState :=
  fold_left (fun st e => onMouseMove false e st) es st.

Lemma onMouseMove_step (e : Z * Z) (st : PanState) :
  dragging (dragRef st) = true ->
  let st1 := onMouseMove false e st in
  dragging (dragRef st1) = true
  /\ lastX (dragRef st1) = fst e /\ lastY (dragRef st1) = snd e
  /\ panRef st1
     = (fst (panRef st) + (fst e - lastX (dragRef st)),
        snd (panRef st) + (snd e - lastY (dragRef st)))
  /\ pan st1 = panRef st1.
Proof.
  intros Hdrag. unfold onMouseMove. rewrite Hdrag. by repeat split.
Qed.

Lemma moves_cons (e : Z * Z) (es : list (Z * Z)) (st : PanState) :
  moves (e :: es) st = moves es (onMouseMove false e st).
Proof. reflexivity. Qed.

Lemma moves_follow (es : list (Z * Z)) (st : PanState) :
  dragging (dragRef st) = true ->
  dragging (dragRef (moves es st)) = true
  /\ fst (panRef (moves es st)) - lastX (dragRef (moves es st))
     = fst (panRef st) - lastX (dragRef st)
  /\ snd (panRef (moves es st)) - lastY (dragRef (moves es st))
     = snd (panRef st) - lastY (dragRef st)
  /\ (es <> [] -> pan (moves es st) = panRef (moves es st)).
Proof.
  revert st. induction es as [|e es IH]; intros st Hdrag.
  - by repeat split.
  - rewrite moves_cons.
    destruct (onMouseMove_step e st Hdrag) as (Hd&HX&HY&Hp&Hpan).
    destruct (IH _ Hd) as (H1&H2&H3&H4).
    split; [exact H1|]. rewrite H2, H3, HX, HY, Hp. simpl.
    split; [lia|]. split; [lia|]. intros _.
    destruct es as [|e' es]; [exact Hpan|apply H4; discriminate].
Qed.

(** X27: the image follows the mouse.  After the button goes down at a
    point and the mouse moves over any path on a zoomed image, the pan is
    the pan before the drag plus the displacement from that point to the
    last point of the path, and the state [pan] is the ref [panRef].
    Moves made when no button is down or when the zoom is 1, and moves
    after the button is released, change nothing. *)
Theorem drag_follows_the_mouse (down : Z * Z) (path : list (Z * Z))
    (final : Z * Z) (st : PanState) :
  let st' := moves (path ++ [final]) (onMouseDown down st) in
  panRef st'
  = (fst (panRef st) + (fst final - fst down),
     snd (panRef st) + (snd final - snd down))
  /\ pan st' = panRef st'
  /\ (forall e, dragging (dragRef st) = false ->
                onMouseMove false e st = st)
  /\ (forall e, onMouseMove true e st = st)
  /\ forall e, onMouseMove false e (onMouseUp st') = onMouseUp st'.
Proof.
  intros st'.
  assert (dragging (dragRef (onMouseDown down st)) = true) as Hdown
    by reflexivity.
  destruct (moves_follow (path ++ [final]) (onMouseDown down st) Hdown)
    as (Hd&Hx&Hy&Hpan).
  fold st' in Hd, Hx, Hy, Hpan.
  assert (lastX (dragRef st') = fst final /\ lastY (dragRef st') = snd final)
    as [HlX HlY].
  { subst st'. unfold moves. rewrite fold_left_app.
    destruct (moves_follow path (onMouseDown down st) Hdown) as (Hd'&_).
    destruct (onMouseMove_step final _ Hd') as (_&HX&HY&_).
    by split. }
  rewrite HlX in Hx. rewrite HlY in Hy.
  change (panRef (onMouseDown down st)) with (panRef st) in Hx, Hy.
  change (lastX (dragRef (onMouseDown down st))) with (fst down) in Hx.
  change (lastY (dragRef (onMouseDown down st))) with (snd down) in Hy.
  split.
  - destruct (panRef st') as [px py]. simpl in *. f_equal; lia.
  - split; [apply Hpan; by destruct path|].
    split; [intros e He; unfold onMouseMove; by rewrite He|].
    split; [intros e; unfold onMouseMove; by rewrite orb_true_r|].
    intros e. reflexivity.
Qed.
